(** * NFLGPT: Monte Carlo game simulators

    A shallow embedding of the simulation engines of the repository:

    - [DDS]        : src/DDSmontecarlo_w8_robust.js (discrete per-drive engine)
    - [GaussFixed] : src/MonteCarloSimulator_rewrite_FIXED_v2.js (Gaussian engine)
    - [GaussV3]    : the Gaussian v3 engine with the robust CSV adapter
    - [V4]         : src/MonteCarloSimulator_calibrated_v4_DEBUG.js (trial loop)
    - [V4Game]     : the same file, from the ratings to the expected points
                     and from the trials to the reported results
    - [Text], [V4Csv], [GaussV3Csv] : strings as code units and the CSV
                     readers of the v4 and the Gaussian v3 engine

    Numbers.  A finite JavaScript number is modelled by an exact rational
    ([Q]); rounding error of IEEE doubles is not modelled.  The non-finite
    values (NaN, +Infinity, -Infinity) and the values [undefined] and [null]
    are modelled in [JS.jsnum] and [JS.jsval], and are used where the code
    tests for them (the z-score guards).  Scores are integer valued in every
    engine (sums of 0, 3 and 7, or results of [Math.round]) and are kept in
    [Z].

    Library functions.  [Math.exp], [Math.sqrt], [Math.log], [Math.cos],
    [Math.sin] and the constant [Math.PI] are parameters of the engines, and
    the values returned by successive calls of [Math.random] are a parameter
    [U : nat -> Q]; the position in that sequence is threaded through the
    sampling code as explicit state. *)

From Stdlib Require Import String Bool.
From Stdlib Require Import QArith Qround Qminmax Qabs ZArith List Lia Lqa Psatz.
From Stdlib Require Import Sorting.Permutation Sorting.Sorted Sorting.Mergesort Orders.
Import ListNotations.
Open Scope Q_scope.

(** ** JavaScript numeric primitives *)

Module JS.

(** [Math.max], [Math.min] on finite numbers are [Qmax] and [Qmin]. *)

(** [Math.floor] and [Math.round] (round half up: [floor (x + 0.5)]). *)
Definition floor (x : Q) : Z := Qfloor x.
Definition round (x : Q) : Z := Qfloor (x + 0.5).

(** [a < b] on finite numbers. *)
Definition lt (a b : Q) : bool := negb (Qle_bool b a).

(** Truthiness of a finite number: [0] is falsy. *)
Definition truthy (x : Q) : bool := negb (Qeq_bool x 0).

(** [x || d] on finite numbers. *)
Definition or_else (x d : Q) : Q := if truthy x then x else d.

(** The number domain with its non-finite members. *)
Inductive jsnum : Type :=
| Fin (q : Q)
| PosInf
| NegInf
| NaN.

(** A metric cell as the z-score helpers may receive it. *)
Inductive jsval : Type :=
| Undefined
| Null
| Number (n : jsnum).

Definition isFinite (n : jsnum) : bool :=
  match n with Fin _ => true | _ => false end.

(** [s === 0] *)
Definition is_zero (n : jsnum) : bool :=
  match n with Fin q => Qeq_bool q 0 | _ => false end.

Definition neg (a : jsnum) : jsnum :=
  match a with
  | Fin q => Fin (- q)
  | PosInf => NegInf
  | NegInf => PosInf
  | NaN => NaN
  end.

Definition add (a b : jsnum) : jsnum :=
  match a, b with
  | NaN, _ | _, NaN => NaN
  | Fin x, Fin y => Fin (x + y)
  | PosInf, NegInf | NegInf, PosInf => NaN
  | PosInf, _ | _, PosInf => PosInf
  | NegInf, _ | _, NegInf => NegInf
  end.

(** [a - b]; on finite operands it is [Fin (x - y)]. *)
Definition sub (a b : jsnum) : jsnum :=
  match a, b with
  | Fin x, Fin y => Fin (x - y)
  | _, _ => add a (neg b)
  end.

(** Sign of a finite number, with zero counted as positive zero. *)
Definition nonneg (q : Q) : bool := Qle_bool 0 q.

(** [a / b].  A finite non-zero number over zero is an infinity, zero over
    zero and infinity over infinity are NaN, finite over infinity is zero. *)
Definition div (a b : jsnum) : jsnum :=
  match a, b with
  | NaN, _ | _, NaN => NaN
  | Fin x, Fin y =>
      if Qeq_bool y 0
      then (if Qeq_bool x 0 then NaN else if nonneg x then PosInf else NegInf)
      else Fin (x / y)
  | Fin _, (PosInf | NegInf) => Fin 0
  | PosInf, Fin y => if nonneg y then PosInf else NegInf
  | NegInf, Fin y => if nonneg y then NegInf else PosInf
  | (PosInf | NegInf), (PosInf | NegInf) => NaN
  end.

(** A trial count as the input handlers store it: the result of
    [parseInt], an integer or NaN. *)
Inductive jsint : Type :=
| Int (n : Z)
| IntNaN.

(** [parseInt(n || d)] on such a value ([parseInt] returns an integer
    below 10^21 unchanged). *)
Definition int_or_else (n : jsint) (d : Z) : Z :=
  match n with
  | Int k => if Z.eqb k 0 then d else k
  | IntNaN => d
  end.

(** Number of iterations of [for (let i = 0; i < n; i++)]. *)
Definition loop_count (n : jsint) : nat :=
  match n with
  | Int k => Z.to_nat k
  | IntNaN => O
  end.

End JS.

(** ** Team records

    The normalized per-team record built by [parseRow] /
    [projectTeamFromDB]: every metric has a numeric value. *)

Record TeamStats : Type := mkTeam {
  Team : string;
  off_ppd : Q; off_epa : Q; off_sr : Q; off_xpl : Q; off_rz : Q; off_3out : Q;
  off_penalties : Q; off_to_epa : Q; off_fp : Q;
  def_ppd_allowed : Q; def_epa_allowed : Q; def_sr : Q; def_xpl : Q; def_rz : Q;
  def_3out : Q; def_penalties : Q;
  off_dvoa : Q; def_dvoa : Q;
  off_drives : Q; def_drives : Q; off_plays : Q; def_plays : Q;
  ed_pass : Q; no_huddle : Q
}.

(** The team database, keyed by team name. *)
Definition TeamDB : Type := string -> option TeamStats.

(** A non-empty string is truthy. *)
Definition selected (name : string) : bool :=
  match name with EmptyString => false | _ => true end.

(** ** Sorting of score arrays: [[...arr].sort((a,b)=>a-b)] *)

Module ZOrder <: TotalLeBool.
Definition t := Z.
Definition leb := Z.leb.
Lemma leb_total : forall a1 a2, leb a1 a2 = true \/ leb a2 a1 = true.
Proof.
  intros a1 a2; unfold leb.
  destruct (Z.leb_spec a1 a2); [left | right]; auto.
  apply Z.leb_le; lia.
Qed.
End ZOrder.

Module ZSort := Sort ZOrder.

Definition sortNum (arr : list Z) : list Z := ZSort.sort arr.

(** ** Aggregation helpers shared by the engines

    [mean] and [median] are written identically in the discrete engine, in
    the Gaussian rewrite and in the Gaussian v3 engine.  Reading an array
    at an index outside it (possible only for an empty trial set) yields
    [undefined] in the source; the model reads the default [0%Z] there. *)

(** [arr.reduce((a,b)=>a+b,0)] *)
Definition sum (arr : list Z) : Z := fold_left Z.add arr 0%Z.

Definition len (arr : list Z) : Z := Z.of_nat (List.length arr).

(** [arr.reduce((a,b)=>a+b,0)/arr.length] *)
Definition mean (arr : list Z) : Q := inject_Z (sum arr) / inject_Z (len arr).

(** [const s=[...arr].sort((a,b)=>a-b), m=Math.floor(s.length/2);
     return s.length%2 ? s[m] : (s[m-1]+s[m])/2] *)
Definition median (arr : list Z) : Q :=
  let s := sortNum arr in
  let m := Nat.div (List.length s) 2 in
  if Nat.odd (List.length s)
  then inject_Z (nth m s 0%Z)
  else inject_Z (nth (m - 1) s 0%Z + nth m s 0%Z) / 2.

(** [arr.filter(x => x > t).length], [arr.filter(x => x < t).length] *)
Definition count_above (t : Q) (arr : list Z) : nat :=
  List.length (filter (fun x => JS.lt t (inject_Z x)) arr).

Definition count_below (t : Q) (arr : list Z) : nat :=
  List.length (filter (fun x => JS.lt (inject_Z x) t) arr).

(** [spreads.filter(s => s + (-mktSpr) > 0).length] and its mirror. *)
Definition count_cover (mktSpr : Q) (spreads : list Z) : nat :=
  List.length (filter (fun s => JS.lt 0 (inject_Z s + (- mktSpr))) spreads).

Definition count_nocover (mktSpr : Q) (spreads : list Z) : nat :=
  List.length (filter (fun s => JS.lt (inject_Z s + (- mktSpr)) 0) spreads).

Definition ratio (c : nat) (n : Z) : Q := inject_Z (Z.of_nat c) / inject_Z n.

(** The percentile ladder reported for totals and spreads. *)
Record Ladder : Type := mkLadder { p10 : Z; p25 : Z; p50 : Z; p75 : Z; p90 : Z }.

Definition ladder (pc : list Z -> Q -> Z) (arr : list Z) : Ladder :=
  mkLadder (pc arr 0.10) (pc arr 0.25) (pc arr 0.50) (pc arr 0.75) (pc arr 0.90).

(** ** The discrete per-drive engine (DDSmontecarlo_w8_robust.js) *)

Module DDS.

(** [params.lg] *)
Record League : Type := mkLeague {
  PPD : Q; PPD_sd : Q; EPA : Q; EPA_sd : Q; SR : Q; SR_sd : Q;
  RZ : Q; RZ_sd : Q; ThreeOut : Q; ThreeOut_sd : Q; Drives : Q
}.

Definition lg : League :=
  mkLeague 2.02 0.40 0.022 0.127 0.43 0.05 0.56 0.12 0.24 0.05 24.

(** [params.logits] *)
Record Logits : Type := mkLogits {
  a0 : Q; a1 : Q; a2 : Q; a3 : Q; a4 : Q;
  b0 : Q; b1 : Q; b2 : Q; b3 : Q; b4 : Q;
  phi : Q
}.

Definition logits : Logits :=
  mkLogits (-1.31) 1.10 0.85 0.60 0.25 (-0.76) 0.95 0.55 0.35 0.40 0.32.

(** [params.weights] (used for pace only) *)
Record Weights : Type := mkWeights {
  w_EPA : Q; w_SR : Q; w_PPD_resid : Q; w_RZ : Q; w_ThreeOut_eff : Q;
  w_DVOA_off : Q; w_DVOA_def : Q; Pace_EDPass : Q; NoHuddle : Q
}.

Definition weights : Weights :=
  mkWeights 0.40 0.25 0.20 0.10 0.05 0.12 0.12 0.10 0.20.

(** [params.resid] *)
Definition c1 : Q := 0.56.
Definition c2 : Q := 0.21.

(** [const z = (v, m, s) =>
      (!isFinite(s) || s === 0 || v === undefined || v === null) ? 0 : (v - m) / s] *)
Definition z (v : JS.jsval) (m s : JS.jsnum) : JS.jsnum :=
  match v with
  | JS.Number x =>
      if negb (JS.isFinite s) || JS.is_zero s then JS.Fin 0
      else JS.div (JS.sub x m) s
  | JS.Undefined | JS.Null => JS.Fin 0
  end.

(** [z] on a finite metric and a finite baseline, as the engine calls it. *)
Definition z_fin (v m s : Q) : Q :=
  if Qeq_bool s 0 then 0 else (v - m) / s.

Definition sigmoid (exp : Q -> Q) (x : Q) : Q := 1 / (1 + exp (- x)).

Definition clamp01 (p : Q) : Q := Qmax 0 (Qmin 1 p).

Record Nets : Type := mkNets {
  EPA_net : Q; SR_net : Q; RZ_net : Q; ThreeOut_eff : Q; PPD_resid : Q
}.

Definition buildNets (off def : TeamStats) : Nets :=
  let L := lg in
  let z_epa_o := z_fin (off_epa off) (EPA L) (EPA_sd L) in
  let z_sr_o := z_fin (off_sr off) (SR L) (SR_sd L) in
  let z_rz_o := z_fin (off_rz off) (RZ L) (RZ_sd L) in
  let z_3o_o := z_fin (off_3out off) (ThreeOut L) (ThreeOut_sd L) in
  let z_ppd_o := z_fin (off_ppd off) (PPD L) (PPD_sd L) in
  let z_epa_d := z_fin (def_epa_allowed def) (EPA L) (EPA_sd L) in
  let z_sr_d := z_fin (def_sr def) (SR L) (SR_sd L) in
  let z_rz_d := z_fin (def_rz def) (RZ L) (RZ_sd L) in
  let z_3o_d := z_fin (def_3out def) (ThreeOut L) (ThreeOut_sd L) in
  let z_ppd_d := z_fin (def_ppd_allowed def) (PPD L) (PPD_sd L) in
  let EPA_net := z_epa_o - z_epa_d in
  let SR_net := z_sr_o - z_sr_d in
  let RZ_net := z_rz_o - z_rz_d in
  let ThreeOut_eff := z_3o_d - z_3o_o in
  let PPD_net := z_ppd_o - z_ppd_d in
  let PPD_resid := PPD_net - (c1 * EPA_net + c2 * SR_net) in
  mkNets EPA_net SR_net RZ_net ThreeOut_eff PPD_resid.

Record Pace : Type := mkPace { gameDrives : Q; posShare : Q }.

(** The two per-team pace estimates and their sum, the base game drives. *)
Definition offDefAvgHome (home away : TeamStats) : Q :=
  (off_drives home + def_drives away) / 2.

Definition offDefAvgAway (home away : TeamStats) : Q :=
  (off_drives away + def_drives home) / 2.

Definition nh_boost (home away : TeamStats) : Q :=
  (JS.or_else (no_huddle home) 0 + JS.or_else (no_huddle away) 0) / 2
  * NoHuddle weights * 0.5.

Definition ed_adj (home away : TeamStats) : Q :=
  ((JS.or_else (ed_pass home) 0 - 0.5) + (JS.or_else (ed_pass away) 0 - 0.5)) / 2
  * Pace_EDPass weights.

(** [gameDrives] after the pace adjustments and before the clamp. *)
Definition paceDrives (home away : TeamStats) : Q :=
  (offDefAvgHome home away + offDefAvgAway home away)
  * (1 + nh_boost home away + ed_adj home away).

Definition computePace (home away : TeamStats) (netsHome : Nets) : Pace :=
  let gameDrives := Qmax 20 (Qmin 30 (paceDrives home away)) in
  let posShare := 0.5 + 0.15 * (SR_net netsHome + 0.5 * EPA_net netsHome) in
  let posShare := Qmax 0.35 (Qmin 0.65 posShare) in
  mkPace gameDrives posShare.

Record Probs : Type := mkProbs {
  p3O : Q; pTD : Q; pFG : Q; pEmpty : Q; pS : Q; pTD_S : Q
}.

(** [def.def_3out ?? params.lg.ThreeOut] is [def.def_3out]: the record
    always carries the field. *)
Definition driveProbs (exp : Q -> Q) (off def : TeamStats) (nets : Nets) : Probs :=
  let opp3o_raw := def_3out def in
  let rz_bad := - (RZ_net nets) in
  let p3O := sigmoid exp (a0 logits - a1 logits * EPA_net nets - a2 logits * SR_net nets
                          + a3 logits * (opp3o_raw - ThreeOut lg) + a4 logits * rz_bad) in
  let p3O := clamp01 p3O in
  let pTD_S := clamp01 (sigmoid exp (b0 logits + b1 logits * EPA_net nets
                                     + b2 logits * SR_net nets + b3 logits * RZ_net nets
                                     + b4 logits * PPD_resid nets)) in
  let pS := 1 - p3O in
  let pTD := pS * pTD_S in
  let pFG := pS * (1 - pTD_S) * Qmax 0 (Qmin 1 (phi logits)) in
  let pEmpty := Qmax 0 (1 - (p3O + pTD + pFG)) in
  mkProbs p3O pTD pFG pEmpty pS pTD_S.

(** The three thresholds a drive is sampled against ([adjHome], [adjAway]). *)
Record DriveP : Type := mkDriveP { d3O : Q; dTD : Q; dFG : Q }.

(** [const sumH = ...; const scaleH = sumH > 1 ? 1/sumH : 1;
     adjHome.p3O *= scaleH; adjHome.pTD *= scaleH; adjHome.pFG *= scaleH] *)
Definition renorm (p : DriveP) : DriveP :=
  let sumP := d3O p + dTD p + dFG p in
  let scale := if JS.lt 1 sumP then 1 / sumP else 1 in
  mkDriveP (d3O p * scale) (dTD p * scale) (dFG p * scale).

(** The home side: HFA tilt, then renormalization. *)
Definition tiltHome (baseHome : Probs) (hfa : Q) : DriveP :=
  let hfaTDk := 0.02 * Qmax 0 hfa in
  let hfa3Ok := 0.01 * Qmax 0 hfa in
  mkDriveP (clamp01 (p3O baseHome * (1 - hfa3Ok)))
           (clamp01 (pTD baseHome * (1 + hfaTDk)))
           (pFG baseHome).

Definition adjHomeOf (baseHome : Probs) (hfa : Q) : DriveP :=
  renorm (tiltHome baseHome hfa).

(** The away side: [{ ...baseAway }], then renormalization. *)
Definition adjAwayOf (baseAway : Probs) : DriveP :=
  renorm (mkDriveP (p3O baseAway) (pTD baseAway) (pFG baseAway)).

(** The probability left to the empty possession after the three
    thresholds: the last [return 0] of [sampleDrive]. *)
Definition residual (p : DriveP) : Q := 1 - (d3O p + dTD p + dFG p).

Section Sampling.

Variable exp : Q -> Q.
Variable U : nat -> Q.

(** [sampleDrive]: one [Math.random()] draw classified against the
    cumulative thresholds; returns the points and the advanced position. *)
Definition sampleDrive (p : DriveP) (k : nat) : Z * nat :=
  let r := U k in
  let pts :=
    if JS.lt r (d3O p) then 0%Z
    else if JS.lt r (d3O p + dTD p) then 7%Z
    else if JS.lt r (d3O p + dTD p + dFG p) then 3%Z
    else 0%Z in
  (pts, S k).

(** [for (let i = 0; i < drives; i++) score += sampleDrive(p)] *)
Fixpoint sampleDrives (p : DriveP) (n : nat) (score : Z) (k : nat) : Z * nat :=
  match n with
  | O => (score, k)
  | S n' =>
      let (pts, k') := sampleDrive p k in
      sampleDrives p n' (score + pts)%Z k'
  end.

Record Debug : Type := mkDebug {
  dbg_homeDrives : Z; dbg_homeProb : DriveP;
  dbg_awayDrives : Z; dbg_awayProb : DriveP;
  dbg_baseHome : Probs; dbg_baseAway : Probs
}.

Record Game : Type := mkGame { hs : Z; as_ : Z; debug : Debug }.

Definition simulateOne (home away : TeamStats) (netsHome netsAway : Nets)
    (gameDrives posShare hfa : Q) (k : nat) : Game * nat :=
  let homeDrives := JS.round (gameDrives * posShare) in
  let awayDrives := JS.round (gameDrives - inject_Z homeDrives) in
  let baseHome := driveProbs exp home away netsHome in
  let baseAway := driveProbs exp away home netsAway in
  let adjHome := adjHomeOf baseHome hfa in
  let adjAway := adjAwayOf baseAway in
  let (hs, k1) := sampleDrives adjHome (Z.to_nat homeDrives) 0%Z k in
  let (as_, k2) := sampleDrives adjAway (Z.to_nat awayDrives) 0%Z k1 in
  (mkGame hs as_ (mkDebug homeDrives adjHome awayDrives adjAway baseHome baseAway), k2).

(** The session state [run] reads.  [marketTotal] and [marketSpread] hold
    the parsed line, [None] standing for the empty text box ([null]). *)
Record Session : Type := mkSession {
  teamDB : TeamDB;
  homeTeam : string;
  awayTeam : string;
  hfaPoints : Q;
  numSim : JS.jsint;
  marketTotal : option Q;
  marketSpread : option Q
}.

(** [const N = Math.max(1, parseInt(numSim || 10000))] *)
Definition trialCount (numSim : JS.jsint) : Z :=
  Z.max 1 (JS.int_or_else numSim 10000).

(** The variables the trial loop updates.  Slot [i] of [totals] and
    [spreads] is written at iteration [i], so the arrays grow left to
    right. *)
Record Trials : Type := mkTrials {
  totals : list Z; spreads : list Z; sumH : Z; sumA : Z;
  lastDebug : option Debug; rng : nat
}.

Definition trialStep (H A : TeamStats) (netsHome netsAway : Nets) (pace : Pace)
    (hfa : Q) (t : Trials) : Trials :=
  let (out, k') := simulateOne H A netsHome netsAway (gameDrives pace) (posShare pace)
                     (Qmax 0 (JS.or_else hfa 0)) (rng t) in
  mkTrials (totals t ++ [(hs out + as_ out)%Z])
           (spreads t ++ [(hs out - as_ out)%Z])
           (sumH t + hs out) (sumA t + as_ out)
           (match totals t with [] => Some (debug out) | _ => lastDebug t end)
           k'.

Fixpoint trialLoop (H A : TeamStats) (netsHome netsAway : Nets) (pace : Pace)
    (hfa : Q) (n : nat) (t : Trials) : Trials :=
  match n with
  | O => t
  | S n' => trialLoop H A netsHome netsAway pace hfa n'
              (trialStep H A netsHome netsAway pace hfa t)
  end.

(** [const pct = (arr,p) => { const s=[...arr].sort((a,b)=>a-b),
      i=Math.floor((s.length-1)*p);
      return s[Math.max(0,Math.min(s.length-1,i))]; }] *)
Definition pct (arr : list Z) (p : Q) : Z :=
  let s := sortNum arr in
  let i := JS.floor (inject_Z (len s - 1) * p) in
  nth (Z.to_nat (Z.max 0 (Z.min (len s - 1) i))) s 0%Z.

Record Summary : Type := mkSummary {
  home : string; away : string;
  homeMean : Q; awayMean : Q;
  totalMean : Q; totalMedian : Q;
  spreadMean : Q; spreadMedian : Q;
  pOver : option Q; pUnder : option Q;
  pHomeCover : option Q; pAwayCover : option Q;
  totalDist : Ladder; spreadDist : Ladder;
  dbg_gameDrives : Q; dbg_posShare : Q; dbg_sample : option Debug
}.

(** The result object built from the trial arrays. *)
Definition summarize (H A : TeamStats) (pace : Pace) (N : Z)
    (mktTot mktSpr : option Q) (t : Trials) : Summary :=
  mkSummary (Team H) (Team A)
    (inject_Z (sumH t) / inject_Z N) (inject_Z (sumA t) / inject_Z N)
    (mean (totals t)) (median (totals t))
    (mean (spreads t)) (median (spreads t))
    (option_map (fun m => ratio (count_above m (totals t)) N) mktTot)
    (option_map (fun m => ratio (count_below m (totals t)) N) mktTot)
    (option_map (fun m => ratio (count_cover m (spreads t)) N) mktSpr)
    (option_map (fun m => ratio (count_nocover m (spreads t)) N) mktSpr)
    (ladder pct (totals t)) (ladder pct (spreads t))
    (gameDrives pace) (posShare pace) (lastDebug t).

(** What [run] leaves behind: a status message, or the results together
    with the position reached in the random sequence. *)
Inductive Outcome : Type :=
| Status (msg : string)
| Results (res : Summary) (k : nat).

Definition run (s : Session) (k : nat) : Outcome :=
  if negb (selected (homeTeam s)) || negb (selected (awayTeam s))
  then Status "Pick both teams"
  else
    match teamDB s (homeTeam s), teamDB s (awayTeam s) with
    | Some H, Some A =>
        let netsHome := buildNets H A in
        let netsAway := buildNets A H in
        let pace := computePace H A netsHome in
        let N := trialCount (numSim s) in
        let t := trialLoop H A netsHome netsAway pace (hfaPoints s) (Z.to_nat N)
                   (mkTrials [] [] 0%Z 0%Z None k) in
        Results (summarize H A pace N (marketTotal s) (marketSpread s) t) (rng t)
    | _, _ => Status "Missing team data"
    end.

End Sampling.

End DDS.

(** ** Parameters of the Gaussian engines

    [params.lg], [params.weights] and the residualization coefficients are
    the same literals in the Gaussian rewrite and in the Gaussian v3
    engine. *)

Module Gauss.

Record League : Type := mkLeague {
  PPD : Q; PPD_sd : Q; EPA : Q; EPA_sd : Q; SR : Q; SR_sd : Q;
  Xpl : Q; Xpl_sd : Q; RZ : Q; RZ_sd : Q; ThreeOut : Q; ThreeOut_sd : Q;
  Pen : Q; Pen_sd : Q; Drives : Q; Plays : Q
}.

Definition lg : League :=
  mkLeague 2.06 0.42 0.022 0.127 0.43 0.05 0.113 0.033 0.56 0.12 0.24 0.05
           0.44 0.12 24 62.

Record Weights : Type := mkWeights {
  w_PPD : Q; w_EPA : Q; w_SR : Q; w_Xpl : Q; w_RZ : Q; w_ThreeOut_eff : Q;
  w_Pen : Q; w_Pen_def : Q; w_DVOA_off : Q; w_DVOA_def : Q; w_TO_EPA : Q;
  w_FP : Q; Pace_EDPass : Q; NoHuddle : Q
}.

Definition weights : Weights :=
  mkWeights 0.20 0.40 0.20 0.10 0.10 0.25 0.05 0.05 0.15 0.15 0.10 0.10 0.10 0.20.

Definition PPD_RESID_C1 : Q := 0.56.
Definition PPD_RESID_C2 : Q := 0.21.

Record Nets : Type := mkNets {
  epa_net : Q; sr_net : Q; ppd_resid : Q; xpl_net : Q; rz_net : Q;
  out_net : Q; z_pen_o : Q; z_pen_d : Q
}.

Record Pace : Type := mkPace { gameDrives : Q; posShare : Q }.

(** The z-score helper restricted to finite arguments; both engines guard
    a zero standard deviation this way. *)
Definition z_fin (v m s : Q) : Q :=
  if Qeq_bool s 0 then 0 else (v - m) / s.

(** [computeNetFeatures], written identically in both engines. *)
Definition computeNetFeatures (team oppDefense : TeamStats) : Nets :=
  let L := lg in
  let z_ppd_o := z_fin (off_ppd team) (PPD L) (PPD_sd L) in
  let z_epa_o := z_fin (off_epa team) (EPA L) (EPA_sd L) in
  let z_sr_o := z_fin (off_sr team) (SR L) (SR_sd L) in
  let z_xpl_o := z_fin (off_xpl team) (Xpl L) (Xpl_sd L) in
  let z_rz_o := z_fin (off_rz team) (RZ L) (RZ_sd L) in
  let z_out_o := z_fin (off_3out team) (ThreeOut L) (ThreeOut_sd L) in
  let z_pen_o := z_fin (off_penalties team) (Pen L) (Pen_sd L) in
  let z_ppd_d := z_fin (def_ppd_allowed oppDefense) (PPD L) (PPD_sd L) in
  let z_epa_d := z_fin (def_epa_allowed oppDefense) (EPA L) (EPA_sd L) in
  let z_sr_d := z_fin (def_sr oppDefense) (SR L) (SR_sd L) in
  let z_xpl_d := z_fin (def_xpl oppDefense) (Xpl L) (Xpl_sd L) in
  let z_rz_d := z_fin (def_rz oppDefense) (RZ L) (RZ_sd L) in
  let z_out_d := z_fin (def_3out oppDefense) (ThreeOut L) (ThreeOut_sd L) in
  let z_pen_d := z_fin (def_penalties oppDefense) (Pen L) (Pen_sd L) in
  let epa_net := z_epa_o - z_epa_d in
  let sr_net := z_sr_o - z_sr_d in
  let ppd_net := z_ppd_o - z_ppd_d in
  let xpl_net := z_xpl_o - z_xpl_d in
  let rz_net := z_rz_o - z_rz_d in
  let out_net := z_out_d - z_out_o in
  let ppd_resid := ppd_net - (PPD_RESID_C1 * epa_net + PPD_RESID_C2 * sr_net) in
  mkNets epa_net sr_net ppd_resid xpl_net rz_net out_net z_pen_o z_pen_d.

Definition nh_boost (homeTeam awayTeam : TeamStats) : Q :=
  (JS.or_else (no_huddle homeTeam) 0 + JS.or_else (no_huddle awayTeam) 0) / 2
  * NoHuddle weights * 0.5.

Definition ed_adj (homeTeam awayTeam : TeamStats) : Q :=
  ((JS.or_else (ed_pass homeTeam) 0 - 0.5) + (JS.or_else (ed_pass awayTeam) 0 - 0.5)) / 2
  * Pace_EDPass weights.

(** The mean side of [estimateScore], written identically in both
    engines: the net advantage in z-space ... *)
Definition net_adv (team oppDefense : TeamStats) (nets : Nets) : Q :=
  let L := lg in
  let w := weights in
  let eff_net :=
    ppd_resid nets * w_PPD w + epa_net nets * w_EPA w + sr_net nets * w_SR w
    + xpl_net nets * w_Xpl w + rz_net nets * w_RZ w
    + out_net nets * w_ThreeOut_eff w in
  let dvoa_adj := (off_dvoa team / 100) * w_DVOA_off w
                  - (def_dvoa oppDefense / 100) * w_DVOA_def w in
  let to_adj := (off_to_epa team * w_TO_EPA w) / Drives L in
  let fp_adj := ((off_fp team - 25) / 10) * w_FP w in
  let pen_adj := - z_pen_o nets * w_Pen w + z_pen_d nets * w_Pen_def w in
  eff_net + dvoa_adj + to_adj + fp_adj + pen_adj.

(** ... the drives allocated to this side ... *)
Definition drivesFor (isHome : bool) (gameDrives posShare : Q) : Q :=
  if isHome then gameDrives * posShare else gameDrives * (1 - posShare).

(** ... the points per drive before HFA and before the safety clamp ... *)
Definition basePPD (team oppDefense : TeamStats) (nets : Nets) : Q :=
  PPD lg + net_adv team oppDefense nets * PPD_sd lg.

(** ... and the points per drive after [if (isHome && hfa) ppd += hfa /
    Math.max(1, drives)] and [ppd = Math.max(0.4, Math.min(4.0, ppd))]. *)
Definition ppdOf (team oppDefense : TeamStats) (isHome : bool) (hfa : Q)
    (gameDrives posShare : Q) (nets : Nets) : Q :=
  let drives := drivesFor isHome gameDrives posShare in
  let ppd := basePPD team oppDefense nets in
  let ppd := if isHome && JS.truthy hfa then ppd + hfa / Qmax 1 drives else ppd in
  Qmax 0.4 (Qmin 4.0 ppd).

(** [const pts = ppd * drives; ... points: Math.max(0, pts)] *)
Definition pointsOf (team oppDefense : TeamStats) (isHome : bool) (hfa : Q)
    (gameDrives posShare : Q) (nets : Nets) : Q :=
  let drives := drivesFor isHome gameDrives posShare in
  let pts := ppdOf team oppDefense isHome hfa gameDrives posShare nets * drives in
  Qmax 0 pts.

End Gauss.

(** ** The Gaussian rewrite (MonteCarloSimulator_rewrite_FIXED_v2.js) *)

Module GaussFixed.

Import Gauss.

(** [params.BaseTeamSD] *)
Definition BaseTeamSD : Q := 9.0.

(** [const zScore = (value, mean, sd) => {
      if (value === null || value === undefined) return 0;
      if (!isFinite(sd) || sd === 0) return 0;
      return (value - mean) / sd; }] *)
Definition zScore (value : JS.jsval) (mean sd : JS.jsnum) : JS.jsnum :=
  match value with
  | JS.Null | JS.Undefined => JS.Fin 0
  | JS.Number v =>
      if negb (JS.isFinite sd) || JS.is_zero sd then JS.Fin 0
      else JS.div (JS.sub v mean) sd
  end.

(** [baseDrives] as this file computes it. *)
Definition baseDrives (homeTeam awayTeam awayDef homeDef : TeamStats) : Q :=
  ((off_drives homeTeam + def_drives awayDef) / 2
   + (off_drives awayTeam + def_drives homeDef) / 2) / 2.

(** [gameDrives] after the pace adjustments and before the clamp. *)
Definition paceDrives (homeTeam awayTeam awayDef homeDef : TeamStats) : Q :=
  baseDrives homeTeam awayTeam awayDef homeDef
  * (1 + nh_boost homeTeam awayTeam + ed_adj homeTeam awayTeam).

Definition computeGamePace (homeTeam awayTeam awayDef homeDef : TeamStats)
    (netsHome : Nets) : Pace :=
  let gameDrives := Qmin 28 (Qmax 18 (paceDrives homeTeam awayTeam awayDef homeDef)) in
  let posShare := 0.5 + 0.15 * (sr_net netsHome + 0.5 * epa_net netsHome) in
  let posShare := Qmax 0.35 (Qmin 0.65 posShare) in
  mkPace gameDrives posShare.

Record Projection : Type := mkProjection { points : Q; std_dev : Q }.

Definition estimateScore (team oppDefense : TeamStats) (isHome : bool) (hfa : Q)
    (gameDrives posShare : Q) (nets : Nets) : Projection :=
  let std_dev := BaseTeamSD in
  let var_inflater := 1 + 0.3 * Qabs (out_net nets) in
  let var_deflater := 1 - 0.15 * Qabs (sr_net nets) in
  let std_dev := std_dev * var_inflater * Qmax 0.7 var_deflater in
  let std_dev := Qmax 6.0 (Qmin 13.0 std_dev) in
  mkProjection (pointsOf team oppDefense isHome hfa gameDrives posShare nets) std_dev.

(** [const percentile = (arr, p) => {
      const sorted = [...arr].sort((a, b) => a - b);
      const idx = Math.floor(sorted.length * p);
      return sorted[Math.min(Math.max(idx, 0), sorted.length - 1)]; }] *)
Definition percentile (arr : list Z) (p : Q) : Z :=
  let sorted := sortNum arr in
  let idx := JS.floor (inject_Z (len sorted) * p) in
  nth (Z.to_nat (Z.min (Z.max idx 0) (len sorted - 1))) sorted 0%Z.

Section Sampling.

Variables sqrt log cos : Q -> Q.
Variable PI : Q.
Variable U : nat -> Q.

(** [Math.sqrt(-2 * Math.log(u1)) * Math.cos(2 * Math.PI * u2)] *)
Definition boxMuller (u1 u2 : Q) : Q :=
  sqrt (-2 * log u1) * cos (2 * PI * u2).

Record Trials : Type := mkTrials {
  homeScores : list Z; awayScores : list Z;
  totals : list Z; spreads : list Z; rng : nat
}.

(** One iteration of the sampling loop: four uniform draws, two normals,
    two scores, four pushes. *)
Definition trialStep (homeProjection awayProjection : Projection) (t : Trials) : Trials :=
  let k := rng t in
  let u1 := U k in
  let u2 := U (k + 1) in
  let z1 := boxMuller u1 u2 in
  let homeScore := Z.max 0 (JS.round (points homeProjection + z1 * std_dev homeProjection)) in
  let u3 := U (k + 2) in
  let u4 := U (k + 3) in
  let z2 := boxMuller u3 u4 in
  let awayScore := Z.max 0 (JS.round (points awayProjection + z2 * std_dev awayProjection)) in
  mkTrials (homeScores t ++ [homeScore]) (awayScores t ++ [awayScore])
           (totals t ++ [(homeScore + awayScore)%Z])
           (spreads t ++ [(homeScore - awayScore)%Z])
           (k + 4).

Fixpoint trialLoop (homeProjection awayProjection : Projection) (n : nat)
    (t : Trials) : Trials :=
  match n with
  | O => t
  | S n' => trialLoop homeProjection awayProjection n'
              (trialStep homeProjection awayProjection t)
  end.

(** The session state [runSimulation] reads.  [teamDB] maps a team name to
    the record [projectTeamFromDB] builds from its row. *)
Record Session : Type := mkSession {
  teamDB : TeamDB;
  homeTeam : string;
  awayTeam : string;
  hfaAdjustment : Q;
  numSimulations : JS.jsint;
  marketTotal : option Q;
  marketSpread : option Q
}.

Record Summary : Type := mkSummary {
  home : string; away : string;
  homeMean : Q; awayMean : Q;
  totalMean : Q; totalMedian : Q;
  spreadMean : Q; spreadMedian : Q;
  homeSD : Q; awaySD : Q;
  pOver : option Q; pUnder : option Q;
  pHomeCover : option Q; pAwayCover : option Q;
  totalDist : Ladder; spreadDist : Ladder
}.

Definition summarize (s : Session) (homeProjection awayProjection : Projection)
    (t : Trials) : Summary :=
  mkSummary (homeTeam s) (awayTeam s)
    (mean (homeScores t)) (mean (awayScores t))
    (mean (totals t)) (median (totals t))
    (mean (spreads t)) (median (spreads t))
    (std_dev homeProjection) (std_dev awayProjection)
    (option_map (fun m => ratio (count_above m (totals t)) (len (totals t))) (marketTotal s))
    (option_map (fun m => ratio (count_below m (totals t)) (len (totals t))) (marketTotal s))
    (option_map (fun m => ratio (count_cover m (spreads t)) (len (spreads t))) (marketSpread s))
    (option_map (fun m => ratio (count_nocover m (spreads t)) (len (spreads t))) (marketSpread s))
    (ladder percentile (totals t)) (ladder percentile (spreads t)).

Inductive Outcome : Type :=
| Status (msg : string)
| Results (res : Summary) (trials : Trials).


End Sampling.

End GaussFixed.

(** ** The Gaussian v3 engine (robust CSV adapter) *)

Module GaussV3.

Import Gauss.

(** [params.EV_SD_Total] *)
Definition EV_SD_Total : Q := 12.7.

(** [const z = (v, m, s) =>
      (!isFinite(s) || s === 0 || v === undefined || v === null) ? 0 : (v - m) / s] *)
Definition z (v : JS.jsval) (m s : JS.jsnum) : JS.jsnum :=
  match v with
  | JS.Number x =>
      if negb (JS.isFinite s) || JS.is_zero s then JS.Fin 0
      else JS.div (JS.sub x m) s
  | JS.Undefined | JS.Null => JS.Fin 0
  end.

Definition offDefAvgHome (homeTeam awayDef : TeamStats) : Q :=
  (off_drives homeTeam + def_drives awayDef) / 2.

Definition offDefAvgAway (awayTeam homeDef : TeamStats) : Q :=
  (off_drives awayTeam + def_drives homeDef) / 2.

Definition paceDrives (homeTeam awayTeam awayDef homeDef : TeamStats) : Q :=
  (offDefAvgHome homeTeam awayDef + offDefAvgAway awayTeam homeDef)
  * (1 + nh_boost homeTeam awayTeam + ed_adj homeTeam awayTeam).

Definition computeGamePace (homeTeam awayTeam awayDef homeDef : TeamStats)
    (netsHome : Nets) : Pace :=
  let gameDrives := Qmin 30 (Qmax 20 (paceDrives homeTeam awayTeam awayDef homeDef)) in
  let posShare := 0.5 + 0.15 * (sr_net netsHome + 0.5 * epa_net netsHome) in
  let posShare := Qmax 0.35 (Qmin 0.65 posShare) in
  mkPace gameDrives posShare.

Record Projection : Type := mkProjection {
  points : Q; std_dev : Q; drives : Q; ppd : Q
}.

Definition estimateScore (sqrt : Q -> Q) (team oppDefense : TeamStats) (isHome : bool)
    (hfa : Q) (gameDrives posShare : Q) (nets : Nets) : Projection :=
  let threeOut_net := def_3out oppDefense - off_3out team in
  let sr_net2 := off_sr team - def_sr oppDefense in
  let baseVar := (EV_SD_Total * EV_SD_Total) / 2 in
  let volUp := 1 + 0.8 * Qmax 0 threeOut_net in
  let volDown := 1 - 0.6 * Qmax 0 sr_net2 in
  let std_dev := sqrt (baseVar * volUp * Qmax 0.6 volDown) in
  mkProjection (pointsOf team oppDefense isHome hfa gameDrives posShare nets) std_dev
               (drivesFor isHome gameDrives posShare)
               (ppdOf team oppDefense isHome hfa gameDrives posShare nets).

End GaussV3.

(** ** The calibrated v4 engine (MonteCarloSimulator_calibrated_v4_DEBUG.js)

    The z-score helper and the trial loop of [simulateGame].  The expected
    points and the correlation the loop reads are computed upstream
    ([calculateMatchupPPD], [calculateExpectedDrives],
    [calculateAdaptiveCorrelation]) and are inputs here. *)

Module V4.

(** [function zScore(value, mean, sd) {
      if (sd === 0) return 0;
      return (value - mean) / sd; }] *)
Definition zScore (value mean sd : JS.jsnum) : JS.jsnum :=
  if JS.is_zero sd then JS.Fin 0
  else JS.div (JS.sub value mean) sd.

Record Expect : Type := mkExpect {
  homeExpPts_forMargin : Q; awayExpPts_forMargin : Q;
  homeExpPts_forTotal : Q; awayExpPts_forTotal : Q;
  rho : Q
}.

Definition sigmaMargin (expectedPts : Q) : Q :=
  Qmax 9.5 (Qmin 13.5 (8.0 + 0.18 * (expectedPts - 20))).

Definition sigmaTotal (expectedPts : Q) : Q :=
  Qmax 10.5 (Qmin 15.5 (8.5 + 0.25 * (expectedPts - 20))).

(** What one iteration pushes. *)
Record Scores : Type := mkScores {
  homeScoreRounded : Z; awayScoreRounded : Z; totalRounded : Z
}.

Section Sampling.

Variables sqrt log cos sin : Q -> Q.
Variable PI : Q.
Variable U : nat -> Q.

(** The body of the loop after the four normal variates are drawn. *)
Definition trial (e : Expect) (z1 z2 z3 z4 : Q) : Scores :=
  let homeRandom := z1 in
  let awayRandom := rho e * z1 + sqrt (1 - rho e * rho e) * z2 in
  let homeScore_margin :=
    Qmax 0 (homeExpPts_forMargin e + homeRandom * sigmaMargin (homeExpPts_forMargin e)) in
  let awayScore_margin :=
    Qmax 0 (awayExpPts_forMargin e + awayRandom * sigmaMargin (awayExpPts_forMargin e)) in
  let homeRandom_total := 0.7 * z1 + 0.3 * z3 in
  let awayRandom_total := 0.7 * (rho e * z1 + sqrt (1 - rho e * rho e) * z2) + 0.3 * z4 in
  let homeScore_total :=
    Qmax 0 (homeExpPts_forTotal e + homeRandom_total * sigmaTotal (homeExpPts_forTotal e)) in
  let awayScore_total :=
    Qmax 0 (awayExpPts_forTotal e + awayRandom_total * sigmaTotal (awayExpPts_forTotal e)) in
  mkScores (JS.round homeScore_margin) (JS.round awayScore_margin)
           (JS.round (homeScore_total + awayScore_total)).

Record Trials : Type := mkTrials {
  homeScores : list Z; awayScores : list Z;
  totals : list Z; margins : list Z; rng : nat
}.

Definition trialStep (e : Expect) (t : Trials) : Trials :=
  let k := rng t in
  let u1 := U k in
  let u2 := U (k + 1) in
  let z1 := sqrt (-2 * log u1) * cos (2 * PI * u2) in
  let z2 := sqrt (-2 * log u1) * sin (2 * PI * u2) in
  let u3 := U (k + 2) in
  let u4 := U (k + 3) in
  let z3 := sqrt (-2 * log u3) * cos (2 * PI * u4) in
  let z4 := sqrt (-2 * log u3) * sin (2 * PI * u4) in
  let s := trial e z1 z2 z3 z4 in
  mkTrials (homeScores t ++ [homeScoreRounded s])
           (awayScores t ++ [awayScoreRounded s])
           (totals t ++ [totalRounded s])
           (margins t ++ [(homeScoreRounded s - awayScoreRounded s)%Z])
           (k + 4).

Fixpoint trialLoop (e : Expect) (n : nat) (t : Trials) : Trials :=
  match n with
  | O => t
  | S n' => trialLoop e n' (trialStep e t)
  end.

(** The [results] object as it stands when the loop of [simulateGame]
    ends. *)
Definition simulateTrials (e : Expect) (numSims : JS.jsint) (k : nat) : Trials :=
  trialLoop e (JS.loop_count numSims) (mkTrials [] [] [] [] k).

End Sampling.

End V4.

(** ** More of the calibrated v4 engine

    The numeric layers of MonteCarloSimulator_calibrated_v4_DEBUG.js
    between the parsed team metrics and the trial loop, and the
    aggregation after the loop.  What the functions read from a raw team
    row ([findValue] followed by [parseFloat] or [parsePercent] and the
    league fallback) enters as a number; [params.lg] is the league
    baseline in force. *)

Module V4Game.

(** [const clamp = (x, a, b) => Math.max(a, Math.min(b, x))] *)
Definition clamp (x a b : Q) : Q := Qmax a (Qmin b x).

Definition RHO_BASELINE : Q := 0.22.
Definition LAMBDA : Q := 0.85.
Definition HOME_FIELD_ADV : Q := 2.0.
Definition CER_TO_PPD_SCALE : Q := 0.60.
Definition APPROVAL_THRESHOLD : Q := 54.0.

(** [toAmericanOdds].  A comparison with NaN is false, so NaN reaches the
    last branch and stays NaN. *)
Definition toAmericanOdds (prob : JS.jsnum) : JS.jsnum :=
  match prob with
  | JS.Fin p =>
      if Qle_bool p 0 then JS.PosInf
      else if Qle_bool 1 p then JS.NegInf
      else if Qle_bool 0.5 p
           then JS.Fin (inject_Z (- JS.round ((p / (1 - p)) * 100)))
           else JS.Fin (inject_Z (JS.round (((1 - p) / p) * 100)))
  | JS.PosInf => JS.NegInf
  | JS.NegInf => JS.PosInf
  | JS.NaN => JS.NaN
  end.





(** The decision layer: [evaluateSpreadBet] and [evaluateTotalsBet]
    without the [bucket] display string. *)
Inductive Side : Type := HOME | AWAY.
Inductive SideType : Type := FAV | DOG.
Inductive SpreadCategory : Type := Spread0_3 | Spread3_7 | Spread7_10 | Spread10plus.

Definition tierOf (relevantProb : Q) : Z :=
  if Qle_bool 60 relevantProb then 1%Z
  else if Qle_bool 57 relevantProb then 2%Z
  else if Qle_bool APPROVAL_THRESHOLD relevantProb then 3%Z
  else 0%Z.

Record SpreadBet : Type := mkSpreadBet {
  sb_signal : Side; sb_rawProb : Q; sb_calibratedProb : Q;
  sb_modelLikesFavorite : bool; sb_sideType : SideType;
  sb_spreadCategory : SpreadCategory; sb_absSpread : Q;
  sb_tier : Z; sb_approved : bool; sb_modelMargin : Q
}.

Definition evaluateSpreadBet (rawHomeCoverPct rawAwayCoverPct modelMargin marketSpread : Q)
    : SpreadBet :=
  let homeIsFavorite := JS.lt marketSpread 0 in
  let absSpread := Qabs marketSpread in
  let modelLikesHome := JS.lt rawAwayCoverPct rawHomeCoverPct in
  let modelLikesFavorite :=
    (modelLikesHome && homeIsFavorite) || (negb modelLikesHome && negb homeIsFavorite) in
  let relevantProb := if modelLikesHome then rawHomeCoverPct else rawAwayCoverPct in
  let signal := if modelLikesHome then HOME else AWAY in
  let sideType := if modelLikesFavorite then FAV else DOG in
  let spreadCategory :=
    if Qle_bool absSpread 3 then Spread0_3
    else if Qle_bool absSpread 7 then Spread3_7
    else if Qle_bool absSpread 10 then Spread7_10
    else Spread10plus in
  let approved := Qle_bool APPROVAL_THRESHOLD relevantProb in
  mkSpreadBet signal relevantProb relevantProb modelLikesFavorite sideType
              spreadCategory absSpread (tierOf relevantProb) approved modelMargin.

Inductive TotalSignal : Type := OVER | UNDER.
Inductive TotalCategory : Type := TotalLow | TotalMid | TotalHigh.
Inductive EdgeCategory : Type := EdgeBelowM3 | EdgeM3to0 | Edge0to3 | Edge3plus.

Record TotalsBet : Type := mkTotalsBet {
  tb_signal : TotalSignal; tb_rawProb : Q; tb_calibratedProb : Q;
  tb_modelEdge : Q; tb_totalCategory : TotalCategory; tb_edgeCategory : EdgeCategory;
  tb_tier : Z; tb_approved : bool
}.

Definition evaluateTotalsBet (rawOverPct rawUnderPct modelTotal marketTotal absSpread : Q)
    (isDome : bool) : TotalsBet :=
  let modelEdge := modelTotal - marketTotal in
  let signal := if JS.lt rawUnderPct rawOverPct then OVER else UNDER in
  let relevantProb := match signal with OVER => rawOverPct | UNDER => rawUnderPct end in
  let totalCategory :=
    if JS.lt marketTotal 42 then TotalLow
    else if Qle_bool marketTotal 46 then TotalMid
    else TotalHigh in
  let edgeCategory :=
    if JS.lt modelEdge (-3) then EdgeBelowM3
    else if JS.lt modelEdge 0 then EdgeM3to0
    else if JS.lt modelEdge 3 then Edge0to3
    else Edge3plus in
  let approved := Qle_bool APPROVAL_THRESHOLD relevantProb in
  mkTotalsBet signal relevantProb relevantProb modelEdge totalCategory edgeCategory
              (tierOf relevantProb) approved.

(** [calculateMatchupPPD] once the four ratings are computed. *)
Record Matchup : Type := mkMatchup {
  homePPD_spread : Q; awayPPD_spread : Q;
  homePPD_total : Q; awayPPD_total : Q
}.

(** [lg.PPD + LAMBDA * (rawPPD - lg.PPD)] with
    [rawPPD = lg.PPD + matchupCER * CER_TO_PPD_SCALE]. *)
Definition regressedPPD (lgPPD matchupCER : Q) : Q :=
  let ppdAdj := matchupCER * CER_TO_PPD_SCALE in
  let rawPPD := lgPPD + ppdAdj in
  lgPPD + LAMBDA * (rawPPD - lgPPD).

Definition calculateMatchupPPD (lgPPD lgDrives : Q)
    (homeOffCER homeDefCER awayOffCER awayDefCER : Q) : Matchup :=
  let homeMatchupCER := homeOffCER - awayDefCER in
  let awayMatchupCER := awayOffCER - homeDefCER in
  let homePPD := regressedPPD lgPPD homeMatchupCER in
  let awayPPD := regressedPPD lgPPD awayMatchupCER in
  let hfaPerDrive := HOME_FIELD_ADV / lgDrives in
  let homeFinalPPD_forSpread := homePPD + hfaPerDrive in
  let awayFinalPPD_forSpread := awayPPD in
  let homeFinalPPD_forTotal := homePPD + hfaPerDrive / 2 in
  let awayFinalPPD_forTotal := awayPPD - hfaPerDrive / 2 in
  mkMatchup (clamp homeFinalPPD_forSpread 1.2 3.5) (clamp awayFinalPPD_forSpread 1.2 3.5)
            (clamp homeFinalPPD_forTotal 1.2 3.5) (clamp awayFinalPPD_forTotal 1.2 3.5).

(** [calculateExpectedDrives] once the four pace adjustments and the two
    turnover rates are read. *)
Record DrivesModel : Type := mkDrives {
  homeDrives : Q; awayDrives : Q; totalGameDrives : Q;
  differential : Q; turnoverSwing : Q; gamePaceAdj : Q
}.

Definition calculateExpectedDrives (lgDrives : Q)
    (homePace awayPace homeDefPace awayDefPace homeTO awayTO : Q) : DrivesModel :=
  let gamePaceAdj := (homePace + awayPace + homeDefPace + awayDefPace) / 4 in
  let totalGameDrives := lgDrives * 2 * (1 + gamePaceAdj) in
  let baseDrivesEach := totalGameDrives / 2 in
  let homeExpectedTOs := baseDrivesEach * homeTO in
  let awayExpectedTOs := baseDrivesEach * awayTO in
  let turnoverSwing := (awayExpectedTOs - homeExpectedTOs) * 0.8 in
  let paceEdge := (homePace - awayPace) * 0.3 in
  let cappedPaceEdge := clamp paceEdge (-0.3) 0.3 in
  let homeDrives := baseDrivesEach + turnoverSwing / 2 + cappedPaceEdge in
  let awayDrives := baseDrivesEach - turnoverSwing / 2 - cappedPaceEdge in
  let differential := homeDrives - awayDrives in
  let excess := (Qabs differential - 1.0) / 2 in
  let homeDrives' :=
    if JS.lt 1.0 (Qabs differential)
    then (if JS.lt 0 differential then homeDrives - excess else homeDrives + excess)
    else homeDrives in
  let awayDrives' :=
    if JS.lt 1.0 (Qabs differential)
    then (if JS.lt 0 differential then awayDrives + excess else awayDrives - excess)
    else awayDrives in
  let homeDrives'' := clamp homeDrives' 9.0 13.0 in
  let awayDrives'' := clamp awayDrives' 9.0 13.0 in
  mkDrives homeDrives'' awayDrives'' totalGameDrives (homeDrives'' - awayDrives'')
           turnoverSwing gamePaceAdj.

(** [settings.precipitation]; [PrecipOther] is any string that is not a
    key of [params.weather.precip_adjustments]. *)
Inductive Precip : Type := PrecipNone | LightRain | HeavyRain | Snow | PrecipOther.

(** [calculateAdaptiveCorrelation] once the pass rates, explosive rates
    and seconds per snap are read. *)
Definition calculateAdaptiveCorrelation (spread : Q) (isDome : bool) (windMPH : Q)
    (precip : Precip) (homePassRate awayPassRate homeXpl awayXpl
                       homeSecSnap awaySecSnap : Q) : Q :=
  let rho := RHO_BASELINE in
  let absSpread := Qabs spread in
  let rho := if Qle_bool absSpread 3 then rho + 0.10
             else if Qle_bool absSpread 7 then rho + 0.05
             else if Qle_bool 14 absSpread then rho - 0.10
             else rho in
  let passRateDiff := Qabs (homePassRate - awayPassRate) in
  let rho := if JS.lt passRateDiff 0.05 then rho + 0.08
             else if JS.lt 0.15 passRateDiff then rho - 0.05
             else rho in
  let rho := if JS.lt 0.19 (homeXpl + awayXpl) then rho + 0.05 else rho in
  let rho := if isDome then rho + 0.05 else rho in
  let rho := if JS.lt 15 windMPH then rho - 0.15
             else if JS.lt 10 windMPH then rho - 0.08
             else rho in
  let rho := match precip with
             | HeavyRain | Snow => rho - 0.10
             | LightRain => rho - 0.05
             | _ => rho
             end in
  let avgPace := (homeSecSnap + awaySecSnap) / 2 in
  let rho := if JS.lt avgPace 27.4 then rho + 0.05
             else if JS.lt 29.8 avgPace then rho - 0.03
             else rho in
  clamp rho (-0.05) 0.50.

(** [gameSettings]: the fields the numeric layers read.  The form's
    settings carry no [outdoorPenalty]; [simulateGame] reads
    [settings.outdoorPenalty || 0], which is 0 for [undefined] as for 0,
    so an absent field is the value 0 here. *)
Record Settings : Type := mkSettings {
  overUnderLine : Q; homeTeamTotal : Q; awayTeamTotal : Q;
  spread : Q; spreadLine : Q; numSimulations : Z;
  isDome : bool; windMPH : Q; temperature : Q; precipitation : Precip;
  outdoorPenalty : Q
}.

(** [params.weather.precip_adjustments[settings.precipitation] || 0] *)
Definition precip_adjustment (p : Precip) : Q :=
  match p with
  | PrecipNone => JS.or_else 0 0
  | LightRain => JS.or_else (-1.0) 0
  | HeavyRain => JS.or_else (-2.0) 0
  | Snow => JS.or_else (-2.5) 0
  | PrecipOther => 0
  end.

Definition calculateWeatherAdjustment (settings : Settings) : Q :=
  let weatherAdj := 0 in
  if isDome settings then weatherAdj + 0.5
  else
    let weatherAdj :=
      if JS.lt 10 (windMPH settings)
      then weatherAdj + (windMPH settings - 10) * (-0.06)
      else weatherAdj in
    let weatherAdj :=
      if JS.lt (temperature settings) 25 then weatherAdj + (-1.5) else weatherAdj in
    weatherAdj + precip_adjustment (precipitation settings).

(** [gameScriptAdj] of [simulateGame] *)
Definition gameScriptAdj (settings : Settings) : Q :=
  let absSpread := Qabs (JS.or_else (spread settings) 0) in
  if Qle_bool 14 absSpread then -1.5
  else if Qle_bool 10 absSpread then -0.75
  else 0.

(** The expected points and correlation [simulateGame] hands to its
    loop. *)
Definition expectedPoints (matchup : Matchup) (drives : DrivesModel) (rho : Q)
    (settings : Settings) : V4.Expect :=
  let weatherAdj := calculateWeatherAdjustment settings in
  let outdoorPenalty := JS.or_else (outdoorPenalty settings) 0 in
  let gameScriptAdj := gameScriptAdj settings in
  V4.mkExpect
    (homePPD_spread matchup * homeDrives drives + weatherAdj / 2 + outdoorPenalty / 2)
    (awayPPD_spread matchup * awayDrives drives + weatherAdj / 2 + outdoorPenalty / 2)
    (homePPD_total matchup * homeDrives drives + weatherAdj / 2 + gameScriptAdj / 2
     + outdoorPenalty / 2)
    (awayPPD_total matchup * awayDrives drives + weatherAdj / 2 + gameScriptAdj / 2
     + outdoorPenalty / 2)
    rho.



(** [sorted[i]]: [undefined] outside the array. *)
Definition at_index (sorted : list Z) (i : Z) : option Z :=
  if (i <? 0)%Z then None else nth_error sorted (Z.to_nat i).

(** [percentile(arr, p)], [p] on the 0..100 scale, interpolating linearly
    between the two neighbouring sorted elements; arithmetic on
    [undefined] is NaN. *)
Definition percentile (arr : list Z) (p : Q) : JS.jsnum :=
  let sorted := sortNum arr in
  let index := (p / 100) * inject_Z (len sorted - 1) in
  let lower := JS.floor index in
  let upper := Qceiling index in
  let weight := index - inject_Z lower in
  match at_index sorted lower, at_index sorted upper with
  | Some lo, Some hi => JS.Fin (inject_Z lo * (1 - weight) + inject_Z hi * weight)
  | _, _ => JS.NaN
  end.

(** The three counters of an over/under analysis, as [forEach] with its
    [if / else if / else] updates them. *)
Record Counts : Type := mkCounts { overCount : nat; underCount : nat; pushCount : nat }.

Definition countStep (line : Q) (c : Counts) (x : Z) : Counts :=
  if JS.lt line (inject_Z x) then mkCounts (S (overCount c)) (underCount c) (pushCount c)
  else if JS.lt (inject_Z x) line then mkCounts (overCount c) (S (underCount c)) (pushCount c)
  else mkCounts (overCount c) (underCount c) (S (pushCount c)).

Definition countOverUnder (line : Q) (arr : list Z) : Counts :=
  fold_left (countStep line) arr (mkCounts O O O).

(** The moneyline counters: [if (margin > 0) homeWinCount++;
    else if (margin < 0) awayWinCount++] *)
Definition winStep (c : nat * nat) (margin : Z) : nat * nat :=
  if JS.lt 0 (inject_Z margin) then (S (fst c), snd c)
  else if JS.lt (inject_Z margin) 0 then (fst c, S (snd c))
  else c.

Definition countWins (margins : list Z) : nat * nat :=
  fold_left winStep margins (O, O).

(** An alternative line's counter: [if (margin > -line) coverCount++] *)
Definition coverCount (line : Q) (margins : list Z) : nat :=
  fold_left (fun c margin => if JS.lt (- line) (inject_Z margin) then S c else c)
            margins O.

(** [count / n] and [(count / n) * 100] *)
Definition share (count : nat) (n : Z) : JS.jsnum :=
  JS.div (JS.Fin (inject_Z (Z.of_nat count))) (JS.Fin (inject_Z n)).

Definition times100 (x : JS.jsnum) : JS.jsnum :=
  match x with JS.Fin q => JS.Fin (q * 100) | other => other end.

Definition pctOf (count : nat) (n : Z) : JS.jsnum := times100 (share count n).

Record OverUnder : Type := mkOverUnder {
  ou_line : Q; overPct : JS.jsnum; underPct : JS.jsnum; pushPct : JS.jsnum
}.

Definition overUnderOf (line : Q) (arr : list Z) (n : Z) : OverUnder :=
  let c := countOverUnder line arr in
  mkOverUnder line (pctOf (overCount c) n) (pctOf (underCount c) n) (pctOf (pushCount c) n).

Record Moneyline : Type := mkMoneyline {
  homeWinPct : JS.jsnum; awayWinPct : JS.jsnum;
  homeFairOdds : JS.jsnum; awayFairOdds : JS.jsnum
}.

Record AltLine : Type := mkAltLine { al_line : Q; coverPct : JS.jsnum }.

Record SpreadAnalysis : Type := mkSpread {
  sp_line : Q; homeCoverPct : JS.jsnum; awayCoverPct : JS.jsnum; sp_pushPct : JS.jsnum;
  altLines : list AltLine
}.

Definition altLineValues : list Q :=
  [-14; -10.5; -7; -6.5; -3.5; -3; -2.5; -1.5; 0; 1.5; 2.5; 3; 3.5; 6.5; 7; 10.5; 14].

Record Projection : Type := mkProjection {
  pr_mean : JS.jsnum; pr_median : JS.jsnum; pr_p10 : JS.jsnum; pr_p90 : JS.jsnum
}.

Definition projectionOf (arr : list Z) (n : Z) : Projection :=
  mkProjection (JS.div (JS.Fin (inject_Z (sum arr))) (JS.Fin (inject_Z n)))
               (percentile arr 50) (percentile arr 10) (percentile arr 90).

(** The analysis part of the object [calculateResults] returns; the
    fields it copies from [results] and the team names are left out. *)
Record Results : Type := mkResults {
  overUnder : OverUnder;
  homeTeamOverUnder : OverUnder;
  awayTeamOverUnder : OverUnder;
  moneyline : Moneyline;
  spreadAnalysis : SpreadAnalysis;
  homeProjection : Projection;
  awayProjection : Projection;
  totalProjection : Projection;
  marginProjection : Projection
}.

Definition calculateResults (results : V4.Trials) (settings : Settings) : Results :=
  let homeScores := V4.homeScores results in
  let awayScores := V4.awayScores results in
  let totals := V4.totals results in
  let margins := V4.margins results in
  let n := numSimulations settings in
  let wins := countWins margins in
  (* [margin > threshold] with [threshold = -spreadLine] *)
  let sc := countOverUnder (- spreadLine settings) margins in
  mkResults
    (overUnderOf (overUnderLine settings) totals n)
    (overUnderOf (homeTeamTotal settings) homeScores n)
    (overUnderOf (awayTeamTotal settings) awayScores n)
    (mkMoneyline (pctOf (fst wins) n) (pctOf (snd wins) n)
       (toAmericanOdds (share (fst wins) n)) (toAmericanOdds (share (snd wins) n)))
    (mkSpread (spreadLine settings) (pctOf (overCount sc) n) (pctOf (underCount sc) n)
       (pctOf (pushCount sc) n)
       (map (fun line => mkAltLine line (pctOf (coverCount line margins) n)) altLineValues))
    (projectionOf homeScores n) (projectionOf awayScores n)
    (projectionOf totals n) (projectionOf margins n).

Section Game.

Variables sqrt log cos sin : Q -> Q.
Variable PI : Q.
Variable U : nat -> Q.

(** [simulateGame] from the matchup, drives and correlation on:
    the loop runs [settings.numSimulations] times, then
    [calculateResults] is applied to what it recorded. *)
Definition simulateFrom (matchup : Matchup) (drives : DrivesModel) (rho : Q)
    (settings : Settings) (k : nat) : Results :=
  let e := expectedPoints matchup drives rho settings in
  calculateResults
    (V4.simulateTrials sqrt log cos sin PI U e (JS.Int (numSimulations settings)) k)
    settings.

End Game.

End V4Game.

(** ** Strings and CSV text

    A JavaScript string is the list of its UTF-16 code units. *)

Module Text.

Definition str : Type := list N.

Definition TAB : N := 9.
Definition LF : N := 10.
Definition CR : N := 13.
Definition QUOTE : N := 34.
Definition COMMA : N := 44.
Definition BOM : N := 65279.

(** The code units [String.prototype.trim] strips: WhiteSpace and
    LineTerminator of the language specification. *)
Definition is_space (c : N) : bool :=
  (c =? 9)%N || (c =? 10)%N || (c =? 11)%N || (c =? 12)%N || (c =? 13)%N
  || (c =? 32)%N || (c =? 160)%N || (c =? 5760)%N
  || ((8192 <=? c)%N && (c <=? 8202)%N)
  || (c =? 8232)%N || (c =? 8233)%N || (c =? 8239)%N || (c =? 8287)%N
  || (c =? 12288)%N || (c =? 65279)%N.

Fixpoint trimStart (s : str) : str :=
  match s with
  | [] => []
  | c :: r => if is_space c then trimStart r else s
  end.

Definition trimEnd (s : str) : str := rev (trimStart (rev s)).

Definition trim (s : str) : str := trimEnd (trimStart s).

(** [s === ""] *)
Definition is_empty (s : str) : bool :=
  match s with [] => true | _ => false end.

Fixpoint eqb (a b : str) : bool :=
  match a, b with
  | [], [] => true
  | x :: a', y :: b' => (x =? y)%N && eqb a' b'
  | _, _ => false
  end.

(** [s.split(sep)] for a one-unit separator. *)
Fixpoint splitOn (sep : N) (s : str) (cur : str) : list str :=
  match s with
  | [] => [cur]
  | c :: r => if (c =? sep)%N then cur :: splitOn sep r [] else splitOn sep r (cur ++ [c])
  end.

Definition split (sep : N) (s : str) : list str := splitOn sep s [].

(** [fields.join(sep)] *)
Fixpoint join (sep : N) (fields : list str) : str :=
  match fields with
  | [] => []
  | [f] => f
  | f :: rest => f ++ sep :: join sep rest
  end.

(** [if (text.charCodeAt(0) === 0xFEFF) text = text.slice(1)] *)
Definition stripBOM (text : str) : str :=
  match text with
  | c :: r => if (c =? BOM)%N then r else text
  | [] => []
  end.

(** [text.replace(/\r\n/g, '\n').replace(/\r/g, '\n')] *)
Fixpoint replaceCRLF (s : str) : str :=
  match s with
  | [] => []
  | c :: r =>
      match r with
      | c2 :: r2 => if (c =? CR)%N && (c2 =? LF)%N then LF :: replaceCRLF r2
                    else c :: replaceCRLF r
      | [] => [c]
      end
  end.

Definition normalizeNewlines (s : str) : str :=
  map (fun c => if (c =? CR)%N then LF else c) (replaceCRLF s).

(** A plain object with string values: the property list, the latest
    assignment first. *)
Definition obj : Type := list (str * str).

Definition setProp (k v : str) (o : obj) : obj := (k, v) :: o.

Fixpoint getProp (k : str) (o : obj) : option str :=
  match o with
  | [] => None
  | (k', v) :: o' => if eqb k k' then Some v else getProp k o'
  end.

End Text.

(** ** CSV input of the calibrated v4 engine *)

Module V4Csv.

Import Text.

(** The loop of [parseCSVLine]. *)
Fixpoint lineLoop (line : str) (result : list str) (current : str) (inQuotes : bool)
    : list str :=
  match line with
  | [] => result ++ [trim current]
  | char :: rest =>
      if (char =? QUOTE)%N then lineLoop rest result current (negb inQuotes)
      else if (char =? COMMA)%N && negb inQuotes
           then lineLoop rest (result ++ [trim current]) [] inQuotes
           else lineLoop rest result (current ++ [char]) inQuotes
  end.

Definition parseCSVLine (line : str) : list str := lineLoop line [] [] false.

Inductive outcome (A : Type) : Type :=
| Returns (a : A)
| Throws (message : string).
Arguments Returns {A} a.
Arguments Throws {A} message.

(** The property names [team], [Team] and [Team] behind a byte-order
    mark. *)
Definition key_team : str := [116; 101; 97; 109]%N.
Definition key_Team : str := [84; 101; 97; 109]%N.
Definition key_bom_team : str := (BOM :: key_team)%N.

(** [headers.forEach((header, index) => { if (index < values.length)
      team[header.replace(/^\uFEFF/, '')] = values[index] })] *)
Fixpoint assign (headers values : list str) (team : obj) : obj :=
  match headers, values with
  | header :: hs, value :: vs => assign hs vs (setProp (stripBOM header) value team)
  | _, _ => team
  end.

(** [a || b] on property reads: an absent property and the empty string
    are falsy. *)
Definition truthy_or (a b : option str) : option str :=
  match a with
  | Some (c :: r) => a
  | _ => b
  end.

Definition teamNameOf (team : obj) : option str :=
  truthy_or (truthy_or (getProp key_team team) (getProp key_Team team))
            (getProp key_bom_team team).

(** One iteration of the loop over the data lines. *)
Definition addLine (headers : list str) (teamData : list obj) (line : str) : list obj :=
  let values := parseCSVLine line in
  if (Z.of_nat (List.length values) <? Z.of_nat (List.length headers) - 5)%Z
  then teamData
  else
    let team := assign headers values [] in
    match teamNameOf team with
    | Some (c :: r) => teamData ++ [setProp key_Team (c :: r) team]
    | _ => teamData
    end.

Definition parseCSV (csvText : str) : outcome (list obj) :=
  let cleanedText := stripBOM csvText in
  let lines := split LF (trim cleanedText) in
  if (List.length lines <? 2)%nat
  then Throws "CSV file appears to be empty or invalid"
  else
    let headers := parseCSVLine (hd [] lines) in
    let teamData := fold_left (addLine headers) (tl lines) [] in
    match teamData with
    | [] => Throws "No valid team data found. Please check CSV format."
    | _ => Returns teamData
    end.

(** [findValue]: [null] when no alias has a defined, non-empty value. *)
Fixpoint findValue (team : obj) (possibleNames : list str) : option str :=
  match possibleNames with
  | [] => None
  | name :: rest =>
      match getProp name team with
      | Some (c :: r) => Some (c :: r)
      | _ => findValue team rest
      end
  end.

End V4Csv.

(** ** CSV input of the Gaussian v3 engine *)

Module GaussV3Csv.

Import Text.

(** The scanning loop of [parseCSV] with the final push: the rows as
    they stand before trailing empty rows are removed. *)
Fixpoint scan (delim : N) (text : str) (rows : list (list str)) (row : list str)
    (field : str) (inQuotes : bool) : list (list str) :=
  match text with
  | [] => rows ++ [row ++ [trim field]]
  | ch :: rest =>
      if inQuotes then
        if (ch =? QUOTE)%N then
          match rest with
          | ch2 :: rest2 =>
              if (ch2 =? QUOTE)%N
              then scan delim rest2 rows row (field ++ [QUOTE]) true
              else scan delim rest rows row field false
          | [] => scan delim rest rows row field false
          end
        else scan delim rest rows row (field ++ [ch]) true
      else
        if (ch =? QUOTE)%N then scan delim rest rows row field true
        else if (ch =? delim)%N then scan delim rest rows (row ++ [trim field]) [] false
        else if (ch =? LF)%N
             then scan delim rest (rows ++ [row ++ [trim field]]) [] [] false
             else scan delim rest rows row (field ++ [ch]) false
  end.

(** [(firstLine.match(/\t/) && !firstLine.match(/,/)) ? '\t' : ','] with
    [firstLine = text.split('\n')[0] || ""] *)
Definition detectDelim (text : str) : N :=
  let firstLine := hd [] (split LF text) in
  if existsb (N.eqb TAB) firstLine && negb (existsb (N.eqb COMMA) firstLine)
  then TAB else COMMA.

(** [while (rows.length && rows[rows.length-1].every(c => c === ""))
      rows.pop()] *)
Fixpoint dropEmptyRows (reversed : list (list str)) : list (list str) :=
  match reversed with
  | [] => []
  | row :: rest => if forallb is_empty row then dropEmptyRows rest else reversed
  end.

Definition dropTrailingEmpty (rows : list (list str)) : list (list str) :=
  rev (dropEmptyRows (rev rows)).

Definition parseRows (text : str) : list (list str) :=
  let text := normalizeNewlines (stripBOM text) in
  let delim := detectDelim text in
  dropTrailingEmpty (scan delim text [] [] [] false).

(** [for (let j = 0; j < header.length; j++)
      o[header[j]] = (cols[j] ?? "").trim()] *)
Fixpoint record (header cols : list str) (o : obj) : obj :=
  match header with
  | [] => o
  | h :: hs => record hs (tl cols) (setProp h (trim (hd [] cols)) o)
  end.

Record Parsed : Type := mkParsed { header : list str; records : list obj }.

Definition parseCSV (text : str) : Parsed :=
  match parseRows text with
  | [] => mkParsed [] []
  | first :: rest =>
      let header := map trim first in
      mkParsed header (map (fun cols => record header cols []) rest)
  end.

End GaussV3Csv.

(** * Specification-level definitions and sample inputs *)

(** A team at the league defaults of [parseRow], with the given pace
    fields. *)
Definition paceTeam (name : string) (offDrives defDrives noHuddle edPass : Q) : TeamStats :=
  mkTeam name 2.02 0.022 0.43 0.113 0.56 0.24 0.44 0 25
         2.02 0.022 0.43 0.113 0.56 0.24 0.44
         0 0 offDrives defDrives 62 62 edPass noHuddle.

(** The teams of the drives-sum regression scenario: no no-huddle snaps
    and a neutral early-down pass rate, so both pace adjustments vanish. *)
Definition regHome : TeamStats := paceTeam "HOME" 12 12.5 0 0.5.
Definition regAway : TeamStats := paceTeam "AWAY" 11.5 11 0 0.5.

(** A standard deviation that is zero or not finite. *)
Definition degenerate (sd : JS.jsnum) : Prop :=
  JS.isFinite sd = false \/ JS.is_zero sd = true.

Definition sum3 (p : DDS.DriveP) : Q := DDS.d3O p + DDS.dTD p + DDS.dFG p.


(** Rational stand-ins for [Math.exp] and for the [Math.random] sequence,
    used to run the engines on examples: the degree-2 Taylor polynomial at
    [x / 16] raised to the 16th power, and a fixed sequence in [0, 1). *)
Definition expPoly (x : Q) : Q :=
  let t := x / 16 in
  (1 + t + t * t / 2) ^ 16.

Definition uSeq (k : nat) : Q :=
  inject_Z (Z.of_nat ((k * 37 + 11) mod 100)) / 100.

(** The session with another HFA setting. *)
Definition with_hfa (s : DDS.Session) (h : Q) : DDS.Session :=
  DDS.mkSession (DDS.teamDB s) (DDS.homeTeam s) (DDS.awayTeam s) h
    (DDS.numSim s) (DDS.marketTotal s) (DDS.marketSpread s).

(** A two-team database for the examples. *)
Definition regDB : TeamDB :=
  fun name =>
    if String.eqb name "HOME" then Some regHome
    else if String.eqb name "AWAY" then Some regAway
    else None.

Definition regSession (hfa : Q) (numSim : JS.jsint) : DDS.Session :=
  DDS.mkSession regDB "HOME" "AWAY" hfa numSim (Some 47.5) (Some (-3)).



(** A league-average pair for the Gaussian engines. *)
Definition avgHome : TeamStats :=
  mkTeam "HOME" 2.06 0.022 0.43 0.113 0.56 0.24 0.44 0 25
         2.06 0.022 0.43 0.113 0.56 0.24 0.44
         0 0 12 12 62 62 0.5 0.02.

Definition avgAway : TeamStats :=
  mkTeam "AWAY" 2.06 0.022 0.43 0.113 0.56 0.24 0.44 0 25
         2.06 0.022 0.43 0.113 0.56 0.24 0.44
         0 0 12 12 62 62 0.5 0.02.


Ltac qcompute := vm_compute; first [reflexivity | discriminate].


(** The league-average matchup. *)
Definition avgNets : Gauss.Nets := Gauss.computeNetFeatures avgHome avgAway.
Definition avgPace : Gauss.Pace :=
  GaussFixed.computeGamePace avgHome avgAway avgAway avgHome avgNets.

(** The literal trial sequence of the aggregation scenario. *)
Definition fixedTotals : list Z := [38; 41; 45; 50; 52]%Z.










(** The games of a run of the discrete engine, in trial order: trial [i]
    is the call of [simulateOne] that starts where trial [i-1] left the
    random sequence. *)
Fixpoint games (exp : Q -> Q) (U : nat -> Q) (H A : TeamStats)
    (netsHome netsAway : DDS.Nets) (pace : DDS.Pace) (hfa : Q) (n k : nat)
  : list DDS.Game :=
  match n with
  | O => []
  | S n' =>
      let (g, k') := DDS.simulateOne exp U H A netsHome netsAway
                       (DDS.gameDrives pace) (DDS.posShare pace)
                       (Qmax 0 (JS.or_else hfa 0)) k in
      g :: games exp U H A netsHome netsAway pace hfa n' k'
  end.

Definition total_of (g : DDS.Game) : Z := (DDS.hs g + DDS.as_ g)%Z.
Definition margin_of (g : DDS.Game) : Z := (DDS.hs g - DDS.as_ g)%Z.

(** The state of the trial loop of [run] when it ends. *)
Definition DDS_trials (exp : Q -> Q) (U : nat -> Q) (H A : TeamStats)
    (s : DDS.Session) (k : nat) : DDS.Trials :=
  DDS.trialLoop exp U H A (DDS.buildNets H A) (DDS.buildNets A H)
    (DDS.computePace H A (DDS.buildNets H A)) (DDS.hfaPoints s)
    (Z.to_nat (DDS.trialCount (DDS.numSim s)))
    (DDS.mkTrials [] [] 0%Z 0%Z None k).




(** [Math.sqrt] at the argument 1. *)
Definition sqrtAtOne (x : Q) : Q := 1.




(** * Further definitions *)


(** The index [pct] reads, for any [p]. *)
Definition pct_idx (n : Z) (p : Q) : nat :=
  Z.to_nat (Z.max 0 (Z.min (n - 1) (JS.floor (inject_Z (n - 1) * p)))).

(** The index [percentile] reads, for any [p]. *)
Definition percentile_idx (n : Z) (p : Q) : nat :=
  Z.to_nat (Z.min (Z.max (JS.floor (inject_Z n * p)) 0) (n - 1)).

Ltac zdiv := Z.div_mod_to_equations; lia.


(** Order on finite results. *)
Definition fin_le (a b : JS.jsnum) : Prop :=
  match a, b with
  | JS.Fin x, JS.Fin y => x <= y
  | _, _ => False
  end.

(** The settings of the single-game form as the component starts with
    them, for a given trial count. *)
Definition formSettings (n : Z) : V4Game.Settings :=
  V4Game.mkSettings 44.5 23.5 21 (-3) (-3) n false 0 70 V4Game.PrecipNone 0.

(** A league-average matchup and its drives. *)
Definition avgMatchup : V4Game.Matchup := V4Game.calculateMatchupPPD 2.07 10.8 0 0 0 0.
Definition avgDrives : V4Game.DrivesModel :=
  V4Game.calculateExpectedDrives 10.8 0 0 0 0 0.11 0.11.


(** The writer's side of RFC 4180: a field between double quotes, each
    double quote inside it doubled; fields joined by the delimiter, lines
    by a line feed. *)
Definition escapeQuotes (f : Text.str) : Text.str :=
  flat_map (fun c => if (c =? Text.QUOTE)%N then [Text.QUOTE; Text.QUOTE] else [c]) f.

Definition rfcQuote (f : Text.str) : Text.str :=
  Text.QUOTE :: escapeQuotes f ++ [Text.QUOTE].

Definition encodeLine (delim : N) (fields : list Text.str) : Text.str :=
  Text.join delim (map rfcQuote fields).

Definition encodeTable (delim : N) (rows : list (list Text.str)) : Text.str :=
  Text.join Text.LF (map (encodeLine delim) rows).

(** A field with its double quotes removed. *)
Definition withoutQuotes (f : Text.str) : Text.str :=
  filter (fun c => negb (c =? Text.QUOTE)%N) f.

(** A field that needs no quoting in a comma-separated line. *)
Definition plainField (f : Text.str) : Prop :=
  ~ In Text.QUOTE f /\ ~ In Text.COMMA f.

(** * Properties *)

(** ** Clamps *)

Lemma clamp_max_min (lo hi x : Q) :
  lo <= hi -> lo <= Qmax lo (Qmin hi x) /\ Qmax lo (Qmin hi x) <= hi.
Proof.
  intros Hle; split.
  - apply Q.le_max_l.
  - apply Q.max_lub; [exact Hle | apply Q.le_min_l].
Qed.


Lemma clamp01_bounds (p : Q) : 0 <= DDS.clamp01 p /\ DDS.clamp01 p <= 1.
Proof. unfold DDS.clamp01; apply clamp_max_min; lra. Qed.

Lemma lt_true (a b : Q) : JS.lt a b = true <-> a < b.
Proof.
  unfold JS.lt; rewrite negb_true_iff; split; intros H.
  - apply Qnot_le_lt; intros Hle; apply Qle_bool_iff in Hle; congruence.
  - destruct (Qle_bool b a) eqn:E; auto.
    apply Qle_bool_iff in E; lra.
Qed.

Lemma lt_false (a b : Q) : JS.lt a b = false <-> b <= a.
Proof.
  unfold JS.lt; rewrite negb_false_iff; apply Qle_bool_iff.
Qed.

(** ** Pace allocator *)

(** The discrete engine sums the two per-team averages: without pace
    adjustments the drives before the clamp are exactly that sum. *)
Lemma DDS_paceDrives_sum (home away : TeamStats) :
  no_huddle home == 0 -> no_huddle away == 0 ->
  ed_pass home == 0.5 -> ed_pass away == 0.5 ->
  DDS.paceDrives home away
  == (off_drives home + def_drives away) / 2 + (off_drives away + def_drives home) / 2.
Proof.
  intros Hh Ha Eh Ea.
  unfold DDS.paceDrives, DDS.nh_boost, DDS.ed_adj, DDS.offDefAvgHome, DDS.offDefAvgAway,
    JS.or_else, JS.truthy.
  destruct (Qeq_bool (no_huddle home) 0), (Qeq_bool (no_huddle away) 0),
    (Qeq_bool (ed_pass home) 0) eqn:E1, (Qeq_bool (ed_pass away) 0) eqn:E2; simpl;
    try (apply Qeq_bool_iff in E1; rewrite Eh in E1; discriminate E1);
    try (apply Qeq_bool_iff in E2; rewrite Ea in E2; discriminate E2);
    try rewrite Hh; try rewrite Ha; rewrite Eh, Ea; field.
Qed.

Lemma DDS_paceDrives_regression :
  no_huddle regHome == 0 /\ DDS.paceDrives regHome regAway == 23.5.
Proof.
  split; [reflexivity |].
  rewrite DDS_paceDrives_sum by reflexivity.
  reflexivity.
Defined.

Lemma GaussV3_paceDrives_regression :
  GaussV3.paceDrives regHome regAway regAway regHome == 23.5.
Proof. vm_compute; reflexivity. Qed.

(** C2 (the Gaussian rewrite): on the regression scenario of the drives-sum
    property (12, 11, 11.5, 12.5, no pace adjustments) [computeGamePace]
    of the rewrite halves the sum of the two averages once more: the drives
    before the clamp are 11.75, not 23.5, and the clamp then lifts them to
    the floor 18. *)
Theorem C2_rewrite_undercounts_drives :
  GaussFixed.paceDrives regHome regAway regAway regHome == 11.75
  /\ ~ GaussFixed.paceDrives regHome regAway regAway regHome == 23.5
  /\ Gauss.gameDrives
       (GaussFixed.computeGamePace regHome regAway regAway regHome
          (Gauss.computeNetFeatures regHome regAway)) == 18
  /\ DDS.paceDrives regHome regAway == 23.5.
Proof.
  repeat split; try (vm_compute; reflexivity).
  vm_compute; discriminate.
Qed.

Lemma DDS_pace_bands (home away : TeamStats) (netsHome : DDS.Nets) :
  let pace := DDS.computePace home away netsHome in
  0.35 <= DDS.posShare pace <= 0.65 /\ 20 <= DDS.gameDrives pace <= 30.
Proof.
  cbn [DDS.computePace DDS.posShare DDS.gameDrives].
  split; apply clamp_max_min; lra.
Qed.




(** ** Standardization *)

(** The guarded helpers ([z] of the discrete and v3 engines, [zScore] of
    the Gaussian rewrite) return exactly 0 on a degenerate deviation,
    whatever the metric cell holds. *)
Lemma guarded_z_degenerate (v : JS.jsval) (m sd : JS.jsnum) :
  degenerate sd ->
  DDS.z v m sd = JS.Fin 0 /\ GaussV3.z v m sd = JS.Fin 0
  /\ GaussFixed.zScore v m sd = JS.Fin 0.
Proof.
  intros [H | H]; unfold DDS.z, GaussV3.z, GaussFixed.zScore;
    destruct v; rewrite ?H, ?orb_true_r; auto.
Qed.

(** Hence the net signal of a metric, offense z minus defense z against
    the same baseline, is exactly 0 as well. *)
Lemma guarded_net_degenerate (v_off v_def : JS.jsval) (m sd : JS.jsnum) :
  degenerate sd ->
  JS.sub (DDS.z v_off m sd) (DDS.z v_def m sd) = JS.Fin 0
  /\ JS.sub (GaussFixed.zScore v_off m sd) (GaussFixed.zScore v_def m sd) = JS.Fin 0.
Proof.
  intros H.
  destruct (guarded_z_degenerate v_off m sd H) as (-> & _ & ->).
  destruct (guarded_z_degenerate v_def m sd H) as (-> & _ & ->).
  split; reflexivity.
Qed.

(** On finite arguments the guarded helpers are the finite helper the
    engines are modelled with. *)
Lemma z_finite (v m s : Q) :
  DDS.z (JS.Number (JS.Fin v)) (JS.Fin m) (JS.Fin s) = JS.Fin (DDS.z_fin v m s)
  /\ GaussFixed.zScore (JS.Number (JS.Fin v)) (JS.Fin m) (JS.Fin s)
     = JS.Fin (Gauss.z_fin v m s).
Proof.
  unfold DDS.z, GaussFixed.zScore, DDS.z_fin, Gauss.z_fin; simpl.
  destruct (Qeq_bool s 0); auto.
Qed.

(** The v4 helper guards a zero deviation only. *)
Lemma V4_zScore_zero_sd (value mean sd : JS.jsnum) :
  JS.is_zero sd = true -> V4.zScore value mean sd = JS.Fin 0.
Proof. intros H; unfold V4.zScore; rewrite H; reflexivity. Qed.

(** C3 (the v4 engine): [zScore] of the calibrated v4 engine tests
    [sd === 0] only.  With a NaN deviation it returns NaN for every metric
    value and mean, and with an infinite deviation and an infinite metric
    value it returns NaN as well; the guarded helpers of the other engines
    return 0 on the same arguments. *)
Theorem C3_v4_zScore_not_guarded :
  (forall value mean, V4.zScore value mean JS.NaN = JS.NaN)
  /\ V4.zScore (JS.Fin 0.5) (JS.Fin 0.43) JS.NaN = JS.NaN
  /\ V4.zScore JS.PosInf (JS.Fin 0.43) JS.PosInf = JS.NaN
  /\ DDS.z (JS.Number (JS.Fin 0.5)) (JS.Fin 0.43) JS.NaN = JS.Fin 0
  /\ GaussFixed.zScore (JS.Number (JS.Fin 0.5)) (JS.Fin 0.43) JS.NaN = JS.Fin 0.
Proof.
  repeat split; try reflexivity.
  intros value mean; unfold V4.zScore; simpl.
  destruct (JS.sub value mean); reflexivity.
Qed.

(** ** Discrete outcome probabilities *)

Lemma driveProbs_conserved (exp : Q -> Q) (off def : TeamStats) (nets : DDS.Nets) :
  let p := DDS.driveProbs exp off def nets in
  0 <= DDS.p3O p <= 1 /\ 0 <= DDS.pTD p <= 1 /\ 0 <= DDS.pFG p <= 1
  /\ 0 <= DDS.pEmpty p
  /\ DDS.p3O p + DDS.pTD p + DDS.pFG p <= 1
  /\ DDS.p3O p + DDS.pTD p + DDS.pFG p + DDS.pEmpty p == 1.
Proof.
  cbn [DDS.driveProbs DDS.p3O DDS.pTD DDS.pFG DDS.pEmpty].
  set (a := DDS.clamp01 _).
  set (b := DDS.clamp01 _).
  set (c := Qmax 0 (Qmin 1 (DDS.phi DDS.logits))).
  destruct (clamp01_bounds (DDS.sigmoid exp
     (DDS.a0 DDS.logits - DDS.a1 DDS.logits * DDS.EPA_net nets
      - DDS.a2 DDS.logits * DDS.SR_net nets
      + DDS.a3 DDS.logits * (def_3out def - DDS.ThreeOut DDS.lg)
      + DDS.a4 DDS.logits * - DDS.RZ_net nets))) as [Ha0 Ha1].
  fold a in Ha0, Ha1.
  destruct (clamp01_bounds (DDS.sigmoid exp
     (DDS.b0 DDS.logits + DDS.b1 DDS.logits * DDS.EPA_net nets
      + DDS.b2 DDS.logits * DDS.SR_net nets + DDS.b3 DDS.logits * DDS.RZ_net nets
      + DDS.b4 DDS.logits * DDS.PPD_resid nets))) as [Hb0 Hb1].
  fold b in Hb0, Hb1.
  assert (Hc : 0 <= c /\ c <= 1) by (apply clamp_max_min; lra).
  destruct Hc as [Hc0 Hc1].
  assert (Hab : 0 <= (1 - a) * b /\ (1 - a) * b <= 1 - a) by (split; nra).
  assert (Hf0 : 0 <= (1 - a) * (1 - b)) by nra.
  assert (Hf : 0 <= (1 - a) * (1 - b) * c /\ (1 - a) * (1 - b) * c <= (1 - a) * (1 - b))
    by (split; nra).
  assert (Hsum : a + (1 - a) * b + (1 - a) * (1 - b) * c <= 1) by nra.
  destruct (Q.max_spec 0 (1 - (a + (1 - a) * b + (1 - a) * (1 - b) * c)))
    as [[_ He] | [Hlt He]];
    repeat split;
    first [ apply Q.le_max_l | rewrite He; lra | lra | nra ].
Qed.





(** ** Home-field advantage in the discrete engine *)

Lemma Qmax0_nonpos (h : Q) : h <= 0 -> Qmax 0 h = 0.
Proof.
  intros Hh; unfold Qmax, GenericMinMax.gmax.
  destruct (0 ?= h) eqn:E; auto.
  apply Qlt_alt in E; lra.
Qed.

Lemma call_site_hfa_nonpos (h : Q) : h <= 0 -> Qmax 0 (JS.or_else h 0) = 0.
Proof.
  intros Hh; unfold JS.or_else.
  destruct (JS.truthy h); [apply Qmax0_nonpos; exact Hh | reflexivity].
Qed.

Lemma tiltHome_nonpos (base : DDS.Probs) (hfa : Q) :
  hfa <= 0 -> DDS.tiltHome base hfa = DDS.tiltHome base 0.
Proof.
  intros Hh; unfold DDS.tiltHome.
  rewrite (Qmax0_nonpos hfa Hh), (Qmax0_nonpos 0) by lra.
  reflexivity.
Qed.

Lemma simulateOne_nonpos (exp : Q -> Q) (U : nat -> Q) (home away : TeamStats)
    (netsHome netsAway : DDS.Nets) (gameDrives posShare hfa : Q) (k : nat) :
  hfa <= 0 ->
  DDS.simulateOne exp U home away netsHome netsAway gameDrives posShare hfa k
  = DDS.simulateOne exp U home away netsHome netsAway gameDrives posShare 0 k.
Proof.
  intros Hh; unfold DDS.simulateOne, DDS.adjHomeOf.
  rewrite (tiltHome_nonpos _ hfa Hh); reflexivity.
Qed.

Lemma trialLoop_nonpos (exp : Q -> Q) (U : nat -> Q) (H A : TeamStats)
    (netsHome netsAway : DDS.Nets) (pace : DDS.Pace) (h : Q) (n : nat) :
  h <= 0 ->
  forall t,
    DDS.trialLoop exp U H A netsHome netsAway pace h n t
    = DDS.trialLoop exp U H A netsHome netsAway pace 0 n t.
Proof.
  intros Hh; induction n as [| n IH]; intros t; simpl; [reflexivity |].
  rewrite IH; f_equal.
  unfold DDS.trialStep.
  rewrite (call_site_hfa_nonpos h Hh), (call_site_hfa_nonpos 0) by lra.
  reflexivity.
Qed.

(** C10: in the discrete engine a home-field advantage [hfa <= 0] has no
    effect.  For every matchup, pace and random sequence, the home side's
    tilted probabilities and the sampled game (both scores, the debug
    record and the number of random draws consumed) are those obtained
    with [hfa = 0]; and [run], which passes [Math.max(0, hfaPoints || 0)],
    leaves the same outcome for a session with [hfaPoints <= 0] as for the
    same session with [hfaPoints = 0]. *)
Theorem C10_nonpositive_hfa_is_zero_hfa :
  forall (exp : Q -> Q) (U : nat -> Q) (home away : TeamStats)
         (netsHome netsAway : DDS.Nets) (gameDrives posShare hfa : Q) (k : nat)
         (s : DDS.Session),
    hfa <= 0 ->
    DDS.adjHomeOf (DDS.driveProbs exp home away netsHome) hfa
    = DDS.adjHomeOf (DDS.driveProbs exp home away netsHome) 0
    /\ DDS.simulateOne exp U home away netsHome netsAway gameDrives posShare hfa k
       = DDS.simulateOne exp U home away netsHome netsAway gameDrives posShare 0 k
    /\ DDS.run exp U (with_hfa s hfa) k = DDS.run exp U (with_hfa s 0) k.
Proof.
  intros exp U home away netsHome netsAway gameDrives posShare hfa k s Hh.
  split; [| split].
  - unfold DDS.adjHomeOf; rewrite (tiltHome_nonpos _ hfa Hh); reflexivity.
  - apply simulateOne_nonpos; exact Hh.
  - unfold DDS.run, with_hfa; cbn [DDS.teamDB DDS.homeTeam DDS.awayTeam DDS.hfaPoints
      DDS.numSim DDS.marketTotal DDS.marketSpread].
    destruct (negb (selected (DDS.homeTeam s)) || negb (selected (DDS.awayTeam s)));
      [reflexivity |].
    destruct (DDS.teamDB s (DDS.homeTeam s)) as [H |]; [| reflexivity].
    destruct (DDS.teamDB s (DDS.awayTeam s)) as [A |]; [| reflexivity].
    rewrite (trialLoop_nonpos exp U H A _ _ _ hfa _ Hh).
    reflexivity.
Qed.

Lemma C10_nonpositive_hfa_witness :
  -3 <= 0
  /\ DDS.simulateOne expPoly uSeq regHome regAway
       (DDS.buildNets regHome regAway) (DDS.buildNets regAway regHome) 24 0.5 (-3) 0
     = DDS.simulateOne expPoly uSeq regHome regAway
       (DDS.buildNets regHome regAway) (DDS.buildNets regAway regHome) 24 0.5 0 0.
Proof.
  split; [lra |].
  apply (C10_nonpositive_hfa_is_zero_hfa expPoly uSeq regHome regAway
           (DDS.buildNets regHome regAway) (DDS.buildNets regAway regHome)
           24 0.5 (-3) 0%nat (regSession (-3) (JS.Int 1))).
  lra.
Defined.

(** ** Home-field advantage in the Gaussian engines *)











(** ** Aggregation *)

Lemma Sorted_leb_le (l : list Z) :
  Sorted (fun x y => is_true (x <=? y)%Z) l -> Sorted Z.le l.
Proof.
  induction 1 as [| a l Hs IH Hd]; constructor; auto.
  destruct Hd; constructor; apply Z.leb_le; assumption.
Qed.

Lemma sortNum_sorted (arr : list Z) : Sorted Z.le (sortNum arr).
Proof. apply Sorted_leb_le, ZSort.Sorted_sort. Qed.

Lemma sortNum_perm (arr : list Z) : Permutation arr (sortNum arr).
Proof. apply ZSort.Permuted_sort. Qed.

Lemma sortNum_length (arr : list Z) : List.length (sortNum arr) = List.length arr.
Proof. symmetry; apply Permutation_length, sortNum_perm. Qed.

Lemma median_even (arr : list Z) :
  Nat.even (List.length arr) = true ->
  median arr
  == (inject_Z (nth (List.length arr / 2 - 1) (sortNum arr) 0%Z)
      + inject_Z (nth (List.length arr / 2) (sortNum arr) 0%Z)) / 2.
Proof.
  intros He; unfold median.
  rewrite sortNum_length.
  rewrite <- Nat.negb_odd in He; apply negb_true_iff in He; rewrite He.
  rewrite inject_Z_plus; reflexivity.
Qed.

Lemma median_odd (arr : list Z) :
  Nat.odd (List.length arr) = true ->
  median arr == inject_Z (nth (List.length arr / 2) (sortNum arr) 0%Z).
Proof.
  intros Ho; unfold median.
  rewrite sortNum_length, Ho; reflexivity.
Qed.

Lemma floor_scaled_index (n : Z) (p : Q) :
  (0 <= n)%Z -> 0 <= p <= 1 ->
  (0 <= JS.floor (inject_Z n * p) <= n)%Z.
Proof.
  intros Hn [Hp0 Hp1]; unfold JS.floor.
  assert (Hq : 0 <= inject_Z n) by (rewrite Zle_Qle in Hn; exact Hn).
  split.
  - rewrite <- (Qfloor_Z 0); apply Qfloor_resp_le.
    change (inject_Z 0) with 0; nra.
  - rewrite <- (Qfloor_Z n) at 2; apply Qfloor_resp_le; nra.
Qed.

(** The discrete engine's [pct] reads the sorted array at
    [floor((n-1)*p)]. *)
Lemma pct_index (arr : list Z) (p : Q) :
  arr <> [] -> 0 <= p <= 1 ->
  DDS.pct arr p
  = nth (Z.to_nat (JS.floor (inject_Z (len arr - 1) * p))) (sortNum arr) 0%Z.
Proof.
  intros Hne Hp; unfold DDS.pct, len.
  rewrite sortNum_length.
  assert (Hn : (0 <= Z.of_nat (List.length arr) - 1)%Z)
    by (destruct arr; [contradiction | simpl List.length; lia]).
  pose proof (floor_scaled_index _ p Hn Hp) as Hi.
  f_equal; f_equal; lia.
Qed.

(** The rewrite's [percentile] reads it at [floor(n*p)], capped at the
    last index. *)
Lemma percentile_index (arr : list Z) (p : Q) :
  arr <> [] -> 0 <= p <= 1 ->
  GaussFixed.percentile arr p
  = nth (Z.to_nat (Z.min (JS.floor (inject_Z (len arr) * p)) (len arr - 1)))
        (sortNum arr) 0%Z.
Proof.
  intros Hne Hp; unfold GaussFixed.percentile, len.
  rewrite sortNum_length.
  assert (Hn : (0 <= Z.of_nat (List.length arr))%Z) by lia.
  pose proof (floor_scaled_index _ p Hn Hp) as Hi.
  f_equal; f_equal; lia.
Qed.

(** C6 (as the code has it): on the totals [38, 41, 45, 50, 52] the median
    and both engines' p50 are 45 and the mean is 45.2; the array the
    aggregators index is a sorted permutation of the trial sequence; for an
    even-length sequence the median is the midpoint average of the two
    central sorted elements (for an odd length, the central element); for a
    non-empty sequence and [0 <= p <= 1] the discrete engine's [pct]
    returns the sorted element at index [floor((n-1)*p)], while the
    Gaussian rewrite's [percentile] returns the sorted element at index
    [min(floor(n*p), n-1)]. *)
Theorem C6_aggregation_conventions :
  forall (arr : list Z) (p : Q),
    arr <> [] -> 0 <= p <= 1 ->
    (mean fixedTotals == 45.2 /\ median fixedTotals == 45
     /\ DDS.pct fixedTotals 0.50 = 45%Z /\ GaussFixed.percentile fixedTotals 0.50 = 45%Z)
    /\ (Sorted Z.le (sortNum arr) /\ Permutation arr (sortNum arr))
    /\ (Nat.even (List.length arr) = true ->
        median arr
        == (inject_Z (nth (List.length arr / 2 - 1) (sortNum arr) 0%Z)
            + inject_Z (nth (List.length arr / 2) (sortNum arr) 0%Z)) / 2)
    /\ (Nat.odd (List.length arr) = true ->
        median arr == inject_Z (nth (List.length arr / 2) (sortNum arr) 0%Z))
    /\ DDS.pct arr p
       = nth (Z.to_nat (JS.floor (inject_Z (len arr - 1) * p))) (sortNum arr) 0%Z
    /\ GaussFixed.percentile arr p
       = nth (Z.to_nat (Z.min (JS.floor (inject_Z (len arr) * p)) (len arr - 1)))
             (sortNum arr) 0%Z.
Proof.
  intros arr p Hne Hp.
  split; [repeat split; qcompute |].
  split; [split; [apply sortNum_sorted | apply sortNum_perm] |].
  split; [apply median_even |].
  split; [apply median_odd |].
  split; [apply pct_index | apply percentile_index]; assumption.
Qed.

Lemma C6_aggregation_witness :
  median [38; 41; 45; 50]%Z == (inject_Z 41 + inject_Z 45) / 2
  /\ DDS.pct fixedTotals 0.90 = 50%Z
  /\ GaussFixed.percentile fixedTotals 0.90 = 52%Z.
Proof.
  assert (Hne : [38; 41; 45; 50]%Z <> []) by discriminate.
  assert (Hne' : fixedTotals <> []) by discriminate.
  assert (Hp : 0 <= 0.90 <= 1) by (split; qcompute).
  destruct (C6_aggregation_conventions [38; 41; 45; 50]%Z 0.90 Hne Hp)
    as (_ & _ & Hev & _).
  destruct (C6_aggregation_conventions fixedTotals 0.90 Hne' Hp)
    as (_ & _ & _ & _ & Hpct & Hper).
  split; [exact (Hev eq_refl) |].
  split; [rewrite Hpct | rewrite Hper]; reflexivity.
Defined.

(** C6 as stated fails for the Gaussian rewrite: on [38, 41, 45, 50, 52]
    and p = 0.90 the convention [floor((n-1)*p)] selects index 3, the
    element 50, which is what the discrete engine's [pct] returns; the
    rewrite's [percentile] indexes at [floor(n*p)] = 4 and returns 52. *)
Lemma C6_counterexample :
  JS.floor (inject_Z (len fixedTotals - 1) * 0.90) = 3%Z
  /\ nth 3 (sortNum fixedTotals) 0%Z = 50%Z
  /\ DDS.pct fixedTotals 0.90 = 50%Z
  /\ GaussFixed.percentile fixedTotals 0.90 = 52%Z
  /\ GaussFixed.percentile fixedTotals 0.90
     <> nth (Z.to_nat (JS.floor (inject_Z (len fixedTotals - 1) * 0.90)))
            (sortNum fixedTotals) 0%Z.
Proof. repeat split; qcompute. Qed.

(** ** The trial loops *)

Lemma DDS_trialLoop_arrays (exp : Q -> Q) (U : nat -> Q) (H A : TeamStats)
    (netsHome netsAway : DDS.Nets) (pace : DDS.Pace) (hfa : Q) (n : nat) :
  forall t,
    let t' := DDS.trialLoop exp U H A netsHome netsAway pace hfa n t in
    let gs := games exp U H A netsHome netsAway pace hfa n (DDS.rng t) in
    DDS.totals t' = DDS.totals t ++ map total_of gs
    /\ DDS.spreads t' = DDS.spreads t ++ map margin_of gs
    /\ List.length gs = n.
Proof.
  induction n as [| n IH]; intros t; cbn [DDS.trialLoop games].
  - cbn [map List.length]; rewrite !app_nil_r; auto.
  - specialize (IH (DDS.trialStep exp U H A netsHome netsAway pace hfa t)).
    cbv zeta in IH; destruct IH as (Ht & Hs & Hl).
    unfold DDS.trialStep in Ht, Hs, Hl |- *.
    destruct (DDS.simulateOne exp U H A netsHome netsAway (DDS.gameDrives pace)
                (DDS.posShare pace) (Qmax 0 (JS.or_else hfa 0)) (DDS.rng t)) as [g k'].
    cbn [DDS.totals DDS.spreads DDS.rng] in Ht, Hs, Hl.
    cbn [map List.length].
    rewrite Ht, Hs, Hl, <- !app_assoc; auto.
Qed.









(** ** Market probabilities *)







(** ** Trial-count handling *)






(** * Further properties of the engines *)

(** ** Sampling in the discrete engine *)

(** One drive scores 0, 3 or 7 and consumes one draw. *)
Lemma sampleDrive_outcomes (U : nat -> Q) (p : DDS.DriveP) (k : nat) :
  (fst (DDS.sampleDrive U p k) = 0%Z \/ fst (DDS.sampleDrive U p k) = 3%Z
   \/ fst (DDS.sampleDrive U p k) = 7%Z)
  /\ snd (DDS.sampleDrive U p k) = S k.
Proof.
  unfold DDS.sampleDrive; cbn [fst snd].
  destruct (JS.lt (U k) (DDS.d3O p)); [auto |].
  destruct (JS.lt (U k) (DDS.d3O p + DDS.dTD p)); [auto |].
  destruct (JS.lt (U k) (DDS.d3O p + DDS.dTD p + DDS.dFG p)); auto.
Qed.

(** The score accumulated over [n] drives is the starting score plus
    3 a + 7 b for some a + b <= n field goals and touchdowns, and the
    position advances by [n]. *)
Lemma sampleDrives_score (U : nat -> Q) (p : DDS.DriveP) (n : nat) :
  forall (score : Z) (k : nat),
    (exists a b : nat,
        fst (DDS.sampleDrives U p n score k)
        = (score + 3 * Z.of_nat a + 7 * Z.of_nat b)%Z
        /\ (a + b <= n)%nat)
    /\ snd (DDS.sampleDrives U p n score k) = (k + n)%nat.
Proof.
  induction n as [| n IH]; intros score k; cbn [DDS.sampleDrives].
  - split; [exists O, O; cbn [fst]; split; lia | cbn [snd]; lia].
  - destruct (sampleDrive_outcomes U p k) as [Hpts Hk].
    destruct (DDS.sampleDrive U p k) as [pts k'] eqn:E; cbn [fst snd] in Hpts, Hk.
    subst k'.
    destruct (IH (score + pts)%Z (S k)) as [(a & b & Hs & Hab) Hk'].
    split; [| rewrite Hk'; lia].
    destruct Hpts as [-> | [-> | ->]].
    + exists a, b; split; [rewrite Hs; lia | lia].
    + exists (S a), b; split; [rewrite Hs; lia | lia].
    + exists a, (S b); split; [rewrite Hs; lia | lia].
Qed.

Lemma simulateOne_outcome (exp : Q -> Q) (U : nat -> Q) (home away : TeamStats)
    (netsHome netsAway : DDS.Nets) (gameDrives posShare hfa : Q) (k : nat) :
  let out := DDS.simulateOne exp U home away netsHome netsAway gameDrives posShare hfa k in
  let hd := Z.to_nat (DDS.dbg_homeDrives (DDS.debug (fst out))) in
  let ad := Z.to_nat (DDS.dbg_awayDrives (DDS.debug (fst out))) in
  (exists a b : nat, DDS.hs (fst out) = (3 * Z.of_nat a + 7 * Z.of_nat b)%Z
                     /\ (a + b <= hd)%nat)
  /\ (exists a b : nat, DDS.as_ (fst out) = (3 * Z.of_nat a + 7 * Z.of_nat b)%Z
                        /\ (a + b <= ad)%nat)
  /\ (0 <= DDS.hs (fst out) <= 7 * Z.of_nat hd)%Z
  /\ (0 <= DDS.as_ (fst out) <= 7 * Z.of_nat ad)%Z
  /\ snd out = (k + hd + ad)%nat.
Proof.
  unfold DDS.simulateOne.
  set (hdz := JS.round (gameDrives * posShare)).
  set (adz := JS.round (gameDrives - inject_Z hdz)).
  set (pH := DDS.adjHomeOf _ hfa).
  set (pA := DDS.adjAwayOf _).
  destruct (sampleDrives_score U pH (Z.to_nat hdz) 0%Z k) as [(a & b & Hs & Hab) Hk].
  destruct (DDS.sampleDrives U pH (Z.to_nat hdz) 0 k) as [hs k1]; cbn [fst snd] in Hs, Hk.
  destruct (sampleDrives_score U pA (Z.to_nat adz) 0%Z k1) as [(a' & b' & Hs' & Hab') Hk'].
  destruct (DDS.sampleDrives U pA (Z.to_nat adz) 0 k1) as [as_ k2]; cbn [fst snd] in Hs', Hk'.
  cbn [fst snd DDS.hs DDS.as_ DDS.debug DDS.dbg_homeDrives DDS.dbg_awayDrives].
  split; [exists a, b; split; [lia | exact Hab] |].
  split; [exists a', b'; split; [lia | exact Hab'] |].
  repeat split; lia.
Qed.

(** X1: every score [simulateOne] returns is a sum of field goals and
    touchdowns, [3 a + 7 b] with [a + b] at most the side's drive count,
    hence within [0, 7 * drives]; and a game consumes exactly one random
    draw per drive, home drives first. *)
Theorem simulateOne_scores (exp : Q -> Q) (U : nat -> Q) (home away : TeamStats)
    (netsHome netsAway : DDS.Nets) (gameDrives posShare hfa : Q) (k : nat) :
  let out := DDS.simulateOne exp U home away netsHome netsAway gameDrives posShare hfa k in
  let hd := Z.to_nat (DDS.dbg_homeDrives (DDS.debug (fst out))) in
  let ad := Z.to_nat (DDS.dbg_awayDrives (DDS.debug (fst out))) in
  (exists a b : nat, DDS.hs (fst out) = (3 * Z.of_nat a + 7 * Z.of_nat b)%Z
                     /\ (a + b <= hd)%nat)
  /\ (exists a b : nat, DDS.as_ (fst out) = (3 * Z.of_nat a + 7 * Z.of_nat b)%Z
                        /\ (a + b <= ad)%nat)
  /\ (0 <= DDS.hs (fst out) <= 7 * Z.of_nat hd)%Z
  /\ (0 <= DDS.as_ (fst out) <= 7 * Z.of_nat ad)%Z
  /\ snd out = (k + hd + ad)%nat.
Proof.
  exact (simulateOne_outcome exp U home away netsHome netsAway gameDrives posShare hfa k).
Qed.

(** ** Drive allocation in the discrete engine *)

Lemma Qfloor_unique (x : Q) (n : Z) :
  inject_Z n <= x -> x < inject_Z (n + 1) -> Qfloor x = n.
Proof.
  intros Hlo Hhi.
  pose proof (Qfloor_le x) as H1.
  pose proof (Qlt_floor x) as H2.
  assert (A : (n < Qfloor x + 1)%Z).
  { rewrite Zlt_Qlt. apply Qle_lt_trans with x; assumption. }
  assert (B : (Qfloor x < n + 1)%Z).
  { rewrite Zlt_Qlt. apply Qle_lt_trans with x; assumption. }
  lia.
Qed.

Lemma Qfloor_bounds (x : Q) :
  inject_Z (Qfloor x) <= x /\ x < inject_Z (Qfloor x) + 1.
Proof.
  split; [apply Qfloor_le |].
  pose proof (Qlt_floor x) as H; rewrite inject_Z_plus in H; exact H.
Qed.

(** [Math.round] commutes with subtracting an integer. *)
Lemma round_minus_int (x : Q) (n : Z) :
  JS.round (x - inject_Z n) = (JS.round x - n)%Z.
Proof.
  unfold JS.round.
  destruct (Qfloor_bounds (x + 0.5)) as [Hlo Hhi].
  apply Qfloor_unique.
  - unfold Zminus; rewrite inject_Z_plus, inject_Z_opp.
    generalize dependent (inject_Z (Qfloor (x + 0.5))); intros f Hlo Hhi.
    generalize (inject_Z n); intros m; lra.
  - replace (Qfloor (x + 0.5) - n + 1)%Z with (Qfloor (x + 0.5) + 1 + - n)%Z by lia.
    rewrite !inject_Z_plus, inject_Z_opp.
    generalize dependent (inject_Z (Qfloor (x + 0.5))); intros f Hlo Hhi.
    generalize (inject_Z n); intros m.
    change (inject_Z 1) with 1; lra.
Qed.

Lemma round_lower (x : Q) (n : Z) : inject_Z n <= x -> (n <= JS.round x)%Z.
Proof.
  intros H; unfold JS.round.
  destruct (Qfloor_bounds (x + 0.5)) as [_ Hhi].
  assert (A : (n < Qfloor (x + 0.5) + 1)%Z).
  { rewrite Zlt_Qlt, inject_Z_plus. change (inject_Z 1) with 1.
    generalize dependent (inject_Z (Qfloor (x + 0.5))); intros f Hhi.
    generalize dependent (inject_Z n); intros m H; lra. }
  lia.
Qed.

Lemma round_lower_half (x : Q) (n : Z) : inject_Z n - 0.5 <= x -> (n <= JS.round x)%Z.
Proof.
  intros H; unfold JS.round.
  destruct (Qfloor_bounds (x + 0.5)) as [_ Hhi].
  assert (A : (n < Qfloor (x + 0.5) + 1)%Z).
  { rewrite Zlt_Qlt, inject_Z_plus. change (inject_Z 1) with 1.
    generalize dependent (inject_Z (Qfloor (x + 0.5))); intros f Hhi.
    generalize dependent (inject_Z n); intros m H; lra. }
  lia.
Qed.

Lemma round_upper (x : Q) (n : Z) : x < inject_Z n + 0.5 -> (JS.round x <= n)%Z.
Proof.
  intros H; unfold JS.round.
  destruct (Qfloor_bounds (x + 0.5)) as [Hlo _].
  assert (A : (Qfloor (x + 0.5) < n + 1)%Z).
  { rewrite Zlt_Qlt, inject_Z_plus. change (inject_Z 1) with 1.
    generalize dependent (inject_Z (Qfloor (x + 0.5))); intros f Hlo.
    generalize dependent (inject_Z n); intros m H; lra. }
  lia.
Qed.

Lemma round_upper_le (x : Q) (n : Z) : x <= inject_Z n - 0.5 -> (JS.round x <= n)%Z.
Proof.
  intros H.
  assert (H' : x < inject_Z n + 0.5) by (generalize dependent (inject_Z n); intros; lra).
  exact (round_upper x n H').
Qed.

Lemma drive_split_bands (gameDrives posShare : Q) :
  20 <= gameDrives <= 30 -> 0.35 <= posShare <= 0.65 ->
  (7 <= JS.round (gameDrives * posShare) <= 20)%Z
  /\ (7 <= JS.round (gameDrives - inject_Z (JS.round (gameDrives * posShare))) <= 20)%Z.
Proof.
  intros [Hg0 Hg1] [Hp0 Hp1].
  split.
  - split.
    + apply round_lower. change (inject_Z 7) with 7. nra.
    + apply round_upper_le. change (inject_Z 20) with 20. nra.
  - destruct (Qfloor_bounds (gameDrives * posShare + 0.5)) as [Hlo Hhi].
    fold (JS.round (gameDrives * posShare)) in Hlo, Hhi.
    split.
    + apply round_lower_half. change (inject_Z 7) with 7.
      generalize dependent (inject_Z (JS.round (gameDrives * posShare)));
        intros f Hlo Hhi; nra.
    + apply round_upper. change (inject_Z 20) with 20.
      generalize dependent (inject_Z (JS.round (gameDrives * posShare)));
        intros f Hlo Hhi; nra.
Qed.

Lemma simulateOne_debug_drives (exp : Q -> Q) (U : nat -> Q) (home away : TeamStats)
    (netsHome netsAway : DDS.Nets) (gameDrives posShare hfa : Q) (k : nat) :
  let d := DDS.debug (fst (DDS.simulateOne exp U home away netsHome netsAway
                             gameDrives posShare hfa k)) in
  DDS.dbg_homeDrives d = JS.round (gameDrives * posShare)
  /\ DDS.dbg_awayDrives d
     = JS.round (gameDrives - inject_Z (JS.round (gameDrives * posShare))).
Proof.
  unfold DDS.simulateOne.
  destruct (DDS.sampleDrives U _ _ 0 k) as [hs k1].
  destruct (DDS.sampleDrives U _ _ 0 k1) as [as_ k2].
  split; reflexivity.
Qed.

Lemma simulateOne_split :
  (forall (exp : Q -> Q) (U : nat -> Q) (home away : TeamStats)
          (netsHome netsAway : DDS.Nets) (gameDrives posShare hfa : Q) (k : nat),
      let d := DDS.debug (fst (DDS.simulateOne exp U home away netsHome netsAway
                                 gameDrives posShare hfa k)) in
      (DDS.dbg_homeDrives d + DDS.dbg_awayDrives d = JS.round gameDrives)%Z)
  /\ (forall (exp : Q -> Q) (U : nat -> Q) (home away : TeamStats)
             (netsHome netsAway : DDS.Nets) (hfa : Q) (k : nat),
      let pace := DDS.computePace home away netsHome in
      let d := DDS.debug (fst (DDS.simulateOne exp U home away netsHome netsAway
                                 (DDS.gameDrives pace) (DDS.posShare pace) hfa k)) in
      (7 <= DDS.dbg_homeDrives d <= 20)%Z /\ (7 <= DDS.dbg_awayDrives d <= 20)%Z).
Proof.
  split.
  - intros exp U home away netsHome netsAway gameDrives posShare hfa k d.
    destruct (simulateOne_debug_drives exp U home away netsHome netsAway
                gameDrives posShare hfa k) as [Hh Ha].
    fold d in Hh, Ha; rewrite Hh, Ha, round_minus_int; lia.
  - intros exp U home away netsHome netsAway hfa k pace d.
    destruct (simulateOne_debug_drives exp U home away netsHome netsAway
                (DDS.gameDrives pace) (DDS.posShare pace) hfa k) as [Hh Ha].
    fold d in Hh, Ha; rewrite Hh, Ha.
    destruct (DDS_pace_bands home away netsHome) as [Hp Hg].
    fold pace in Hp, Hg.
    apply drive_split_bands; assumption.
Qed.


(** ** The HFA tilt and the renormalization *)

Lemma clamp01_cases (x : Q) :
  (x <= 0 /\ DDS.clamp01 x == 0) \/ (0 <= x <= 1 /\ DDS.clamp01 x == x)
  \/ (1 <= x /\ DDS.clamp01 x == 1).
Proof.
  unfold DDS.clamp01.
  destruct (Q.min_spec 1 x) as [[H1 E1] | [H1 E1]];
    destruct (Q.max_spec 0 (Qmin 1 x)) as [[H2 E2] | [H2 E2]];
    rewrite E1 in *; rewrite E2.
  - right; right; split; lra.
  - lra.
  - right; left; split; [lra | reflexivity].
  - left; split; [lra | reflexivity].
Qed.

(** Components of a renormalized table: unchanged when the sum is at most
    1, divided by the sum otherwise. *)
Lemma renorm_cases (p : DDS.DriveP) :
  (sum3 p <= 1
   /\ DDS.d3O (DDS.renorm p) == DDS.d3O p
   /\ DDS.dTD (DDS.renorm p) == DDS.dTD p
   /\ DDS.dFG (DDS.renorm p) == DDS.dFG p)
  \/ (1 < sum3 p
      /\ DDS.d3O (DDS.renorm p) * sum3 p == DDS.d3O p
      /\ DDS.dTD (DDS.renorm p) * sum3 p == DDS.dTD p
      /\ DDS.dFG (DDS.renorm p) * sum3 p == DDS.dFG p).
Proof.
  destruct p as [a b c]; unfold DDS.renorm, sum3; cbn [DDS.d3O DDS.dTD DDS.dFG].
  destruct (JS.lt 1 (a + b + c)) eqn:E.
  - apply lt_true in E; right.
    repeat split; try exact E; field; lra.
  - apply lt_false in E; left.
    repeat split; try exact E; ring.
Qed.

(** X3: the away side's renormalization never changes anything: the three
    probabilities [driveProbs] returns already sum to at most 1. *)
Theorem adjAway_is_base (exp : Q -> Q) (off def : TeamStats) (nets : DDS.Nets) :
  let base := DDS.driveProbs exp off def nets in
  DDS.d3O (DDS.adjAwayOf base) == DDS.p3O base
  /\ DDS.dTD (DDS.adjAwayOf base) == DDS.pTD base
  /\ DDS.dFG (DDS.adjAwayOf base) == DDS.pFG base
  /\ DDS.residual (DDS.adjAwayOf base) == DDS.pEmpty base.
Proof.
  intros base.
  destruct (driveProbs_conserved exp off def nets) as (_ & _ & _ & _ & Hs & Hs4).
  fold base in Hs, Hs4.
  unfold DDS.adjAwayOf.
  destruct (renorm_cases (DDS.mkDriveP (DDS.p3O base) (DDS.pTD base) (DDS.pFG base)))
    as [(_ & E1 & E2 & E3) | (Hgt & _)];
    unfold sum3 in *; cbn [DDS.d3O DDS.dTD DDS.dFG] in *.
  - unfold DDS.residual.
    revert E1 E2 E3 Hs4.
    generalize (DDS.d3O (DDS.renorm (DDS.mkDriveP (DDS.p3O base) (DDS.pTD base) (DDS.pFG base)))),
      (DDS.dTD (DDS.renorm (DDS.mkDriveP (DDS.p3O base) (DDS.pTD base) (DDS.pFG base)))),
      (DDS.dFG (DDS.renorm (DDS.mkDriveP (DDS.p3O base) (DDS.pTD base) (DDS.pFG base)))),
      (DDS.p3O base), (DDS.pTD base), (DDS.pFG base), (DDS.pEmpty base).
    intros; repeat split; lra.
  - exfalso; revert Hs Hgt.
    generalize (DDS.p3O base), (DDS.pTD base), (DDS.pFG base); intros; lra.
Qed.

(** X4: whatever the HFA value, the home table has a three-and-out
    probability no higher, a touchdown probability no lower and a
    field-goal probability no higher than the untilted ones. *)
Theorem adjHome_direction (exp : Q -> Q) (off def : TeamStats) (nets : DDS.Nets) (hfa : Q) :
  let base := DDS.driveProbs exp off def nets in
  let adj := DDS.adjHomeOf base hfa in
  DDS.d3O adj <= DDS.p3O base
  /\ DDS.pTD base <= DDS.dTD adj
  /\ DDS.dFG adj <= DDS.pFG base.
Proof.
  intros base adj.
  destruct (driveProbs_conserved exp off def nets)
    as ([HA0 HA1] & [HT0 HT1] & [HF0 HF1] & _ & Hs & _).
  fold base in HA0, HA1, HT0, HT1, HF0, HF1, Hs.
  unfold adj, DDS.adjHomeOf.
  set (tl := DDS.tiltHome base hfa).
  assert (Hm : 0 <= Qmax 0 hfa) by apply Q.le_max_l.
  assert (Ha : 0 <= DDS.d3O tl <= DDS.p3O base).
  { unfold tl, DDS.tiltHome; cbn [DDS.d3O].
    destruct (clamp01_cases (DDS.p3O base * (1 - 0.01 * Qmax 0 hfa)))
      as [[H E] | [[H E] | [H E]]]; rewrite E; split; try lra; nra. }
  assert (Ht : DDS.pTD base <= DDS.dTD tl <= 1).
  { unfold tl, DDS.tiltHome; cbn [DDS.dTD].
    destruct (clamp01_cases (DDS.pTD base * (1 + 0.02 * Qmax 0 hfa)))
      as [[H E] | [[H E] | [H E]]]; rewrite E; split; try lra; nra. }
  assert (Hf : DDS.dFG tl = DDS.pFG base) by reflexivity.
  destruct (renorm_cases tl) as [(_ & E1 & E2 & E3) | (Hgt & E1 & E2 & E3)];
    unfold sum3 in *; rewrite Hf in *.
  - rewrite E1, E2, E3; repeat split; lra.
  - revert Ha Ht Hgt E1 E2 E3 HA0 HA1 HT0 HT1 HF0 HF1 Hs.
    generalize (DDS.d3O (DDS.renorm tl)), (DDS.dTD (DDS.renorm tl)),
      (DDS.dFG (DDS.renorm tl)), (DDS.d3O tl), (DDS.dTD tl),
      (DDS.p3O base), (DDS.pTD base), (DDS.pFG base).
    intros x y w a t A T F [Ha0 Ha1] [Ht0 Ht1] Hgt E1 E2 E3 HA0 HA1 HT0 HT1 HF0 HF1 Hs.
    assert (Hx : 0 <= x) by nra.
    assert (Hw : 0 <= w) by nra.
    assert (Hy : 0 <= y) by nra.
    repeat split.
    + nra.
    + assert (K : T * (a + t + F) <= t) by nra.
      nra.
    + nra.
Qed.

(** ** Runs of the discrete engine *)

Lemma sum_acc (l : list Z) (a : Z) : fold_left Z.add l a = (a + sum l)%Z.
Proof.
  unfold sum; revert a; induction l as [| x l IH]; intros a; cbn [fold_left].
  - lia.
  - rewrite IH, (IH (0 + x)%Z); lia.
Qed.



Lemma games_Forall (exp : Q -> Q) (U : nat -> Q) (H A : TeamStats)
    (netsHome netsAway : DDS.Nets) (pace : DDS.Pace) (hfa : Q) (P : DDS.Game -> Prop) :
  (forall k, P (fst (DDS.simulateOne exp U H A netsHome netsAway (DDS.gameDrives pace)
                       (DDS.posShare pace) (Qmax 0 (JS.or_else hfa 0)) k))) ->
  forall n k, Forall P (games exp U H A netsHome netsAway pace hfa n k).
Proof.
  intros HP; induction n as [| n IH]; intros k; cbn [games]; [constructor |].
  specialize (HP k).
  destruct (DDS.simulateOne exp U H A netsHome netsAway (DDS.gameDrives pace)
              (DDS.posShare pace) (Qmax 0 (JS.or_else hfa 0)) k) as [g k'].
  constructor; [exact HP | apply IH].
Qed.


(** X6: every total a run of the discrete engine records lies between 0
    and 210 (seven points on each of at most 30 drives) and every margin
    between -140 and 140 (at most 20 drives a side). *)
Theorem DDS_recorded_values_bounded (exp : Q -> Q) (U : nat -> Q) (H A : TeamStats)
    (s : DDS.Session) (k : nat) :
  let t := DDS_trials exp U H A s k in
  Forall (fun x => (0 <= x <= 210)%Z) (DDS.totals t)
  /\ Forall (fun x => (-140 <= x <= 140)%Z) (DDS.spreads t).
Proof.
  intros t.
  set (nH := DDS.buildNets H A); set (nA := DDS.buildNets A H).
  set (pace := DDS.computePace H A nH).
  assert (HP : forall k0,
             let g := fst (DDS.simulateOne exp U H A nH nA (DDS.gameDrives pace)
                             (DDS.posShare pace) (Qmax 0 (JS.or_else (DDS.hfaPoints s) 0)) k0) in
             (0 <= DDS.hs g <= 140)%Z /\ (0 <= DDS.as_ g <= 140)%Z
             /\ (DDS.hs g + DDS.as_ g <= 210)%Z).
  { intros k0 g.
    pose proof (simulateOne_outcome exp U H A nH nA (DDS.gameDrives pace) (DDS.posShare pace)
                  (Qmax 0 (JS.or_else (DDS.hfaPoints s) 0)) k0) as Hsc.
    cbv zeta in Hsc; fold g in Hsc.
    destruct Hsc as (_ & _ & Hh & Ha & _).
    destruct simulateOne_split as [Hsum Hb].
    pose proof (Hsum exp U H A nH nA (DDS.gameDrives pace) (DDS.posShare pace)
                  (Qmax 0 (JS.or_else (DDS.hfaPoints s) 0)) k0) as Hsum'.
    pose proof (Hb exp U H A nH nA (Qmax 0 (JS.or_else (DDS.hfaPoints s) 0)) k0) as Hb'.
    cbv zeta in Hsum', Hb'; fold pace in Hb'; fold g in Hsum', Hb'.
    destruct (DDS_pace_bands H A nH) as [_ [Hg0 Hg1]]; fold pace in Hg0, Hg1.
    assert (Hr : (JS.round (DDS.gameDrives pace) <= 30)%Z).
    { apply round_upper. change (inject_Z 30) with 30. lra. }
    destruct Hb' as [[? ?] [? ?]].
    rewrite !Z2Nat.id in Hh, Ha by lia.
    lia. }
  unfold t, DDS_trials; fold nH nA pace.
  destruct (DDS_trialLoop_arrays exp U H A nH nA pace (DDS.hfaPoints s)
              (Z.to_nat (DDS.trialCount (DDS.numSim s)))
              (DDS.mkTrials [] [] 0%Z 0%Z None k)) as (Ht & Hs & _).
  rewrite Ht, Hs; cbn [DDS.totals DDS.spreads DDS.rng app].
  pose proof (games_Forall exp U H A nH nA pace (DDS.hfaPoints s)
                (fun g => (0 <= DDS.hs g <= 140)%Z /\ (0 <= DDS.as_ g <= 140)%Z
                          /\ (DDS.hs g + DDS.as_ g <= 210)%Z) HP
                (Z.to_nat (DDS.trialCount (DDS.numSim s))) k) as HF.
  split; apply Forall_map; eapply Forall_impl; try exact HF;
    intros g (Hh & Ha & Hs'); unfold total_of, margin_of; lia.
Qed.

(** ** Percentiles, median and mean *)

Lemma sortNum_strongly_sorted (arr : list Z) : StronglySorted Z.le (sortNum arr).
Proof.
  apply Sorted_StronglySorted; [| apply sortNum_sorted].
  intros x y z; apply Z.le_trans.
Qed.

Lemma StronglySorted_nth (l : list Z) :
  StronglySorted Z.le l ->
  forall i j, (i <= j)%nat -> (j < List.length l)%nat ->
              (nth i l 0%Z <= nth j l 0%Z)%Z.
Proof.
  induction 1 as [| a l Hs IH Hall]; intros i j Hij Hj; cbn [List.length] in Hj; [lia |].
  destruct i as [| i], j as [| j]; cbn [nth]; try lia.
  - rewrite Forall_forall in Hall; apply Hall, nth_In; lia.
  - apply IH; lia.
Qed.

Lemma sorted_nth_le (arr : list Z) (i j : nat) :
  (i <= j)%nat -> (j < List.length arr)%nat ->
  (nth i (sortNum arr) 0%Z <= nth j (sortNum arr) 0%Z)%Z.
Proof.
  intros Hij Hj; apply StronglySorted_nth;
    [apply sortNum_strongly_sorted | exact Hij | rewrite sortNum_length; exact Hj].
Qed.

Lemma floor_mono (x y : Q) : x <= y -> (JS.floor x <= JS.floor y)%Z.
Proof. apply Qfloor_resp_le. Qed.

Lemma inject_Z_nonneg (n : Z) : (0 <= n)%Z -> 0 <= inject_Z n.
Proof. intros H; change 0 with (inject_Z 0); rewrite <- Zle_Qle; exact H. Qed.

Lemma pct_idx_mono (n : Z) (p q : Q) :
  (1 <= n)%Z -> p <= q -> (pct_idx n p <= pct_idx n q)%nat.
Proof.
  intros Hn Hpq; unfold pct_idx.
  assert (H : (JS.floor (inject_Z (n - 1) * p) <= JS.floor (inject_Z (n - 1) * q))%Z).
  { apply floor_mono.
    pose proof (inject_Z_nonneg (n - 1) ltac:(lia)) as Hq.
    generalize dependent (inject_Z (n - 1)); intros m Hm; nra. }
  lia.
Qed.

Lemma percentile_idx_mono (n : Z) (p q : Q) :
  (1 <= n)%Z -> p <= q -> (percentile_idx n p <= percentile_idx n q)%nat.
Proof.
  intros Hn Hpq; unfold percentile_idx.
  assert (H : (JS.floor (inject_Z n * p) <= JS.floor (inject_Z n * q))%Z).
  { apply floor_mono.
    pose proof (inject_Z_nonneg n ltac:(lia)) as Hq.
    generalize dependent (inject_Z n); intros m Hm; nra. }
  lia.
Qed.

Lemma pct_as_nth (arr : list Z) (p : Q) :
  DDS.pct arr p = nth (pct_idx (len arr) p) (sortNum arr) 0%Z.
Proof. unfold DDS.pct, pct_idx, len; rewrite sortNum_length; reflexivity. Qed.

Lemma percentile_as_nth (arr : list Z) (p : Q) :
  GaussFixed.percentile arr p = nth (percentile_idx (len arr) p) (sortNum arr) 0%Z.
Proof.
  unfold GaussFixed.percentile, percentile_idx, len; rewrite sortNum_length; reflexivity.
Qed.

Lemma idx_in_range (arr : list Z) (p : Q) :
  arr <> [] ->
  (pct_idx (len arr) p < List.length arr)%nat
  /\ (percentile_idx (len arr) p < List.length arr)%nat.
Proof.
  intros Hne; unfold pct_idx, percentile_idx, len.
  destruct arr as [| x l]; [contradiction |]; cbn [List.length]; lia.
Qed.

(** X7: both percentile functions are monotone in [p], for every array
    and every pair [p <= q] (also outside [0, 1], thanks to the index
    clamp): the reported ladder p10 <= p25 <= p50 <= p75 <= p90 is
    always in order. *)
Theorem percentiles_monotone (arr : list Z) (p q : Q) :
  p <= q ->
  (DDS.pct arr p <= DDS.pct arr q)%Z
  /\ (GaussFixed.percentile arr p <= GaussFixed.percentile arr q)%Z.
Proof.
  intros Hpq.
  rewrite !pct_as_nth, !percentile_as_nth.
  destruct arr as [| x l].
  - change (sortNum []) with (@nil Z).
    rewrite !nth_overflow by (cbn [List.length]; lia); lia.
  - assert (Hne : x :: l <> []) by discriminate.
    assert (Hn : (1 <= len (x :: l))%Z) by (unfold len; cbn [List.length]; lia).
    destruct (idx_in_range (x :: l) q Hne) as [H1 H2].
    split; apply sorted_nth_le; auto.
    + apply pct_idx_mono; assumption.
    + apply percentile_idx_mono; assumption.
Qed.

Lemma percentiles_monotone_witness :
  (DDS.pct fixedTotals 0.25 <= DDS.pct fixedTotals 0.75)%Z.
Proof.
  refine (proj1 (percentiles_monotone fixedTotals 0.25 0.75 _)).
  vm_compute; discriminate.
Defined.

(** X8: for a non-empty array both percentile functions return one of its
    elements, for every [p] whatsoever: the index is clamped into the
    array. *)
Theorem percentiles_are_elements (arr : list Z) (p : Q) :
  arr <> [] ->
  In (DDS.pct arr p) arr /\ In (GaussFixed.percentile arr p) arr.
Proof.
  intros Hne.
  destruct (idx_in_range arr p Hne) as [H1 H2].
  rewrite pct_as_nth, percentile_as_nth.
  split; apply (Permutation_in _ (Permutation_sym (sortNum_perm arr)));
    apply nth_In; rewrite sortNum_length; assumption.
Qed.

Lemma percentiles_are_elements_witness :
  In (DDS.pct fixedTotals 7) fixedTotals.
Proof.
  refine (proj1 (percentiles_are_elements fixedTotals 7 _)).
  discriminate.
Defined.

Lemma floor_half (z : Z) : JS.floor (inject_Z z * 0.50) = (z / 2)%Z.
Proof.
  unfold JS.floor, Qfloor, Qmult, inject_Z; cbn [Qnum Qden].
  change (Z.pos (1 * 100)) with (2 * 50)%Z.
  apply Z.div_mul_cancel_r; lia.
Qed.

Lemma nat_half (n m r : nat) : (n = 2 * m + r)%nat -> (r < 2)%nat -> (n / 2 = m)%nat.
Proof.
  intros -> Hr; apply Nat2Z.inj; rewrite Nat2Z.inj_div.
  rewrite Nat2Z.inj_add, Nat2Z.inj_mul; change (Z.of_nat 2) with 2%Z.
  assert (0 <= Z.of_nat r < 2)%Z by lia.
  assert (0 <= Z.of_nat m)%Z by lia.
  zdiv.
Qed.

Lemma pct_half_idx (n : nat) :
  (1 <= n)%nat -> pct_idx (Z.of_nat n) 0.50 = ((n - 1) / 2)%nat.
Proof.
  intros Hn; unfold pct_idx.
  rewrite floor_half.
  apply Nat2Z.inj; rewrite ?Nat2Z.inj_min, Nat2Z.inj_div, ?Nat2Z.inj_sub by lia.
  rewrite Z2Nat.id by zdiv.
  change (Z.of_nat 2) with 2%Z; change (Z.of_nat 1) with 1%Z; zdiv.
Qed.

Lemma percentile_half_idx (n : nat) :
  (1 <= n)%nat -> percentile_idx (Z.of_nat n) 0.50 = Nat.min (n / 2) (n - 1).
Proof.
  intros Hn; unfold percentile_idx.
  rewrite floor_half.
  apply Nat2Z.inj; rewrite ?Nat2Z.inj_min, Nat2Z.inj_div, ?Nat2Z.inj_sub by lia.
  rewrite Z2Nat.id by zdiv.
  change (Z.of_nat 2) with 2%Z; change (Z.of_nat 1) with 1%Z; zdiv.
Qed.

(** X9: for a non-empty array the median lies between the discrete
    engine's p50 (the lower central element) and the Gaussian rewrite's
    p50 (the upper central element); for an odd length all three are the
    central element. *)
Theorem median_between_p50s (arr : list Z) :
  arr <> [] ->
  inject_Z (DDS.pct arr 0.50) <= median arr
  /\ median arr <= inject_Z (GaussFixed.percentile arr 0.50)
  /\ (Nat.odd (List.length arr) = true ->
      median arr == inject_Z (DDS.pct arr 0.50)
      /\ DDS.pct arr 0.50 = GaussFixed.percentile arr 0.50).
Proof.
  intros Hne.
  assert (Hn : (1 <= List.length arr)%nat)
    by (destruct arr; [contradiction | cbn [List.length]; lia]).
  rewrite pct_as_nth, percentile_as_nth; unfold len.
  rewrite pct_half_idx, percentile_half_idx by exact Hn.
  set (n := List.length arr) in *.
  destruct (Nat.odd n) eqn:Ho.
  - pose proof (median_odd arr Ho) as Hm; fold n in Hm.
    apply Nat.odd_spec in Ho; destruct Ho as [m Hm2].
    assert (E1 : ((n - 1) / 2 = m)%nat) by (apply (nat_half _ m 0); lia).
    assert (E3 : (n / 2 = m)%nat) by (apply (nat_half _ m 1); lia).
    assert (E2 : (Nat.min (n / 2) (n - 1) = m)%nat) by (rewrite E3; lia).
    rewrite E1, E2; rewrite E3 in Hm.
    repeat split; try (rewrite Hm; apply Qle_refl); auto.
  - assert (He : Nat.even n = true) by (rewrite <- Nat.negb_odd, Ho; reflexivity).
    pose proof (median_even arr He) as Hm; fold n in Hm.
    apply Nat.even_spec in He; destruct He as [m Hm2].
    assert (E1 : ((n - 1) / 2 = m - 1)%nat) by (apply (nat_half _ (m - 1) 1); lia).
    assert (E3 : (n / 2 = m)%nat) by (apply (nat_half _ m 0); lia).
    assert (E2 : (Nat.min (n / 2) (n - 1) = m)%nat) by (rewrite E3; lia).
    rewrite E1, E2; rewrite E3 in Hm.
    assert (Hle : (nth (m - 1) (sortNum arr) 0%Z <= nth m (sortNum arr) 0%Z)%Z)
      by (apply sorted_nth_le; fold n; lia).
    rewrite Zle_Qle in Hle.
    revert Hm Hle.
    generalize (inject_Z (nth (m - 1) (sortNum arr) 0%Z)),
      (inject_Z (nth m (sortNum arr) 0%Z)), (median arr).
    intros a b c Hm Hle.
    assert (E : c == (a + b) * (1 # 2)) by (rewrite Hm; field).
    split; [lra | split; [lra | intros Hf; discriminate Hf]].
Qed.

Lemma median_between_p50s_witness :
  inject_Z (DDS.pct [38; 41; 45; 50]%Z 0.50) <= median [38; 41; 45; 50]%Z.
Proof.
  refine (proj1 (median_between_p50s [38; 41; 45; 50]%Z _)).
  discriminate.
Defined.

(** The sum of an array lies between length times its smallest and length
    times its largest element. *)
Lemma sum_bounds (l : list Z) (lo hi : Z) :
  Forall (fun x => (lo <= x <= hi)%Z) l ->
  (Z.of_nat (List.length l) * lo <= sum l <= Z.of_nat (List.length l) * hi)%Z.
Proof.
  induction 1 as [| x l Hx Hl IH].
  - cbn; lia.
  - unfold sum in *; cbn [fold_left List.length].
    rewrite sum_acc; unfold sum; lia.
Qed.

Lemma sum_perm (l l' : list Z) : Permutation l l' -> sum l = sum l'.
Proof.
  induction 1 as [| x l l' HP IH | x y l | l l' l'' H1 IH1 H2 IH2].
  - reflexivity.
  - unfold sum in *; cbn [fold_left]; rewrite !sum_acc; unfold sum; lia.
  - unfold sum; cbn [fold_left]; rewrite !sum_acc; lia.
  - congruence.
Qed.

(** For a non-empty array the mean lies between the smallest element,
    which is [pct arr 0], and the largest, which is [pct arr 1]. *)
Lemma mean_between_extremes (arr : list Z) :
  arr <> [] ->
  inject_Z (DDS.pct arr 0) <= mean arr <= inject_Z (DDS.pct arr 1)
  /\ Forall (fun x => (DDS.pct arr 0 <= x <= DDS.pct arr 1)%Z) arr.
Proof.
  intros Hne.
  assert (Hn : (1 <= List.length arr)%nat)
    by (destruct arr; [contradiction | cbn [List.length]; lia]).
  rewrite !pct_as_nth.
  assert (E0 : pct_idx (len arr) 0 = O).
  { unfold pct_idx. rewrite Qmult_0_r. change (JS.floor 0) with 0%Z. unfold len; lia. }
  assert (E1 : pct_idx (len arr) 1 = (List.length arr - 1)%nat).
  { unfold pct_idx. rewrite Qmult_1_r. unfold JS.floor; rewrite Qfloor_Z. unfold len; lia. }
  rewrite E0, E1.
  assert (HF : Forall (fun x => (nth 0 (sortNum arr) 0%Z <= x
                                 <= nth (List.length arr - 1) (sortNum arr) 0%Z)%Z)
                      (sortNum arr)).
  { apply Forall_forall; intros x Hx.
    destruct (In_nth _ _ 0%Z Hx) as (i & Hi & <-).
    rewrite sortNum_length in Hi.
    split; apply sorted_nth_le; lia. }
  assert (HF' : Forall (fun x => (nth 0 (sortNum arr) 0%Z <= x
                                  <= nth (List.length arr - 1) (sortNum arr) 0%Z)%Z) arr).
  { apply Forall_forall; intros x Hx.
    rewrite Forall_forall in HF; apply HF.
    apply (Permutation_in _ (sortNum_perm arr)); exact Hx. }
  split; [| exact HF'].
  pose proof (sum_bounds arr _ _ HF') as [Hlo Hhi].
  unfold mean, len.
  rewrite Zle_Qle, inject_Z_mult in Hlo, Hhi.
  assert (Hnq : 0 < inject_Z (Z.of_nat (List.length arr))).
  { change 0 with (inject_Z 0); rewrite <- Zlt_Qlt; lia. }
  revert Hlo Hhi Hnq.
  generalize (inject_Z (Z.of_nat (List.length arr))), (inject_Z (sum arr)),
    (inject_Z (nth 0 (sortNum arr) 0%Z)),
    (inject_Z (nth (List.length arr - 1) (sortNum arr) 0%Z)).
  intros n s lo hi Hlo Hhi Hn'.
  split.
  - apply Qle_shift_div_l; [exact Hn' | lra].
  - apply Qle_shift_div_r; [exact Hn' | lra].
Qed.

(** ** Over, under and push *)





(** ** Projections of the Gaussian engines *)









(** ** The sampling loop of the Gaussian rewrite *)






(** ** Net signals *)




(** ** The calibrated v4 engine: odds, decision layer *)

Lemma Qle_bool_false (a b : Q) : Qle_bool a b = false -> b < a.
Proof.
  intros H. apply Qnot_le_lt. intros Hle.
  apply Qle_bool_iff in Hle. congruence.
Qed.

(** X15: [toAmericanOdds] never quotes a price strictly between -100 and
    +100.  A probability of at least one half (and below one) gets a
    whole-number price of -100 or lower, a probability below one half (and
    above zero) a whole-number price of +100 or higher; a probability of
    zero or less gives [Infinity], of one or more [-Infinity]. *)
Theorem toAmericanOdds_range (p : Q) :
  match V4Game.toAmericanOdds (JS.Fin p) with
  | JS.Fin q =>
      0 < p /\ p < 1
      /\ exists k : Z, q = inject_Z k
           /\ (0.5 <= p -> (k <= -100)%Z)
           /\ (p < 0.5 -> (100 <= k)%Z)
  | JS.PosInf => p <= 0
  | JS.NegInf => 1 <= p
  | JS.NaN => False
  end.
Proof.
  unfold V4Game.toAmericanOdds.
  destruct (Qle_bool p 0) eqn:E0; [apply Qle_bool_iff; exact E0 |].
  destruct (Qle_bool 1 p) eqn:E1; [apply Qle_bool_iff; exact E1 |].
  apply Qle_bool_false in E0. apply Qle_bool_false in E1.
  destruct (Qle_bool 0.5 p) eqn:Eh.
  - apply Qle_bool_iff in Eh.
    split; [exact E0 | split; [exact E1 |]].
    eexists; split; [reflexivity | split].
    + intros _.
      assert (H : inject_Z 100 <= p / (1 - p) * 100).
      { assert (Hr : 1 <= p / (1 - p)).
        { apply Qle_shift_div_l; lra. }
        change (inject_Z 100) with 100. lra. }
      apply (round_lower _ 100) in H. lia.
    + intros Hlt. lra.
  - apply Qle_bool_false in Eh.
    split; [exact E0 | split; [exact E1 |]].
    eexists; split; [reflexivity | split].
    + intros Hge. lra.
    + intros _.
      assert (H : inject_Z 100 <= (1 - p) / p * 100).
      { assert (Hr : 1 <= (1 - p) / p).
        { apply Qle_shift_div_l; lra. }
        change (inject_Z 100) with 100. lra. }
      apply (round_lower _ 100) in H. exact H.
Qed.

Lemma tierOf_cases (x : Q) :
  (V4Game.tierOf x = 1%Z /\ 60 <= x)
  \/ (V4Game.tierOf x = 2%Z /\ 57 <= x /\ x < 60)
  \/ (V4Game.tierOf x = 3%Z /\ 54 <= x /\ x < 57)
  \/ (V4Game.tierOf x = 0%Z /\ x < 54).
Proof.
  unfold V4Game.tierOf, V4Game.APPROVAL_THRESHOLD.
  destruct (Qle_bool 60 x) eqn:E1.
  { left. split; [reflexivity | apply Qle_bool_iff; exact E1]. }
  apply Qle_bool_false in E1.
  destruct (Qle_bool 57 x) eqn:E2.
  { right; left. apply Qle_bool_iff in E2. repeat split; assumption. }
  apply Qle_bool_false in E2.
  destruct (Qle_bool 54.0 x) eqn:E3.
  { right; right; left. apply Qle_bool_iff in E3. repeat split; try assumption. lra. }
  apply Qle_bool_false in E3.
  right; right; right. split; [reflexivity | lra].
Qed.

(** X16: the decision layer backs the side with the larger cover
    percentage (the away side on a tie), reports that percentage
    unchanged as raw and calibrated probability, and approves the bet
    exactly when it assigns a tier: tier 1 from 60, tier 2 from 57, tier 3
    from 54, tier 0 and no approval below 54.  The totals evaluation
    follows the same rule. *)
Theorem decision_layer_tiers (home away margin mkt over under modelTotal mktTotal absSpread : Q)
    (dome : bool) :
  let s := V4Game.evaluateSpreadBet home away margin mkt in
  let t := V4Game.evaluateTotalsBet over under modelTotal mktTotal absSpread dome in
  V4Game.sb_rawProb s == Qmax home away
  /\ V4Game.sb_calibratedProb s = V4Game.sb_rawProb s
  /\ (V4Game.sb_signal s = V4Game.HOME <-> away < home)
  /\ (V4Game.sb_approved s = true <-> V4Game.sb_tier s <> 0%Z)
  /\ (V4Game.sb_approved s = true <-> 54 <= Qmax home away)
  /\ V4Game.tb_rawProb t == Qmax over under
  /\ (V4Game.tb_signal t = V4Game.OVER <-> under < over)
  /\ (V4Game.tb_approved t = true <-> V4Game.tb_tier t <> 0%Z)
  /\ (V4Game.tb_approved t = true <-> 54 <= Qmax over under).
Proof.
  cbv zeta.
  unfold V4Game.evaluateSpreadBet, V4Game.evaluateTotalsBet.
  cbn [V4Game.sb_rawProb V4Game.sb_calibratedProb V4Game.sb_signal V4Game.sb_approved
       V4Game.sb_tier V4Game.tb_rawProb V4Game.tb_signal V4Game.tb_approved V4Game.tb_tier].
  assert (Side : forall a b : Q,
             let r := if JS.lt b a then a else b in
             r == Qmax a b /\ (JS.lt b a = true <-> b < a)).
  { intros a b; cbv zeta. unfold JS.lt.
    destruct (Qle_bool a b) eqn:E; cbn [negb].
    - apply Qle_bool_iff in E. split; [rewrite Q.max_r by exact E; reflexivity |].
      split; [discriminate | intros; lra].
    - apply Qle_bool_false in E. split; [rewrite Q.max_l by lra; reflexivity |].
      split; [intros; exact E | reflexivity]. }
  assert (Appr : forall x : Q,
             (Qle_bool V4Game.APPROVAL_THRESHOLD x = true <-> V4Game.tierOf x <> 0%Z)
             /\ (Qle_bool V4Game.APPROVAL_THRESHOLD x = true <-> 54 <= x)).
  { intros x. unfold V4Game.APPROVAL_THRESHOLD.
    split.
    - destruct (tierOf_cases x) as [[-> H] | [[-> H] | [[-> H] | [-> H]]]];
        (split; [intros Hq; try discriminate; apply Qle_bool_iff in Hq; try lra
                | intros Hn; try congruence; apply Qle_bool_iff; lra]).
    - rewrite Qle_bool_iff. split; intros; lra. }
  destruct (Side home away) as [Hs1 Hs2].
  destruct (Side over under) as [Ht1 Ht2].
  repeat split.
  - exact Hs1.
  - destruct (JS.lt away home); [intros _; apply Hs2; reflexivity | discriminate].
  - intros H. apply Hs2 in H. rewrite H. reflexivity.
  - apply (proj1 (Appr _)).
  - apply (proj1 (Appr _)).
  - intros H. apply (proj2 (Appr _)) in H. rewrite <- Hs1. exact H.
  - intros H. apply (proj2 (Appr _)). rewrite Hs1. exact H.
  - destruct (JS.lt under over); exact Ht1.
  - destruct (JS.lt under over); [intros _; apply Ht2; reflexivity | discriminate].
  - intros H. apply Ht2 in H. rewrite H. reflexivity.
  - apply (proj1 (Appr _)).
  - apply (proj1 (Appr _)).
  - destruct (JS.lt under over); intros H; apply (proj2 (Appr _)) in H;
      rewrite <- Ht1; exact H.
  - destruct (JS.lt under over); intros H; apply (proj2 (Appr _)); rewrite Ht1; exact H.
Qed.

(** ** The calibrated v4 engine: points per drive, drives, correlation,
    weather *)

Lemma v4_clamp_bounds (x a b : Q) : a <= b -> a <= V4Game.clamp x a b <= b.
Proof.
  intros Hab; unfold V4Game.clamp; split.
  - apply Q.le_max_l.
  - apply Q.max_lub; [exact Hab | apply Q.le_min_l].
Qed.




Lemma regressedPPD_linear (lgPPD c : Q) :
  V4Game.regressedPPD lgPPD c == lgPPD + 0.51 * c.
Proof.
  unfold V4Game.regressedPPD, V4Game.LAMBDA, V4Game.CER_TO_PPD_SCALE. ring.
Qed.



Lemma lt_iff (a b : Q) : JS.lt a b = true <-> a < b.
Proof.
  unfold JS.lt. destruct (Qle_bool b a) eqn:E; cbn [negb].
  - apply Qle_bool_iff in E. split; [discriminate | intros; lra].
  - apply Qle_bool_false in E. split; [intros; exact E | reflexivity].
Qed.

Lemma lt_cases (a b : Q) :
  (JS.lt a b = true /\ a < b) \/ (JS.lt a b = false /\ b <= a).
Proof.
  destruct (JS.lt a b) eqn:E.
  - left; split; [reflexivity | apply lt_iff; exact E].
  - right; split; [reflexivity |].
    destruct (Qlt_le_dec a b) as [H | H]; [| exact H].
    apply lt_iff in H; congruence.
Qed.




(** The correlation [calculateAdaptiveCorrelation] returns lies in
    [-0.05, 0.50], so the radicand [1 - rho * rho] the trial loop takes
    the square root of is at least 0.75. *)
Lemma adaptive_correlation_bounds (spread : Q) (isDome : bool) (windMPH : Q)
    (precip : V4Game.Precip) (hPR aPR hX aX hS aS : Q) :
  let rho := V4Game.calculateAdaptiveCorrelation spread isDome windMPH precip
               hPR aPR hX aX hS aS in
  - 0.05 <= rho <= 0.50 /\ 0.75 <= 1 - rho * rho.
Proof.
  cbv zeta.
  unfold V4Game.calculateAdaptiveCorrelation.
  match goal with
  | |- context [V4Game.clamp ?x _ _] => generalize x; intros r
  end.
  destruct (v4_clamp_bounds r (- 0.05) 0.50 ltac:(lra)) as [H1 H2].
  revert H1 H2; generalize (V4Game.clamp r (- 0.05) 0.50); intros rho H1 H2.
  split; [split; assumption | nra].
Qed.

(** X19: the weather adjustment of a dome game is the dome bonus 0.5
    whatever wind, temperature and precipitation are set to; outdoors
    the adjustment is never positive, and it is zero in calm, mild, dry
    conditions. *)
Theorem weather_adjustment_sign (s : V4Game.Settings) :
  (if V4Game.isDome s
   then V4Game.calculateWeatherAdjustment s == 0.5
   else V4Game.calculateWeatherAdjustment s <= 0)
  /\ (V4Game.isDome s = false -> V4Game.windMPH s <= 10 -> 25 <= V4Game.temperature s ->
      V4Game.precipitation s = V4Game.PrecipNone ->
      V4Game.calculateWeatherAdjustment s == 0).
Proof.
  unfold V4Game.calculateWeatherAdjustment.
  destruct (V4Game.isDome s).
  - split; [ring | discriminate].
  - assert (Hp : V4Game.precip_adjustment (V4Game.precipitation s) <= 0).
    { destruct (V4Game.precipitation s); vm_compute; discriminate. }
    split.
    + revert Hp; generalize (V4Game.precip_adjustment (V4Game.precipitation s)); intros p Hp.
      destruct (lt_cases 10 (V4Game.windMPH s)) as [[-> Hw] | [-> Hw]];
        destruct (lt_cases (V4Game.temperature s) 25) as [[-> Ht] | [-> Ht]];
        revert Hw; generalize (V4Game.windMPH s); intros w Hw; nra.
    + intros _ Hw Ht Hn. rewrite Hn.
      destruct (lt_cases 10 (V4Game.windMPH s)) as [[-> Hw'] | [-> Hw']]; [lra |].
      destruct (lt_cases (V4Game.temperature s) 25) as [[-> Ht'] | [-> Ht']]; [lra |].
      vm_compute; reflexivity.
Qed.

Lemma weather_adjustment_sign_witness :
  V4Game.calculateWeatherAdjustment
    (V4Game.mkSettings 44.5 23.5 21 (-3) (-3) 10000 false 0 70 V4Game.PrecipNone 0) == 0.
Proof.
  apply (proj2 (weather_adjustment_sign
                  (V4Game.mkSettings 44.5 23.5 21 (-3) (-3) 10000 false 0 70
                     V4Game.PrecipNone 0))).
  - reflexivity.
  - vm_compute; discriminate.
  - vm_compute; discriminate.
  - reflexivity.
Defined.





(** ** The calibrated v4 engine: the interpolating percentile *)

Lemma at_index_some (l : list Z) (i : Z) :
  (0 <= i < len l)%Z -> V4Game.at_index l i = Some (nth (Z.to_nat i) l 0%Z).
Proof.
  intros [H0 H1]; unfold V4Game.at_index, len in *.
  destruct (Z.ltb_spec i 0) as [H | _]; [lia |].
  apply nth_error_nth'. lia.
Qed.

Lemma at_index_nil (i : Z) : V4Game.at_index [] i = None.
Proof.
  unfold V4Game.at_index. destruct (i <? 0)%Z; [reflexivity |].
  destruct (Z.to_nat i); reflexivity.
Qed.

Lemma floor_ceiling_cases (t : Q) :
  (Qceiling t = Qfloor t /\ t == inject_Z (Qfloor t))
  \/ (Qceiling t = (Qfloor t + 1)%Z /\ inject_Z (Qfloor t) < t).
Proof.
  pose proof (Qfloor_le t) as H1.
  pose proof (Qlt_floor t) as H2.
  pose proof (Qle_ceiling t) as H3.
  pose proof (Qceiling_lt t) as H4.
  assert (A : (Qceiling t - 1 < Qfloor t + 1)%Z).
  { rewrite Zlt_Qlt. eapply Qlt_trans; eassumption. }
  assert (B : (Qfloor t <= Qceiling t)%Z).
  { rewrite Zle_Qle. eapply Qle_trans; eassumption. }
  destruct (Z.eq_dec (Qceiling t) (Qfloor t)) as [E | N].
  - left; split; [exact E |].
    rewrite E in H3. apply Qle_antisym; assumption.
  - right. assert (E : Qceiling t = (Qfloor t + 1)%Z) by lia.
    split; [exact E |].
    rewrite E in H4. replace (Qfloor t + 1 - 1)%Z with (Qfloor t) in H4 by lia.
    exact H4.
Qed.

(** The value [percentile] computes at the fractional index [t]. *)
Lemma interp_bounds (a b w : Q) :
  a <= b -> 0 <= w <= 1 -> a <= a * (1 - w) + b * w <= b.
Proof. intros Hab [H0 H1]; split; nra. Qed.

Lemma floor_in_range (t : Q) (n : Z) :
  0 <= t -> t <= inject_Z (n - 1) ->
  (0 <= Qfloor t)%Z /\ (Qfloor t <= Qceiling t)%Z /\ (Qceiling t <= n - 1)%Z.
Proof.
  intros H0 Hn.
  assert (F0 : (0 <= Qfloor t)%Z).
  { change 0%Z with (Qfloor 0). apply Qfloor_resp_le; exact H0. }
  assert (C1 : (Qceiling t <= n - 1)%Z).
  { rewrite <- (Qceiling_Z (n - 1)). apply Qceiling_resp_le; exact Hn. }
  destruct (floor_ceiling_cases t) as [[E _] | [E _]]; lia.
Qed.

Lemma scaled_index_range (p : Q) (n : Z) :
  (1 <= n)%Z -> 0 <= p <= 100 ->
  0 <= p / 100 * inject_Z (n - 1) <= inject_Z (n - 1).
Proof.
  intros Hn [H0 H1].
  assert (Hq : 0 <= inject_Z (n - 1)).
  { change 0 with (inject_Z 0). rewrite <- Zle_Qle. lia. }
  assert (E : p / 100 == p * (1 # 100)) by field.
  rewrite E. revert Hq; generalize (inject_Z (n - 1)); intros m Hq.
  split; nra.
Qed.

Lemma v4_percentile_value (arr : list Z) (p : Q) :
  arr <> [] -> 0 <= p <= 100 ->
  let s := sortNum arr in
  let t := p / 100 * inject_Z (len s - 1) in
  V4Game.percentile arr p
  = JS.Fin (inject_Z (nth (Z.to_nat (Qfloor t)) s 0%Z) * (1 - (t - inject_Z (Qfloor t)))
            + inject_Z (nth (Z.to_nat (Qceiling t)) s 0%Z) * (t - inject_Z (Qfloor t))).
Proof.
  intros Hne Hp; cbv zeta.
  unfold V4Game.percentile, JS.floor.
  assert (Hn : (1 <= len (sortNum arr))%Z).
  { unfold len; rewrite sortNum_length. destruct arr; [contradiction | cbn [List.length]; lia]. }
  destruct (scaled_index_range p (len (sortNum arr)) Hn Hp) as [T0 T1].
  destruct (floor_in_range _ _ T0 T1) as (F0 & FC & C1).
  rewrite !at_index_some by lia.
  reflexivity.
Qed.

Lemma interp_mono (s : list Z) (t1 t2 : Q) :
  StronglySorted Z.le s ->
  0 <= t1 -> t1 <= t2 -> t2 <= inject_Z (len s - 1) ->
  inject_Z (nth (Z.to_nat (Qfloor t1)) s 0%Z) * (1 - (t1 - inject_Z (Qfloor t1)))
  + inject_Z (nth (Z.to_nat (Qceiling t1)) s 0%Z) * (t1 - inject_Z (Qfloor t1))
  <= inject_Z (nth (Z.to_nat (Qfloor t2)) s 0%Z) * (1 - (t2 - inject_Z (Qfloor t2)))
     + inject_Z (nth (Z.to_nat (Qceiling t2)) s 0%Z) * (t2 - inject_Z (Qfloor t2)).
Proof.
  intros Hs H0 H12 Hn.
  assert (H1n : t1 <= inject_Z (len s - 1)) by lra.
  assert (H02 : 0 <= t2) by lra.
  destruct (floor_in_range t1 (len s) H0 H1n) as (F1 & FC1 & C1).
  destruct (floor_in_range t2 (len s) H02 Hn) as (F2 & FC2 & C2).
  assert (F12 : (Qfloor t1 <= Qfloor t2)%Z) by (apply Qfloor_resp_le; exact H12).
  assert (Nth : forall i j : Z, (0 <= i)%Z -> (i <= j)%Z -> (j <= len s - 1)%Z ->
                  inject_Z (nth (Z.to_nat i) s 0%Z) <= inject_Z (nth (Z.to_nat j) s 0%Z)).
  { intros i j Hi Hij Hj. rewrite <- Zle_Qle.
    apply StronglySorted_nth; [exact Hs | lia | unfold len in Hj; lia]. }
  pose proof (Qfloor_bounds t1) as [L1 U1].
  pose proof (Qfloor_bounds t2) as [L2 U2].
  pose proof (Nth _ _ F1 FC1 C1) as A1.
  pose proof (Nth _ _ F2 FC2 C2) as A2.
  destruct (Z_le_gt_dec (Qceiling t1) (Qfloor t2)) as [Hc | Hc].
  - pose proof (Nth (Qceiling t1) (Qfloor t2) ltac:(lia) Hc ltac:(lia)) as A3.
    pose proof (interp_bounds _ _ (t1 - inject_Z (Qfloor t1)) A1 ltac:(lra)) as [_ B1].
    pose proof (interp_bounds _ _ (t2 - inject_Z (Qfloor t2)) A2 ltac:(lra)) as [B2 _].
    revert A3 B1 B2.
    generalize (inject_Z (nth (Z.to_nat (Qfloor t1)) s 0%Z)
                * (1 - (t1 - inject_Z (Qfloor t1)))
                + inject_Z (nth (Z.to_nat (Qceiling t1)) s 0%Z)
                  * (t1 - inject_Z (Qfloor t1))).
    generalize (inject_Z (nth (Z.to_nat (Qfloor t2)) s 0%Z)
                * (1 - (t2 - inject_Z (Qfloor t2)))
                + inject_Z (nth (Z.to_nat (Qceiling t2)) s 0%Z)
                  * (t2 - inject_Z (Qfloor t2))).
    generalize (inject_Z (nth (Z.to_nat (Qceiling t1)) s 0%Z)).
    generalize (inject_Z (nth (Z.to_nat (Qfloor t2)) s 0%Z)).
    intros; lra.
  - destruct (floor_ceiling_cases t1) as [[E1 _] | [E1 G1]]; [lia |].
    assert (EF : Qfloor t2 = Qfloor t1) by lia.
    destruct (floor_ceiling_cases t2) as [[E2 I2] | [E2 _]].
    { rewrite EF in I2. lra. }
    rewrite E1, E2, EF in *.
    revert A1 L1 U1 L2 U2 G1.
    generalize (inject_Z (nth (Z.to_nat (Qfloor t1)) s 0%Z)).
    generalize (inject_Z (nth (Z.to_nat (Qfloor t1 + 1)) s 0%Z)).
    generalize (inject_Z (Qfloor t1)).
    intros k b a A1 L1 U1 L2 U2 G1. nra.
Qed.

(** X22: the interpolating [percentile] of the v4 engine.  For a
    non-empty array and ranks between 0 and 100 it is a finite number
    lying between the smallest and the largest element and it never
    decreases as the rank grows, so the reported p10, median and p90 are
    in order.  For an empty array it is NaN at every rank. *)
Theorem v4_percentile_monotone (arr : list Z) (p q : Q) :
  V4Game.percentile [] p = JS.NaN
  /\ (arr <> [] -> 0 <= p -> p <= q -> q <= 100 ->
      exists a b lo hi,
        V4Game.percentile arr p = JS.Fin a /\ V4Game.percentile arr q = JS.Fin b
        /\ In lo arr /\ In hi arr
        /\ inject_Z lo <= a /\ a <= b /\ b <= inject_Z hi).
Proof.
  split.
  { unfold V4Game.percentile. change (sortNum []) with (@nil Z).
    rewrite at_index_nil. reflexivity. }
  intros Hne Hp Hpq Hq.
  assert (Hn : (1 <= len (sortNum arr))%Z).
  { unfold len; rewrite sortNum_length. destruct arr; [contradiction | cbn [List.length]; lia]. }
  pose proof (sortNum_strongly_sorted arr) as Hs.
  rewrite (v4_percentile_value arr p Hne) by (split; lra).
  rewrite (v4_percentile_value arr q Hne) by (split; lra).
  cbv zeta.
  destruct (scaled_index_range p _ Hn ltac:(split; lra)) as [P0 P1].
  destruct (scaled_index_range q _ Hn ltac:(split; lra)) as [Q0 Q1].
  assert (Hpq' : p / 100 * inject_Z (len (sortNum arr) - 1)
                 <= q / 100 * inject_Z (len (sortNum arr) - 1)).
  { assert (Hm : 0 <= inject_Z (len (sortNum arr) - 1)).
    { change 0 with (inject_Z 0). rewrite <- Zle_Qle. lia. }
    assert (E1 : p / 100 == p * (1 # 100)) by field.
    assert (E2 : q / 100 == q * (1 # 100)) by field.
    rewrite E1, E2. revert Hm; generalize (inject_Z (len (sortNum arr) - 1)); intros m Hm.
    nra. }
  pose proof (interp_mono _ _ _ Hs P0 Hpq' Q1) as Hmono.
  destruct (floor_in_range _ _ P0 P1) as (F1 & FC1 & C1).
  destruct (floor_in_range _ _ Q0 Q1) as (F2 & FC2 & C2).
  set (tp := p / 100 * inject_Z (len (sortNum arr) - 1)) in *.
  set (tq := q / 100 * inject_Z (len (sortNum arr) - 1)) in *.
  pose proof (Qfloor_bounds tp) as [L1 U1].
  pose proof (Qfloor_bounds tq) as [L2 U2].
  assert (Nth : forall i j : Z, (0 <= i)%Z -> (i <= j)%Z -> (j <= len (sortNum arr) - 1)%Z ->
                  inject_Z (nth (Z.to_nat i) (sortNum arr) 0%Z)
                  <= inject_Z (nth (Z.to_nat j) (sortNum arr) 0%Z)).
  { intros i j Hi Hij Hj. rewrite <- Zle_Qle.
    apply StronglySorted_nth; [exact Hs | lia | unfold len in Hj; lia]. }
  pose proof (interp_bounds _ _ (tp - inject_Z (Qfloor tp))
                (Nth _ _ F1 FC1 C1) ltac:(lra)) as [B1 _].
  pose proof (interp_bounds _ _ (tq - inject_Z (Qfloor tq))
                (Nth _ _ F2 FC2 C2) ltac:(lra)) as [_ B2].
  assert (InS : forall i : Z, (0 <= i)%Z -> (i <= len (sortNum arr) - 1)%Z ->
                  In (nth (Z.to_nat i) (sortNum arr) 0%Z) arr).
  { intros i Hi Hj.
    apply (Permutation_in _ (Permutation_sym (sortNum_perm arr))).
    apply nth_In. unfold len in Hj. lia. }
  do 4 eexists.
  split; [reflexivity |]. split; [reflexivity |].
  split; [apply (InS (Qfloor tp)); lia |].
  split; [apply (InS (Qceiling tq)); lia |].
  split; [exact B1 |]. split; [exact Hmono | exact B2].
Qed.

Lemma v4_percentile_monotone_witness :
  exists a b lo hi,
    V4Game.percentile fixedTotals 10 = JS.Fin a
    /\ V4Game.percentile fixedTotals 90 = JS.Fin b
    /\ In lo fixedTotals /\ In hi fixedTotals
    /\ inject_Z lo <= a /\ a <= b /\ b <= inject_Z hi.
Proof.
  apply (proj2 (v4_percentile_monotone fixedTotals 10 90)).
  - discriminate.
  - vm_compute; discriminate.
  - vm_compute; discriminate.
  - vm_compute; discriminate.
Defined.

Lemma Qceiling_unique (x : Q) (n : Z) :
  inject_Z (n - 1) < x -> x <= inject_Z n -> Qceiling x = n.
Proof.
  intros Hlo Hhi.
  pose proof (Qle_ceiling x) as H1.
  pose proof (Qceiling_lt x) as H2.
  assert (A : (n - 1 < Qceiling x)%Z).
  { rewrite Zlt_Qlt. eapply Qlt_le_trans; eassumption. }
  assert (B : (Qceiling x - 1 < n)%Z).
  { rewrite Zlt_Qlt. eapply Qlt_le_trans; eassumption. }
  lia.
Qed.

(** X23: the median the v4 engine reports, [percentile(arr, 50)], is the
    median of the other engines: the middle element of the sorted array
    for an odd count, the mean of the two middle elements for an even
    count. *)
Theorem v4_median_agrees (arr : list Z) :
  arr <> [] ->
  exists m, V4Game.percentile arr 50 = JS.Fin m /\ m == median arr.
Proof.
  intros Hne.
  rewrite (v4_percentile_value arr 50 Hne) by (split; vm_compute; discriminate).
  cbv zeta. eexists; split; [reflexivity |].
  unfold len. rewrite sortNum_length.
  assert (Hn : (1 <= List.length arr)%nat).
  { destruct arr; [contradiction | cbn [List.length]; lia]. }
  set (n := List.length arr) in *.
  assert (Et : 50 / 100 * inject_Z (Z.of_nat n - 1)
               == inject_Z (Z.of_nat n - 1) * (1 # 2)) by field.
  destruct (Nat.odd n) eqn:Ho.
  - rewrite median_odd by exact Ho. fold n.
    assert (En : (Z.of_nat n - 1 = 2 * Z.of_nat (n / 2))%Z).
    { rewrite Nat2Z.inj_div. change (Z.of_nat 2) with 2%Z.
      apply Nat.odd_spec in Ho. destruct Ho as [k Hk].
      rewrite Hk. rewrite Nat2Z.inj_add, Nat2Z.inj_mul.
      change (Z.of_nat 2) with 2%Z; change (Z.of_nat 1) with 1%Z. zdiv. }
    assert (Ei : 50 / 100 * inject_Z (Z.of_nat n - 1) == inject_Z (Z.of_nat (n / 2))).
    { rewrite Et, En, inject_Z_mult. change (inject_Z 2) with 2. field. }
    assert (Ef : Qfloor (50 / 100 * inject_Z (Z.of_nat n - 1)) = Z.of_nat (n / 2)).
    { rewrite Ei. apply Qfloor_Z. }
    assert (Ec : Qceiling (50 / 100 * inject_Z (Z.of_nat n - 1)) = Z.of_nat (n / 2)).
    { rewrite Ei. apply Qceiling_Z. }
    rewrite Ef, Ec, Nat2Z.id.
    revert Ei.
    generalize (50 / 100 * inject_Z (Z.of_nat n - 1)).
    generalize (inject_Z (Z.of_nat (n / 2))).
    generalize (inject_Z (nth (n / 2) (sortNum arr) 0%Z)).
    intros v k t Ei. rewrite Ei. ring.
  - assert (He : Nat.even n = true).
    { rewrite <- Nat.negb_odd, Ho. reflexivity. }
    rewrite median_even by exact He. fold n.
    assert (En : (Z.of_nat n = 2 * Z.of_nat (n / 2))%Z /\ (1 <= n / 2)%nat).
    { apply Nat.even_spec in He. destruct He as [k Hk].
      assert (Hk2 : (n / 2 = k)%nat).
      { rewrite Hk. rewrite Nat.mul_comm. apply Nat.div_mul. lia. }
      rewrite Hk2. lia. }
    destruct En as [En Hm].
    assert (Ei : 50 / 100 * inject_Z (Z.of_nat n - 1)
                 == inject_Z (Z.of_nat (n / 2)) - (1 # 2)).
    { rewrite Et. unfold Z.sub. rewrite inject_Z_plus, En, inject_Z_mult.
      change (inject_Z 2) with 2. change (inject_Z (- (1))) with (- (1)). field. }
    assert (Ef : Qfloor (50 / 100 * inject_Z (Z.of_nat n - 1))
                 = (Z.of_nat (n / 2) - 1)%Z).
    { apply Qfloor_unique.
      - rewrite Ei. unfold Z.sub at 1. rewrite inject_Z_plus.
        change (inject_Z (- (1))) with (- (1)). lra.
      - rewrite Ei. replace (Z.of_nat (n / 2) - 1 + 1)%Z with (Z.of_nat (n / 2)) by lia.
        lra. }
    assert (Ec : Qceiling (50 / 100 * inject_Z (Z.of_nat n - 1)) = Z.of_nat (n / 2)).
    { apply Qceiling_unique.
      - rewrite Ei. unfold Z.sub at 1. rewrite inject_Z_plus.
        change (inject_Z (- (1))) with (- (1)). lra.
      - rewrite Ei. lra. }
    rewrite Ef, Ec, Nat2Z.id.
    replace (Z.to_nat (Z.of_nat (n / 2) - 1)) with (n / 2 - 1)%nat by lia.
    assert (Ek : inject_Z (Z.of_nat (n / 2) - 1) == inject_Z (Z.of_nat (n / 2)) - 1).
    { unfold Z.sub. rewrite inject_Z_plus. reflexivity. }
    revert Ei Ek.
    generalize (50 / 100 * inject_Z (Z.of_nat n - 1)).
    generalize (inject_Z (Z.of_nat (n / 2) - 1)).
    generalize (inject_Z (Z.of_nat (n / 2))).
    generalize (inject_Z (nth (n / 2 - 1) (sortNum arr) 0%Z)).
    generalize (inject_Z (nth (n / 2) (sortNum arr) 0%Z)).
    intros b a k k1 t Ei Ek. rewrite Ei, Ek. field.
Qed.

Lemma v4_median_agrees_witness :
  exists m, V4Game.percentile fixedTotals 50 = JS.Fin m /\ m == median fixedTotals.
Proof.
  apply (v4_median_agrees fixedTotals). discriminate.
Defined.

(** ** The calibrated v4 engine: trials and result percentages *)





Lemma countOverUnder_acc (line : Q) (arr : list Z) :
  forall c : V4Game.Counts,
    let c' := fold_left (V4Game.countStep line) arr c in
    (V4Game.overCount c' = V4Game.overCount c + count_above line arr)%nat
    /\ (V4Game.underCount c' = V4Game.underCount c + count_below line arr)%nat
    /\ (V4Game.overCount c' + V4Game.underCount c' + V4Game.pushCount c'
        = V4Game.overCount c + V4Game.underCount c + V4Game.pushCount c
          + List.length arr)%nat.
Proof.
  unfold count_above, count_below.
  induction arr as [| x l IH]; intros c; cbn [fold_left filter List.length].
  - cbv zeta. lia.
  - cbv zeta in IH |- *.
    destruct (IH (V4Game.countStep line c x)) as (I1 & I2 & I3).
    clear IH. revert I1 I2 I3.
    generalize (fold_left (V4Game.countStep line) l (V4Game.countStep line c x)).
    unfold V4Game.countStep.
    destruct (lt_cases line (inject_Z x)) as [[-> H1] | [-> H1]].
    + assert (E : JS.lt (inject_Z x) line = false).
      { destruct (lt_cases (inject_Z x) line) as [[_ H2] | [E _]]; [lra | exact E]. }
      rewrite E.
      cbn [V4Game.overCount V4Game.underCount V4Game.pushCount List.length].
      intros; lia.
    + destruct (JS.lt (inject_Z x) line);
        cbn [V4Game.overCount V4Game.underCount V4Game.pushCount List.length];
        intros; lia.
Qed.

Lemma countOverUnder_total (line : Q) (arr : list Z) :
  let c := V4Game.countOverUnder line arr in
  (V4Game.overCount c + V4Game.underCount c + V4Game.pushCount c = List.length arr)%nat
  /\ V4Game.overCount c = count_above line arr
  /\ V4Game.underCount c = count_below line arr.
Proof.
  cbv zeta. unfold V4Game.countOverUnder.
  destruct (countOverUnder_acc line arr (V4Game.mkCounts 0 0 0)) as (I1 & I2 & I3).
  cbn [V4Game.overCount V4Game.underCount V4Game.pushCount Nat.add] in I1, I2, I3.
  repeat split; assumption.
Qed.

Lemma countWins_acc (margins : list Z) :
  forall c : nat * nat,
    let c' := fold_left V4Game.winStep margins c in
    (fst c' = fst c + count_above 0 margins)%nat
    /\ (snd c' = snd c + count_below 0 margins)%nat.
Proof.
  unfold count_above, count_below.
  induction margins as [| x l IH]; intros c; cbn [fold_left filter List.length].
  - cbv zeta. lia.
  - cbv zeta in IH |- *.
    destruct (IH (V4Game.winStep c x)) as (I1 & I2).
    clear IH. revert I1 I2.
    generalize (fold_left V4Game.winStep l (V4Game.winStep c x)).
    unfold V4Game.winStep.
    destruct (lt_cases 0 (inject_Z x)) as [[-> H1] | [-> H1]].
    + assert (E : JS.lt (inject_Z x) 0 = false).
      { destruct (lt_cases (inject_Z x) 0) as [[_ H2] | [E _]]; [lra | exact E]. }
      rewrite E. cbn [fst snd List.length]. intros; lia.
    + destruct (JS.lt (inject_Z x) 0); cbn [fst snd List.length]; intros; lia.
Qed.

Lemma coverCount_acc (line : Q) (margins : list Z) :
  forall c : nat,
    fold_left (fun c margin => if JS.lt (- line) (inject_Z margin) then S c else c)
              margins c
    = (c + count_above (- line) margins)%nat.
Proof.
  unfold count_above.
  induction margins as [| x l IH]; intros c; cbn [fold_left filter List.length].
  - lia.
  - rewrite IH. destruct (JS.lt (- line) (inject_Z x)); cbn [List.length]; lia.
Qed.

Lemma coverCount_above (line : Q) (margins : list Z) :
  V4Game.coverCount line margins = count_above (- line) margins.
Proof. unfold V4Game.coverCount. rewrite coverCount_acc. reflexivity. Qed.

Lemma count_above_antitone (a b : Q) (arr : list Z) :
  a <= b -> (count_above b arr <= count_above a arr)%nat.
Proof.
  intros Hab; unfold count_above.
  induction arr as [| x l IH]; cbn [filter List.length]; [lia |].
  destruct (lt_cases b (inject_Z x)) as [[-> H1] | [-> H1]].
  - assert (E : JS.lt a (inject_Z x) = true) by (apply lt_iff; lra).
    rewrite E. cbn [List.length]. lia.
  - destruct (JS.lt a (inject_Z x)); cbn [List.length]; lia.
Qed.


Lemma pctOf_pos (c : nat) (n : Z) :
  (0 < n)%Z ->
  V4Game.pctOf c n = JS.Fin (inject_Z (Z.of_nat c) / inject_Z n * 100)
  /\ V4Game.share c n = JS.Fin (inject_Z (Z.of_nat c) / inject_Z n).
Proof.
  intros Hn. unfold V4Game.pctOf, V4Game.share, JS.div.
  assert (E : Qeq_bool (inject_Z n) 0 = false).
  { destruct (Qeq_bool (inject_Z n) 0) eqn:E; [| reflexivity].
    apply Qeq_bool_iff in E. unfold Qeq in E; cbn in E. lia. }
  rewrite E. split; reflexivity.
Qed.



Lemma pct_mono (c1 c2 : nat) (n : Z) :
  (0 < n)%Z -> (c1 <= c2)%nat ->
  inject_Z (Z.of_nat c1) / inject_Z n * 100 <= inject_Z (Z.of_nat c2) / inject_Z n * 100.
Proof.
  intros Hn Hc.
  assert (Hq : 0 < inject_Z n).
  { change 0 with (inject_Z 0). rewrite <- Zlt_Qlt. exact Hn. }
  assert (Hle : inject_Z (Z.of_nat c1) <= inject_Z (Z.of_nat c2)).
  { rewrite <- Zle_Qle. lia. }
  assert (H : inject_Z (Z.of_nat c1) / inject_Z n <= inject_Z (Z.of_nat c2) / inject_Z n).
  { apply Qle_shift_div_l; [exact Hq |].
    assert (E : inject_Z (Z.of_nat c1) / inject_Z n * inject_Z n == inject_Z (Z.of_nat c1)).
    { field. lra. }
    rewrite E. exact Hle. }
  lra.
Qed.




Lemma count_above_Qeq (a b : Q) (arr : list Z) :
  a == b -> count_above a arr = count_above b arr.
Proof.
  intros E. apply Nat.le_antisymm; apply count_above_antitone; lra.
Qed.

Lemma altLineValues_sorted : StronglySorted Qle V4Game.altLineValues.
Proof.
  apply Sorted_StronglySorted; [intros x y z; apply Qle_trans |].
  unfold V4Game.altLineValues.
  repeat (constructor; try (vm_compute; discriminate)).
Qed.

Lemma altLines_sorted (margins : list Z) (n : Z) (lines : list Q) :
  (0 < n)%Z -> StronglySorted Qle lines ->
  StronglySorted fin_le
    (map V4Game.coverPct
       (map (fun line => V4Game.mkAltLine line
                           (V4Game.pctOf (V4Game.coverCount line margins) n)) lines)).
Proof.
  intros Hn Hs.
  induction Hs as [| a l Hs IH Hall]; cbn [map V4Game.coverPct]; constructor.
  - exact IH.
  - rewrite map_map. apply Forall_map. cbn [V4Game.coverPct].
    eapply Forall_impl; [| exact Hall].
    intros b Hab; cbv beta.
    rewrite (proj1 (pctOf_pos (V4Game.coverCount a margins) n Hn)).
    rewrite (proj1 (pctOf_pos (V4Game.coverCount b margins) n Hn)).
    cbn [fin_le]. apply pct_mono; [exact Hn |].
    rewrite !coverCount_above. apply count_above_antitone. lra.
Qed.

(** X25: the alternative spread lines of [calculateResults], for a
    positive trial count: the analysis lists the seventeen lines from -14
    to +14 in order, the home cover percentage never decreases as the
    line grows, the entry of line 0 is the home moneyline percentage, and
    an entry whose line equals the game's spread line is the home cover
    percentage of the spread analysis. *)
Theorem v4_alt_lines_ladder (sqrt log cos sin : Q -> Q) (PI : Q) (U : nat -> Q)
    (m : V4Game.Matchup) (d : V4Game.DrivesModel) (rho : Q) (s : V4Game.Settings)
    (k : nat) :
  (0 < V4Game.numSimulations s)%Z ->
  let r := V4Game.simulateFrom sqrt log cos sin PI U m d rho s k in
  let sp := V4Game.spreadAnalysis r in
  map V4Game.al_line (V4Game.altLines sp) = V4Game.altLineValues
  /\ StronglySorted fin_le (map V4Game.coverPct (V4Game.altLines sp))
  /\ (forall a, In a (V4Game.altLines sp) -> V4Game.al_line a == 0 ->
                V4Game.coverPct a = V4Game.homeWinPct (V4Game.moneyline r))
  /\ (forall a, In a (V4Game.altLines sp) ->
                V4Game.al_line a == V4Game.spreadLine s ->
                V4Game.coverPct a = V4Game.homeCoverPct sp).
Proof.
  intros Hn; cbv zeta.
  unfold V4Game.simulateFrom, V4Game.calculateResults.
  cbn [V4Game.spreadAnalysis V4Game.altLines V4Game.moneyline V4Game.homeWinPct
       V4Game.homeCoverPct].
  match goal with
  | |- context [V4.margins ?t] => generalize (V4.margins t); intros margins
  end.
  split; [rewrite map_map; cbn [V4Game.al_line]; apply map_id |].
  split; [apply altLines_sorted; [exact Hn | apply altLineValues_sorted] |].
  split.
  - intros a Ha E. apply in_map_iff in Ha. destruct Ha as (line & <- & _).
    cbn [V4Game.al_line V4Game.coverPct] in *.
    f_equal.
    destruct (countWins_acc margins (O, O)) as [W1 _].
    cbn [fst Nat.add] in W1. unfold V4Game.countWins. rewrite W1.
    rewrite coverCount_above. apply count_above_Qeq. lra.
  - intros a Ha E. apply in_map_iff in Ha. destruct Ha as (line & <- & _).
    cbn [V4Game.al_line V4Game.coverPct] in *.
    f_equal.
    destruct (countOverUnder_total (- V4Game.spreadLine s) margins) as (_ & -> & _).
    rewrite coverCount_above. apply count_above_Qeq. lra.
Qed.

Lemma v4_alt_lines_ladder_witness :
  let r := V4Game.simulateFrom sqrtAtOne sqrtAtOne sqrtAtOne sqrtAtOne 3 uSeq
             avgMatchup avgDrives 0.22 (formSettings 10000) 0 in
  StronglySorted fin_le (map V4Game.coverPct (V4Game.altLines (V4Game.spreadAnalysis r))).
Proof.
  refine (proj1 (proj2 (v4_alt_lines_ladder sqrtAtOne sqrtAtOne sqrtAtOne sqrtAtOne 3 uSeq
                          avgMatchup avgDrives 0.22 (formSettings 10000) 0 _))).
  cbn. lia.
Defined.

(** With a trial count of zero [calculateResults] divides zero by
    zero throughout: every over, under and push percentage, both
    moneyline percentages and fair odds, and the mean, median, p10 and
    p90 of every projection are NaN. *)
Lemma v4_results_zero_trials (sqrt log cos sin : Q -> Q) (PI : Q) (U : nat -> Q)
    (m : V4Game.Matchup) (d : V4Game.DrivesModel) (rho : Q) (s : V4Game.Settings)
    (k : nat) :
  V4Game.numSimulations s = 0%Z ->
  let r := V4Game.simulateFrom sqrt log cos sin PI U m d rho s k in
  let nanOU (ou : V4Game.OverUnder) :=
    V4Game.overPct ou = JS.NaN /\ V4Game.underPct ou = JS.NaN
    /\ V4Game.pushPct ou = JS.NaN in
  let nanPr (p : V4Game.Projection) :=
    V4Game.pr_mean p = JS.NaN /\ V4Game.pr_median p = JS.NaN
    /\ V4Game.pr_p10 p = JS.NaN /\ V4Game.pr_p90 p = JS.NaN in
  nanOU (V4Game.overUnder r) /\ nanOU (V4Game.homeTeamOverUnder r)
  /\ nanOU (V4Game.awayTeamOverUnder r)
  /\ V4Game.moneyline r = V4Game.mkMoneyline JS.NaN JS.NaN JS.NaN JS.NaN
  /\ V4Game.homeCoverPct (V4Game.spreadAnalysis r) = JS.NaN
  /\ V4Game.awayCoverPct (V4Game.spreadAnalysis r) = JS.NaN
  /\ V4Game.sp_pushPct (V4Game.spreadAnalysis r) = JS.NaN
  /\ nanPr (V4Game.homeProjection r) /\ nanPr (V4Game.awayProjection r)
  /\ nanPr (V4Game.totalProjection r) /\ nanPr (V4Game.marginProjection r).
Proof.
  intros Hn; cbv zeta.
  unfold V4Game.simulateFrom, V4Game.calculateResults.
  rewrite Hn.
  change (V4.simulateTrials sqrt log cos sin PI U (V4Game.expectedPoints m d rho s)
            (JS.Int 0) k) with (V4.mkTrials [] [] [] [] k).
  cbn [V4.homeScores V4.awayScores V4.totals V4.margins
       V4Game.overUnder V4Game.homeTeamOverUnder V4Game.awayTeamOverUnder
       V4Game.moneyline V4Game.spreadAnalysis V4Game.homeProjection V4Game.awayProjection
       V4Game.totalProjection V4Game.marginProjection
       V4Game.homeCoverPct V4Game.awayCoverPct V4Game.sp_pushPct].
  assert (P : forall p, V4Game.percentile [] p = JS.NaN).
  { intros p. unfold V4Game.percentile. change (sortNum []) with (@nil Z).
    rewrite at_index_nil. reflexivity. }
  unfold V4Game.projectionOf, V4Game.overUnderOf.
  cbn [V4Game.pr_mean V4Game.pr_median V4Game.pr_p10 V4Game.pr_p90
       V4Game.overPct V4Game.underPct V4Game.pushPct].
  rewrite !P.
  repeat split.
Qed.

(** ** The calibrated v4 engine: league statistics *)




(** ** CSV input: the line parser of the v4 engine *)

Lemma lineLoop_inside (f : Text.str) :
  ~ In Text.QUOTE f ->
  forall rest result current,
    V4Csv.lineLoop (f ++ rest) result current true
    = V4Csv.lineLoop rest result (current ++ f) true.
Proof.
  induction f as [| c f IH]; intros Hq rest result current; cbn [app V4Csv.lineLoop].
  - rewrite app_nil_r; reflexivity.
  - destruct (N.eqb_spec c Text.QUOTE) as [E | _].
    + exfalso; apply Hq; left; exact E.
    + cbn [negb andb]. rewrite Bool.andb_false_r.
      rewrite IH by (intros H; apply Hq; right; exact H).
      rewrite <- app_assoc. reflexivity.
Qed.

Lemma lineLoop_plain (f : Text.str) :
  plainField f ->
  forall rest result current,
    V4Csv.lineLoop (f ++ rest) result current false
    = V4Csv.lineLoop rest result (current ++ f) false.
Proof.
  induction f as [| c f IH]; intros [Hq Hc] rest result current; cbn [app V4Csv.lineLoop].
  - rewrite app_nil_r; reflexivity.
  - destruct (N.eqb_spec c Text.QUOTE) as [E | _].
    + exfalso; apply Hq; left; exact E.
    + destruct (N.eqb_spec c Text.COMMA) as [E | _].
      * exfalso; apply Hc; left; exact E.
      * cbn [andb].
        rewrite IH by (split; intros H; [apply Hq | apply Hc]; right; exact H).
        rewrite <- app_assoc. reflexivity.
Qed.

(** Inside quotes a doubled quote toggles the state twice and leaves
    nothing in the field. *)
Lemma lineLoop_escaped (f : Text.str) :
  forall rest result current,
    V4Csv.lineLoop (escapeQuotes f ++ rest) result current true
    = V4Csv.lineLoop rest result (current ++ withoutQuotes f) true.
Proof.
  induction f as [| c f IH]; intros rest result current.
  - cbn. rewrite app_nil_r; reflexivity.
  - unfold escapeQuotes, withoutQuotes in *; cbn [flat_map filter].
    destruct (N.eqb_spec c Text.QUOTE) as [E | Hn].
    + cbn [negb app V4Csv.lineLoop].
      change (Text.QUOTE =? Text.QUOTE)%N with true. cbv iota. cbn [negb].
      apply IH.
    + cbn [negb app V4Csv.lineLoop].
      destruct (N.eqb_spec c Text.QUOTE) as [E | _]; [contradiction |].
      rewrite Bool.andb_false_r.
      rewrite IH. rewrite <- app_assoc. reflexivity.
Qed.

Lemma lineLoop_quoted (f : Text.str) (rest : Text.str) (result : list Text.str)
    (current : Text.str) :
  V4Csv.lineLoop (rfcQuote f ++ rest) result current false
  = V4Csv.lineLoop rest result (current ++ withoutQuotes f) false.
Proof.
  unfold rfcQuote. cbn [app V4Csv.lineLoop].
  change (Text.QUOTE =? Text.QUOTE)%N with true. cbv iota. cbn [negb].
  rewrite <- app_assoc. rewrite lineLoop_escaped.
  cbn [app V4Csv.lineLoop].
  change (Text.QUOTE =? Text.QUOTE)%N with true. cbv iota. cbn [negb].
  reflexivity.
Qed.

Lemma join_cons (sep : N) (f g : Text.str) (rest : list Text.str) :
  Text.join sep (f :: g :: rest) = f ++ sep :: Text.join sep (g :: rest).
Proof. reflexivity. Qed.

Lemma lineLoop_fields_quoted (fs : list Text.str) :
  forall (f : Text.str) (result : list Text.str),
    V4Csv.lineLoop (encodeLine Text.COMMA (f :: fs)) result [] false
    = result ++ map (fun f => Text.trim (withoutQuotes f)) (f :: fs).
Proof.
  unfold encodeLine.
  induction fs as [| g fs IH]; intros f result.
  - cbn [map Text.join].
    rewrite <- (app_nil_r (rfcQuote f)), lineLoop_quoted.
    reflexivity.
  - cbn [map]. rewrite join_cons, lineLoop_quoted.
    cbn [app V4Csv.lineLoop].
    change (Text.COMMA =? Text.QUOTE)%N with false.
    change (Text.COMMA =? Text.COMMA)%N with true. cbn [negb andb]. cbv iota.
    change (rfcQuote g :: map rfcQuote fs) with (map rfcQuote (g :: fs)).
    rewrite IH. rewrite <- app_assoc. reflexivity.
Qed.

Lemma lineLoop_fields_plain (fs : list Text.str) :
  forall (f : Text.str) (result : list Text.str),
    Forall plainField (f :: fs) ->
    V4Csv.lineLoop (Text.join Text.COMMA (f :: fs)) result [] false
    = result ++ map Text.trim (f :: fs).
Proof.
  induction fs as [| g fs IH]; intros f result Hall.
  - cbn [map Text.join].
    assert (Hf : plainField f) by (inversion Hall; assumption).
    pose proof (lineLoop_plain f Hf [] result []) as H.
    rewrite app_nil_r in H. rewrite H. reflexivity.
  - rewrite join_cons, lineLoop_plain by (inversion Hall; assumption).
    cbn [app V4Csv.lineLoop].
    change (Text.COMMA =? Text.QUOTE)%N with false.
    change (Text.COMMA =? Text.COMMA)%N with true. cbn [negb andb]. cbv iota.
    rewrite IH by (inversion Hall; assumption).
    cbn [map]. rewrite <- app_assoc. reflexivity.
Qed.

Lemma trimStart_incl (s : Text.str) (c : N) : In c (Text.trimStart s) -> In c s.
Proof.
  induction s as [| x s IH]; cbn [Text.trimStart]; [tauto |].
  destruct (Text.is_space x); [intros H; right; apply IH; exact H | tauto].
Qed.

Lemma trim_incl (s : Text.str) (c : N) : In c (Text.trim s) -> In c s.
Proof.
  unfold Text.trim, Text.trimEnd. intros H.
  apply in_rev in H. apply trimStart_incl in H. apply in_rev in H.
  apply trimStart_incl. exact H.
Qed.

Lemma lineLoop_no_quote (line : Text.str) :
  forall result current inQuotes,
    Forall (fun f => ~ In Text.QUOTE f) result -> ~ In Text.QUOTE current ->
    Forall (fun f => ~ In Text.QUOTE f) (V4Csv.lineLoop line result current inQuotes).
Proof.
  induction line as [| c line IH]; intros result current inQuotes Hr Hc;
    cbn [V4Csv.lineLoop].
  - apply Forall_app; split; [exact Hr |].
    constructor; [| constructor]. intros H; apply Hc, (trim_incl _ _ H).
  - destruct (N.eqb_spec c Text.QUOTE) as [E | Hn].
    + apply IH; assumption.
    + destruct ((c =? Text.COMMA)%N && negb inQuotes).
      * apply IH; [| intros []].
        apply Forall_app; split; [exact Hr |].
        constructor; [| constructor]. intros H; apply Hc, (trim_incl _ _ H).
      * apply IH; [exact Hr |].
        intros H. apply in_app_or in H. destruct H as [H | [H | []]]; [tauto |].
        apply Hn; exact H.
Qed.

Lemma lineLoop_count (line : Text.str) :
  ~ In Text.QUOTE line ->
  forall result current,
    List.length (V4Csv.lineLoop line result current false)
    = (List.length result + 1 + count_occ N.eq_dec line Text.COMMA)%nat.
Proof.
  induction line as [| c line IH]; intros Hq result current;
    cbn [V4Csv.lineLoop count_occ].
  - rewrite length_app; cbn [List.length]. lia.
  - destruct (N.eqb_spec c Text.QUOTE) as [E | _].
    + exfalso; apply Hq; left; exact E.
    + assert (Hq' : ~ In Text.QUOTE line) by (intros H; apply Hq; right; exact H).
      destruct (N.eqb_spec c Text.COMMA) as [E | Hn]; cbn [andb negb].
      * rewrite IH by exact Hq'. rewrite length_app; cbn [List.length].
        destruct (N.eq_dec c Text.COMMA); [lia | contradiction].
      * rewrite IH by exact Hq'.
        destruct (N.eq_dec c Text.COMMA); [contradiction | lia].
Qed.

(** X27: [parseCSVLine] against the writer's side.  A line of fields
    written between double quotes, with inner quotes doubled, parses back
    into the trimmed fields with their double quotes removed, commas
    included, so a field without double quotes survives the round trip up
    to surrounding white space.  A line of unquoted fields free of
    commas and double quotes parses back into the trimmed fields.  A
    line without double quotes gives one field more than it has commas,
    and no field of any line ever contains a double quote. *)
Theorem parseCSVLine_round_trip (fs : list Text.str) (line : Text.str) :
  Forall (fun f => ~ In Text.QUOTE f) (V4Csv.parseCSVLine line)
  /\ (~ In Text.QUOTE line ->
      List.length (V4Csv.parseCSVLine line)
      = S (count_occ N.eq_dec line Text.COMMA))
  /\ (fs <> [] ->
      V4Csv.parseCSVLine (encodeLine Text.COMMA fs)
      = map (fun f => Text.trim (withoutQuotes f)) fs
      /\ (Forall plainField fs ->
          V4Csv.parseCSVLine (Text.join Text.COMMA fs) = map Text.trim fs)).
Proof.
  unfold V4Csv.parseCSVLine.
  split; [apply lineLoop_no_quote; [constructor | intros []] |].
  split.
  - intros Hq. rewrite lineLoop_count by exact Hq. cbn [List.length]. lia.
  - intros Hne. destruct fs as [| f fs]; [contradiction |].
    split.
    + rewrite lineLoop_fields_quoted. reflexivity.
    + intros Hall. rewrite lineLoop_fields_plain by exact Hall. reflexivity.
Qed.

Lemma parseCSVLine_round_trip_witness :
  V4Csv.parseCSVLine
    (encodeLine Text.COMMA [[66; 105; 108; 108; 115]; [50; 44; 51]; [32; 52; 49; 37]]%N)
  = [[66; 105; 108; 108; 115]; [50; 44; 51]; [52; 49; 37]]%N.
Proof.
  refine (proj1 (proj2 (proj2
    (parseCSVLine_round_trip [[66; 105; 108; 108; 115]; [50; 44; 51]; [32; 52; 49; 37]]%N
       [])) _)).
  discriminate.
Defined.

(** ** CSV input: the parser of the Gaussian v3 engine *)

Lemma scan_escaped (delim : N) (f : Text.str) :
  forall rest rows row field,
    hd_error rest <> Some Text.QUOTE ->
    GaussV3Csv.scan delim (escapeQuotes f ++ Text.QUOTE :: rest) rows row field true
    = GaussV3Csv.scan delim rest rows row (field ++ f) false.
Proof.
  induction f as [| c f IH]; intros rest rows row field Hrest.
  - cbn [escapeQuotes flat_map app GaussV3Csv.scan].
    change (Text.QUOTE =? Text.QUOTE)%N with true. cbv iota.
    rewrite app_nil_r.
    destruct rest as [| ch2 rest2]; [reflexivity |].
    destruct (N.eqb_spec ch2 Text.QUOTE) as [E | _]; [| reflexivity].
    exfalso; apply Hrest; cbn; rewrite E; reflexivity.
  - unfold escapeQuotes in *; cbn [flat_map].
    destruct (N.eqb_spec c Text.QUOTE) as [E | Hn].
    + cbn [app GaussV3Csv.scan].
      change (Text.QUOTE =? Text.QUOTE)%N with true. cbv iota.
      rewrite IH by exact Hrest. rewrite <- app_assoc, E. reflexivity.
    + cbn [app GaussV3Csv.scan].
      destruct (N.eqb_spec c Text.QUOTE) as [E | _]; [contradiction |].
      rewrite IH by exact Hrest. rewrite <- app_assoc. reflexivity.
Qed.

Lemma scan_quoted (delim : N) (f rest : Text.str) (rows : list (list Text.str))
    (row : list Text.str) (field : Text.str) :
  hd_error rest <> Some Text.QUOTE ->
  GaussV3Csv.scan delim (rfcQuote f ++ rest) rows row field false
  = GaussV3Csv.scan delim rest rows row (field ++ f) false.
Proof.
  intros Hrest. unfold rfcQuote. cbn [app GaussV3Csv.scan].
  change (Text.QUOTE =? Text.QUOTE)%N with true. cbv iota.
  rewrite <- app_assoc. cbn [app].
  apply scan_escaped. exact Hrest.
Qed.

Lemma scan_line (delim : N) (fs : list Text.str) :
  delim <> Text.QUOTE -> delim <> Text.LF ->
  forall (f : Text.str) (rest : Text.str) (rows : list (list Text.str))
         (row : list Text.str),
    GaussV3Csv.scan delim (encodeLine delim (f :: fs) ++ Text.LF :: rest) rows row [] false
    = GaussV3Csv.scan delim rest (rows ++ [row ++ map Text.trim (f :: fs)]) [] [] false
    /\ GaussV3Csv.scan delim (encodeLine delim (f :: fs)) rows row [] false
       = rows ++ [row ++ map Text.trim (f :: fs)].
Proof.
  intros Hq Hl. unfold encodeLine.
  assert (Eq : (delim =? Text.QUOTE)%N = false) by (apply N.eqb_neq; exact Hq).
  assert (El : (Text.LF =? delim)%N = false).
  { apply N.eqb_neq. intros E; apply Hl; symmetry; exact E. }
  induction fs as [| g fs IH]; intros f rest rows row.
  - cbn [map Text.join]. split.
    + rewrite scan_quoted by (cbn; discriminate).
      cbn [app GaussV3Csv.scan].
      change (Text.LF =? Text.QUOTE)%N with false. cbv iota.
      rewrite El. change (Text.LF =? Text.LF)%N with true. cbv iota.
      reflexivity.
    + pose proof (scan_quoted delim f [] rows row []) as H.
      rewrite app_nil_r in H. rewrite H by (cbn; discriminate).
      reflexivity.
  - cbn [map]. rewrite join_cons.
    change (rfcQuote g :: map rfcQuote fs) with (map rfcQuote (g :: fs)).
    destruct (IH g rest rows (row ++ [Text.trim f])) as [I1 I2].
    split.
    + rewrite <- app_assoc.
      rewrite scan_quoted.
      2:{ cbn. intros E. injection E as E. contradiction. }
      cbn [app GaussV3Csv.scan]. rewrite Eq. cbv iota.
      rewrite N.eqb_refl. cbv iota.
      rewrite I1. rewrite <- app_assoc. reflexivity.
    + rewrite scan_quoted.
      2:{ cbn. intros E. injection E as E. contradiction. }
      cbn [app GaussV3Csv.scan]. rewrite Eq. cbv iota.
      rewrite N.eqb_refl. cbv iota.
      rewrite I2. rewrite <- app_assoc. reflexivity.
Qed.

Lemma scan_table (delim : N) (rs : list (list Text.str)) :
  delim <> Text.QUOTE -> delim <> Text.LF ->
  forall (r : list Text.str) (rows : list (list Text.str)),
    Forall (fun row => row <> []) (r :: rs) ->
    GaussV3Csv.scan delim (encodeTable delim (r :: rs)) rows [] [] false
    = rows ++ map (map Text.trim) (r :: rs).
Proof.
  intros Hq Hl. unfold encodeTable.
  induction rs as [| r2 rs IH]; intros r rows Hall.
  - cbn [map Text.join].
    destruct r as [| f fs]; [inversion Hall; contradiction |].
    rewrite (proj2 (scan_line delim fs Hq Hl f [] rows [])).
    reflexivity.
  - cbn [map]. rewrite join_cons.
    change (encodeLine delim r2 :: map (encodeLine delim) rs)
      with (map (encodeLine delim) (r2 :: rs)).
    destruct r as [| f fs]; [inversion Hall; contradiction |].
    rewrite (proj1 (scan_line delim fs Hq Hl f _ rows [])).
    rewrite IH by (inversion Hall; assumption).
    cbn [app map]. rewrite <- app_assoc. reflexivity.
Qed.

(** Code units of the encoded text. *)
Lemma escapeQuotes_units (f : Text.str) (c : N) :
  In c (escapeQuotes f) -> In c f.
Proof.
  unfold escapeQuotes. intros H. apply in_flat_map in H.
  destruct H as (x & Hx & Hc).
  destruct (N.eqb_spec x Text.QUOTE) as [E | _].
  - destruct Hc as [<- | [<- | []]]; rewrite <- E; exact Hx.
  - destruct Hc as [<- | []]; exact Hx.
Qed.

Lemma join_units (sep : N) (parts : list Text.str) (c : N) :
  In c (Text.join sep parts) -> c = sep \/ exists p, In p parts /\ In c p.
Proof.
  induction parts as [| p parts IH]; [intros [] |].
  destruct parts as [| p2 parts].
  - cbn [Text.join]. intros H. right; exists p; split; [left; reflexivity | exact H].
  - rewrite join_cons. intros H. apply in_app_or in H.
    destruct H as [H | [H | H]].
    + right; exists p; split; [left; reflexivity | exact H].
    + left; symmetry; exact H.
    + destruct (IH H) as [E | (q & Hq & Hc)]; [left; exact E |].
      right; exists q; split; [right; exact Hq | exact Hc].
Qed.

Lemma encodeTable_units (delim : N) (rows : list (list Text.str)) (c : N) :
  In c (encodeTable delim rows) ->
  c = Text.LF \/ c = delim \/ c = Text.QUOTE
  \/ exists row f, In row rows /\ In f row /\ In c f.
Proof.
  unfold encodeTable. intros H.
  destruct (join_units _ _ _ H) as [E | (line & Hline & Hc)]; [left; exact E |].
  apply in_map_iff in Hline. destruct Hline as (row & <- & Hrow).
  unfold encodeLine in Hc.
  destruct (join_units _ _ _ Hc) as [E | (q & Hq & Hcq)]; [right; left; exact E |].
  apply in_map_iff in Hq. destruct Hq as (f & <- & Hf).
  unfold rfcQuote in Hcq. destruct Hcq as [E | Hcq]; [right; right; left; symmetry; exact E |].
  apply in_app_or in Hcq. destruct Hcq as [Hcq | [E | []]].
  - right; right; right. exists row, f. repeat split; try assumption.
    apply escapeQuotes_units; exact Hcq.
  - right; right; left; symmetry; exact E.
Qed.

Lemma replaceCRLF_id (s : Text.str) : ~ In Text.CR s -> Text.replaceCRLF s = s.
Proof.
  induction s as [| c s IH]; intros Hn; [reflexivity |].
  cbn [Text.replaceCRLF].
  destruct s as [| c2 s2]; [reflexivity |].
  destruct (N.eqb_spec c Text.CR) as [E | _].
  - exfalso; apply Hn; left; exact E.
  - cbn [andb]. f_equal. apply IH. intros H; apply Hn; right; exact H.
Qed.

Lemma normalizeNewlines_id (s : Text.str) :
  ~ In Text.CR s -> Text.normalizeNewlines s = s.
Proof.
  intros Hn. unfold Text.normalizeNewlines. rewrite replaceCRLF_id by exact Hn.
  induction s as [| c s IH]; [reflexivity |].
  cbn [map]. destruct (N.eqb_spec c Text.CR) as [E | _].
  - exfalso; apply Hn; left; exact E.
  - f_equal. apply IH. intros H; apply Hn; right; exact H.
Qed.

Lemma splitOn_first_units (sep : N) (s : Text.str) :
  forall cur c, In c (hd [] (Text.splitOn sep s cur)) -> In c cur \/ In c s.
Proof.
  induction s as [| x s IH]; intros cur c; cbn [Text.splitOn].
  - cbn [hd]. tauto.
  - destruct (x =? sep)%N.
    + cbn [hd]. tauto.
    + intros H. destruct (IH _ _ H) as [H1 | H1].
      * apply in_app_or in H1. destruct H1 as [H1 | [H1 | []]];
          [left; exact H1 | right; left; exact H1].
      * right; right; exact H1.
Qed.

Lemma detectDelim_comma (text : Text.str) :
  ~ In Text.TAB text -> GaussV3Csv.detectDelim text = Text.COMMA.
Proof.
  intros Hn. unfold GaussV3Csv.detectDelim.
  destruct (existsb (N.eqb Text.TAB) (hd [] (Text.split Text.LF text))) eqn:E;
    [| reflexivity].
  exfalso. apply existsb_exists in E. destruct E as (c & Hc & Ec).
  apply N.eqb_eq in Ec. subst c.
  unfold Text.split in Hc.
  destruct (splitOn_first_units _ _ _ _ Hc) as [[] | H]. exact (Hn H).
Qed.

(** X28: the CSV parser of the Gaussian v3 engine reads back what an
    RFC 4180 writer wrote.  For a table with at least one row, no row
    without fields, and fields free of carriage returns and tabs, each
    field written between double quotes with inner quotes doubled, fields
    joined by commas and rows by line feeds, the parser returns the
    table with every field trimmed (commas, line feeds and double quotes
    inside fields included), less the rows at the end whose fields are
    all blank. *)
Theorem GaussV3_parseCSV_round_trip (rows : list (list Text.str)) :
  rows <> [] ->
  Forall (fun row => row <> []) rows ->
  Forall (Forall (fun f => ~ In Text.CR f /\ ~ In Text.TAB f)) rows ->
  GaussV3Csv.parseRows (encodeTable Text.COMMA rows)
  = GaussV3Csv.dropTrailingEmpty (map (map Text.trim) rows).
Proof.
  intros Hne Hrows Hfields.
  unfold GaussV3Csv.parseRows.
  assert (Units : forall c, In c (encodeTable Text.COMMA rows) ->
                            c <> Text.CR /\ c <> Text.TAB).
  { intros c Hc.
    destruct (encodeTable_units _ _ _ Hc) as [-> | [-> | [-> | (row & f & Hr & Hf & Hcf)]]];
      try (split; discriminate).
    rewrite Forall_forall in Hfields. specialize (Hfields row Hr).
    rewrite Forall_forall in Hfields. destruct (Hfields f Hf) as [H1 H2].
    split; intros ->; tauto. }
  assert (Hbom : Text.stripBOM (encodeTable Text.COMMA rows) = encodeTable Text.COMMA rows).
  { destruct rows as [| r rs]; [contradiction |].
    destruct r as [| f fs]; [inversion Hrows; contradiction |].
    unfold encodeTable, encodeLine. cbn [map].
    destruct rs as [| r2 rs]; destruct fs as [| g fs]; reflexivity. }
  rewrite Hbom.
  rewrite normalizeNewlines_id by (intros H; apply (proj1 (Units _ H)); reflexivity).
  rewrite detectDelim_comma by (intros H; apply (proj2 (Units _ H)); reflexivity).
  destruct rows as [| r rs]; [contradiction |].
  rewrite scan_table; try discriminate; [reflexivity | exact Hrows].
Qed.

Lemma GaussV3_parseCSV_round_trip_witness :
  GaussV3Csv.parseRows
    (encodeTable Text.COMMA
       [[[84; 101; 97; 109]; [80; 80; 68]]; [[75; 67; 44; 32; 77; 79]; [50; 46; 52]]]%N)
  = [[[84; 101; 97; 109]; [80; 80; 68]]; [[75; 67; 44; 32; 77; 79]; [50; 46; 52]]]%N.
Proof.
  refine (GaussV3_parseCSV_round_trip
            [[[84; 101; 97; 109]; [80; 80; 68]]; [[75; 67; 44; 32; 77; 79]; [50; 46; 52]]]%N
            _ _ _).
  - discriminate.
  - repeat constructor; discriminate.
  - repeat (apply Forall_cons; [| try apply Forall_nil]);
      try apply Forall_nil;
      repeat (apply Forall_cons; [| try apply Forall_nil]);
      split; cbn; intuition discriminate.
Defined.

(** ** CSV input: the team file of the v4 engine *)

Lemma splitOn_length (sep : N) (s : Text.str) :
  forall cur,
    List.length (Text.splitOn sep s cur) = S (count_occ N.eq_dec s sep).
Proof.
  induction s as [| c s IH]; intros cur; cbn [Text.splitOn count_occ]; [reflexivity |].
  destruct (N.eqb_spec c sep) as [E | Hn].
  - cbn [List.length]. rewrite IH.
    destruct (N.eq_dec c sep); [reflexivity | contradiction].
  - rewrite IH. destruct (N.eq_dec c sep); [contradiction | reflexivity].
Qed.

Lemma trim_stripBOM (text : Text.str) :
  Text.trim (Text.stripBOM text) = Text.trim text.
Proof.
  destruct text as [| c r]; [reflexivity |].
  cbn [Text.stripBOM]. destruct (N.eqb_spec c Text.BOM) as [E | _]; [| reflexivity].
  subst c. reflexivity.
Qed.

Lemma addLine_named (headers : list Text.str) (lines : list Text.str) :
  forall teamData,
    Forall (fun team => exists c r, Text.getProp V4Csv.key_Team team = Some (c :: r))
           teamData ->
    let out := fold_left (V4Csv.addLine headers) lines teamData in
    Forall (fun team => exists c r, Text.getProp V4Csv.key_Team team = Some (c :: r)) out
    /\ (List.length out <= List.length teamData + List.length lines)%nat.
Proof.
  induction lines as [| line lines IH]; intros teamData Hall; cbn [fold_left].
  - cbv zeta. split; [exact Hall | lia].
  - cbv zeta in IH |- *.
    assert (Hstep : Forall (fun team => exists c r,
                                Text.getProp V4Csv.key_Team team = Some (c :: r))
                           (V4Csv.addLine headers teamData line)
                    /\ (List.length (V4Csv.addLine headers teamData line)
                        <= S (List.length teamData))%nat).
    { unfold V4Csv.addLine.
      destruct (_ <? _)%Z; [split; [exact Hall | lia] |].
      destruct (V4Csv.teamNameOf _) as [[| c r] |]; try (split; [exact Hall | lia]).
      split.
      - apply Forall_app; split; [exact Hall |].
        constructor; [| constructor]. exists c, r. reflexivity.
      - rewrite length_app; cbn [List.length]. lia. }
    destruct Hstep as [H1 H2].
    destruct (IH _ H1) as [I1 I2].
    split; [exact I1 |]. cbn [List.length]. lia.
Qed.

(** X29: the team-file parser of the v4 engine.  A leading byte-order mark
    does not change the outcome.  A text without a line feed after
    trimming is rejected as empty or invalid; any other failure is the
    report that no valid team data was found.  On success the list is
    not empty, holds at most one team per data line, and every team has
    a non-empty [Team] property. *)
Theorem V4_parseCSV_outcomes (csvText : Text.str) :
  V4Csv.parseCSV (Text.BOM :: csvText) = V4Csv.parseCSV csvText
  /\ (~ In Text.LF (Text.trim csvText) ->
      V4Csv.parseCSV csvText = V4Csv.Throws "CSV file appears to be empty or invalid")
  /\ match V4Csv.parseCSV csvText with
     | V4Csv.Returns teams =>
         teams <> []
         /\ (List.length teams <= count_occ N.eq_dec (Text.trim csvText) Text.LF)%nat
         /\ Forall (fun team => exists c r,
                        Text.getProp V4Csv.key_Team team = Some (c :: r)) teams
     | V4Csv.Throws message =>
         (message = "CSV file appears to be empty or invalid"%string
          /\ ~ In Text.LF (Text.trim csvText))
         \/ (message = "No valid team data found. Please check CSV format."%string
             /\ In Text.LF (Text.trim csvText))
     end.
Proof.
  assert (E : forall t, V4Csv.parseCSV t
                        = let lines := Text.split Text.LF (Text.trim t) in
                          if (List.length lines <? 2)%nat
                          then V4Csv.Throws "CSV file appears to be empty or invalid"
                          else match fold_left (V4Csv.addLine (V4Csv.parseCSVLine (hd [] lines)))
                                               (tl lines) [] with
                               | [] => V4Csv.Throws
                                         "No valid team data found. Please check CSV format."
                               | a :: l => V4Csv.Returns (a :: l)
                               end).
  { intros t. unfold V4Csv.parseCSV. rewrite trim_stripBOM. cbv zeta.
    destruct (_ <? _)%nat; [reflexivity |].
    destruct (fold_left _ _ _); reflexivity. }
  split.
  { rewrite !E. cbv zeta.
    replace (Text.trim (Text.BOM :: csvText)) with (Text.trim csvText); [reflexivity |].
    reflexivity. }
  rewrite E. cbv zeta.
  pose proof (splitOn_length Text.LF (Text.trim csvText) []) as Hlen.
  fold (Text.split Text.LF (Text.trim csvText)) in Hlen.
  assert (Hcount : In Text.LF (Text.trim csvText)
                   <-> (0 < count_occ N.eq_dec (Text.trim csvText) Text.LF)%nat).
  { apply count_occ_In. }
  split.
  - intros Hn.
    destruct (Nat.ltb_spec (List.length (Text.split Text.LF (Text.trim csvText))) 2)
      as [_ | H]; [reflexivity |].
    exfalso. apply Hn, Hcount. lia.
  - destruct (Nat.ltb_spec (List.length (Text.split Text.LF (Text.trim csvText))) 2)
      as [H | H].
    + left. split; [reflexivity |]. intros Hin. apply Hcount in Hin. lia.
    + destruct (addLine_named
                  (V4Csv.parseCSVLine (hd [] (Text.split Text.LF (Text.trim csvText))))
                  (tl (Text.split Text.LF (Text.trim csvText))) [] (Forall_nil _))
        as [F L].
      cbv zeta in F, L.
      assert (Htl : List.length (tl (Text.split Text.LF (Text.trim csvText)))
                    = count_occ N.eq_dec (Text.trim csvText) Text.LF).
      { destruct (Text.split Text.LF (Text.trim csvText));
          cbn [List.length tl] in *; lia. }
      rewrite Htl in L. cbn [List.length Nat.add] in L.
      destruct (fold_left _ _ []) as [| a l] eqn:Ef.
      * right. split; [reflexivity |]. apply Hcount. lia.
      * split; [discriminate |]. split; [exact L | exact F].
Qed.

Lemma V4_parseCSV_outcomes_witness :
  V4Csv.parseCSV [84; 101; 97; 109]%N
  = V4Csv.Throws "CSV file appears to be empty or invalid".
Proof.
  refine (proj1 (proj2 (V4_parseCSV_outcomes [84; 101; 97; 109]%N)) _).
  cbn. intuition discriminate.
Defined.

Lemma findValue_spec (team : Text.obj) (names : list Text.str) :
  match V4Csv.findValue team names with
  | Some v => v <> [] /\ exists name, In name names /\ Text.getProp name team = Some v
  | None => Forall (fun name => Text.getProp name team = None
                                \/ Text.getProp name team = Some []) names
  end.
Proof.
  induction names as [| name names IH]; cbn [V4Csv.findValue]; [constructor |].
  destruct (Text.getProp name team) as [[| c r] |] eqn:E.
  - destruct (V4Csv.findValue team names) as [v |].
    + destruct IH as [Hv (n & Hn & Hg)]. split; [exact Hv |].
      exists n; split; [right; exact Hn | exact Hg].
    + constructor; [right; exact E | exact IH].
  - split; [discriminate |]. exists name. split; [left; reflexivity | exact E].
  - destruct (V4Csv.findValue team names) as [v |].
    + destruct IH as [Hv (n & Hn & Hg)]. split; [exact Hv |].
      exists n; split; [right; exact Hn | exact Hg].
    + constructor; [left; exact E | exact IH].
Qed.

Lemma trimStart_blank (s : Text.str) :
  forallb Text.is_space s = true -> Text.trimStart s = [].
Proof.
  induction s as [| c s IH]; cbn [forallb Text.trimStart]; [reflexivity |].
  intros H. apply andb_prop in H. destruct H as [Hc Hs].
  rewrite Hc. apply IH. exact Hs.
Qed.

Lemma trim_blank (s : Text.str) :
  forallb Text.is_space s = true -> Text.trim s = [].
Proof.
  intros H. unfold Text.trim. rewrite trimStart_blank by exact H. reflexivity.
Qed.

Lemma forallb_snoc {A : Type} (p : A -> bool) (l : list A) (x : A) :
  forallb p l = true -> p x = true -> forallb p (l ++ [x]) = true.
Proof.
  intros Hl Hx. rewrite forallb_app, Hl. cbn [forallb]. rewrite Hx. reflexivity.
Qed.

Lemma scan_blank (delim : N) (text : Text.str) :
  forallb Text.is_space text = true ->
  forall rows row field,
    forallb (forallb Text.is_empty) rows = true ->
    forallb Text.is_empty row = true ->
    forallb Text.is_space field = true ->
    forallb (forallb Text.is_empty)
            (GaussV3Csv.scan delim text rows row field false) = true.
Proof.
  induction text as [| ch text IH]; intros Ht rows row field Hrows Hrow Hfield;
    cbn [GaussV3Csv.scan].
  - apply forallb_snoc; [exact Hrows |].
    apply forallb_snoc; [exact Hrow |].
    rewrite trim_blank by exact Hfield. reflexivity.
  - cbn [forallb] in Ht. apply andb_prop in Ht. destruct Ht as [Hc Ht].
    destruct (N.eqb_spec ch Text.QUOTE) as [E | _].
    { rewrite E in Hc. discriminate. }
    assert (Hpush : forallb Text.is_empty (row ++ [Text.trim field]) = true).
    { apply forallb_snoc; [exact Hrow |].
      rewrite trim_blank by exact Hfield. reflexivity. }
    destruct (ch =? delim)%N; [apply IH; auto |].
    destruct (ch =? Text.LF)%N.
    + apply IH; auto. apply forallb_snoc; assumption.
    + apply IH; auto. apply forallb_snoc; assumption.
Qed.

Lemma forallb_reversed {A : Type} (p : A -> bool) (l : list A) :
  forallb p l = true -> forallb p (rev l) = true.
Proof.
  intros H. apply forallb_forall. intros x Hx.
  apply in_rev in Hx. rewrite forallb_forall in H. exact (H x Hx).
Qed.

Lemma dropEmptyRows_all (rows : list (list Text.str)) :
  forallb (forallb Text.is_empty) rows = true -> GaussV3Csv.dropEmptyRows rows = [].
Proof.
  induction rows as [| r rows IH]; cbn [forallb GaussV3Csv.dropEmptyRows]; [reflexivity |].
  intros H. apply andb_prop in H. destruct H as [Hr Hs].
  rewrite Hr. apply IH. exact Hs.
Qed.

Lemma replaceCRLF_blank (n : nat) :
  forall s, (List.length s <= n)%nat ->
            forallb Text.is_space s = true ->
            forallb Text.is_space (Text.replaceCRLF s) = true.
Proof.
  induction n as [| n IH]; intros s Hlen Hs.
  - destruct s; [reflexivity | cbn [List.length] in Hlen; lia].
  - destruct s as [| c s]; [reflexivity |].
    cbn [Text.replaceCRLF].
    cbn [forallb] in Hs. apply andb_prop in Hs. destruct Hs as [Hc Hs].
    cbn [List.length] in Hlen.
    destruct s as [| c2 s2]; [cbn [forallb]; rewrite Hc; reflexivity |].
    destruct ((c =? Text.CR)%N && (c2 =? Text.LF)%N).
    + cbn [forallb]. change (Text.is_space Text.LF) with true. cbn [andb].
      apply IH; [cbn [List.length] in Hlen; lia |].
      cbn [forallb] in Hs. apply andb_prop in Hs. tauto.
    + cbn [forallb]. rewrite Hc. cbn [andb].
      apply IH; [lia | exact Hs].
Qed.

Lemma normalizeNewlines_blank (s : Text.str) :
  forallb Text.is_space s = true ->
  forallb Text.is_space (Text.normalizeNewlines s) = true.
Proof.
  intros Hs. unfold Text.normalizeNewlines.
  pose proof (replaceCRLF_blank (List.length s) s (Nat.le_refl _) Hs) as H.
  revert H. generalize (Text.replaceCRLF s). intros l.
  induction l as [| c l IH]; cbn [map forallb]; [reflexivity |].
  intros H. apply andb_prop in H. destruct H as [Hc Hl].
  rewrite (IH Hl), Bool.andb_true_r.
  destruct (c =? Text.CR)%N; [reflexivity | exact Hc].
Qed.

(** X30: a text made of white space only (spaces, tabs, line breaks, a
    byte-order mark; the empty text included) gives the Gaussian v3
    parser no header and no records: every row it scans is blank and is
    removed. *)
Theorem GaussV3_parseCSV_blank (text : Text.str) :
  forallb Text.is_space text = true ->
  GaussV3Csv.parseCSV text = GaussV3Csv.mkParsed [] [].
Proof.
  intros Hs.
  assert (Hb : forallb Text.is_space (Text.stripBOM text) = true).
  { destruct text as [| c r]; [reflexivity |].
    cbn [Text.stripBOM]. destruct (c =? Text.BOM)%N; [| exact Hs].
    cbn [forallb] in Hs. apply andb_prop in Hs. tauto. }
  apply normalizeNewlines_blank in Hb.
  unfold GaussV3Csv.parseCSV, GaussV3Csv.parseRows, GaussV3Csv.dropTrailingEmpty.
  rewrite dropEmptyRows_all; [reflexivity |].
  apply forallb_reversed.
  apply scan_blank; [exact Hb | reflexivity | reflexivity | reflexivity].
Qed.

Lemma GaussV3_parseCSV_blank_witness :
  GaussV3Csv.parseCSV [65279; 32; 13; 10; 9; 10]%N = GaussV3Csv.mkParsed [] [].
Proof.
  apply GaussV3_parseCSV_blank. reflexivity.
Defined.
